(** * Fixel-based statistics of MRtrix3: a shallow embedding

    The development follows three source files:
    - [src/stats/permute.h]       (namespace [MR::Stats]): [statistic2pvalue],
      [is_duplicate_vector], [is_duplicate_permutation] and [rank];
    - [lib/math/stats/glm.h]      (namespace [MR::Math::Stats]):
      [GLM::scale_contrasts], [GLM::ttest], the effect sizes
      ([GLM::solve_betas], [GLM::abs_effect_size], [GLM::stdev],
      [GLM::std_effect_size]) and the class [GLMTTest];
    - [cmd/fixelcfestats.cpp]     (function [run]): the checks on the
      inputs, the streamline-count check, the normalisation of the
      connectivity matrix with the derivation of the smoothing weights, and
      the data smoother; the constructor of [SubjectFixelImport] and the
      class [Source].

    Numbers.  The C++ code computes with IEEE-754 [float] and [double].
    Here a floating-point value is a [value]: either a finite number, held
    as an exact rational, or one of the three kinds of non-finite value
    (+inf, -inf, NaN).  The special values follow IEEE-754 (comparisons
    with NaN are false, x/0 is an infinity or NaN, inf*0 is NaN, ...);
    finite arithmetic is exact: rounding, underflow and the sign of zero
    are not modelled.  Overflow is modelled where the source stores a
    result in a variable it declares [float] (the two constants of the
    Gaussian kernel in [run]): there a magnitude beyond the range of
    [float] becomes an infinity, see [to_float].

    The first part of the file holds the definitions, module by module in
    the order of the source files; the second part holds the lemmas and
    theorems. *)

From Stdlib Require Import Ascii String DecimalString QArith Lqa List Lia Bool Arith ZArith
  Permutation.
Import ListNotations.

Set Implicit Arguments.
Close Scope Q_scope.
Open Scope nat_scope.

(* ================================================================== *)
(** * Part I: definitions                                              *)
(* ================================================================== *)

(** ** Floating-point values *)

Module Value.

Inductive value : Type :=
| Fin (q : Q)        (* a finite number *)
| Inf (neg : bool)   (* +inf when [neg = false], -inf when [neg = true] *)
| NaN.

Definition Qltb (x y : Q) : bool := negb (Qle_bool y x).

Definition Qis0 (x : Q) : bool := Qeq_bool x 0.

(** [std::isfinite] *)
Definition isfinite (v : value) : bool :=
  match v with Fin _ => true | _ => false end.

(** Conversion to [bool] ([if (x)]): every value but zero is true, NaN
    and the infinities included. *)
Definition truthy (v : value) : bool :=
  match v with Fin q => negb (Qis0 q) | _ => true end.

Definition vneg (v : value) : value :=
  match v with
  | Fin q => Fin (- q)
  | Inf s => Inf (negb s)
  | NaN => NaN
  end.

Definition vadd (a b : value) : value :=
  match a, b with
  | Fin x, Fin y => Fin (x + y)
  | Fin _, Inf s => Inf s
  | Inf s, Fin _ => Inf s
  | Inf s, Inf s' => if Bool.eqb s s' then Inf s else NaN
  | _, _ => NaN
  end.

Definition vsub (a b : value) : value := vadd a (vneg b).

Definition vmul (a b : value) : value :=
  match a, b with
  | Fin x, Fin y => Fin (x * y)
  | Fin x, Inf s => if Qis0 x then NaN else Inf (xorb (Qltb x 0) s)
  | Inf s, Fin y => if Qis0 y then NaN else Inf (xorb s (Qltb y 0))
  | Inf s, Inf s' => Inf (xorb s s')
  | _, _ => NaN
  end.

Definition vdiv (a b : value) : value :=
  match a, b with
  | Fin x, Fin y =>
      if Qis0 y then (if Qis0 x then NaN else Inf (Qltb x 0))
      else Fin (x / y)
  | Fin _, Inf _ => Fin 0
  | Inf s, Fin y => Inf (xorb s (Qltb y 0))
  | Inf _, Inf _ => NaN
  | _, _ => NaN
  end.

(** [a < b]; false as soon as one side is NaN. *)
Definition vlt (a b : value) : bool :=
  match a, b with
  | Fin x, Fin y => Qltb x y
  | Fin _, Inf s => negb s
  | Inf s, Fin _ => s
  | Inf s, Inf s' => s && negb s'
  | _, _ => false
  end.

Definition vgt (a b : value) : bool := vlt b a.

(** Equality of values as numbers: the rationals are compared with [Qeq]. *)
Definition veq (a b : value) : Prop :=
  match a, b with
  | Fin x, Fin y => (x == y)%Q
  | Inf s, Inf s' => s = s'
  | NaN, NaN => True
  | _, _ => False
  end.

(** Conversion of an unsigned integer to a floating-point value. *)
Definition of_nat (n : nat) : value := Fin (inject_Z (Z.of_nat n)).

(** A positive value: a positive number or +inf. *)
Definition positive (v : value) : Prop := vgt v (Fin 0) = true.

(** A positive number. *)
Definition positive_finite (v : value) : Prop :=
  exists q, v = Fin q /\ (0 < q)%Q.

(** The least magnitude that the conversion to [float] rounds to an
    infinity: [FLT_MAX = (2 - 2^-23) * 2^127] plus half a unit in its last
    place. *)
Definition FLT_OVERFLOW : Q := inject_Z (2 ^ 128 - 2 ^ 103).

(** A value stored in a [float]: a magnitude out of the range of [float]
    becomes an infinity.  (The rounding of the numbers in range is not
    modelled.) *)
Definition to_float (v : value) : value :=
  match v with
  | Fin q =>
      if Qle_bool FLT_OVERFLOW q then Inf false
      else if Qle_bool q (- FLT_OVERFLOW) then Inf true
      else Fin q
  | _ => v
  end.

(** Lifting of a library function given on the finite numbers. *)
Section Libm.
Variable Qsqrt : Q -> Q.
Variable Qexp : Q -> Q.

(** [std::sqrt] *)
Definition vsqrt (v : value) : value :=
  match v with
  | Fin q => if Qltb q 0 then NaN else Fin (Qsqrt q)
  | Inf false => Inf false
  | _ => NaN
  end.

(** [std::exp] *)
Definition vexp (v : value) : value :=
  match v with
  | Fin q => Fin (Qexp q)
  | Inf false => Inf false
  | Inf true => Fin 0
  | NaN => NaN
  end.
End Libm.

End Value.

Export Value.

Declare Scope value_scope.
Delimit Scope value_scope with V.
Bind Scope value_scope with value.
Infix "+" := vadd : value_scope.
Infix "-" := vsub : value_scope.
Infix "*" := vmul : value_scope.
Infix "/" := vdiv : value_scope.
Infix "<?" := vlt : value_scope.
Infix ">?" := vgt (at level 70) : value_scope.
Infix "==" := veq : value_scope.

(** ** Outcomes of a call *)

Module Outcome.

(** A call returns, throws a C++ [Exception], or breaks the contract of
    a library operation (an index out of range, operands whose sizes do
    not fit, a read of coefficients that were never written): Eigen and
    [std::vector] then fail an assertion in a debug build and have
    undefined behaviour otherwise. *)
Inductive outcome (A : Type) : Type :=
| Ok (a : A)
| Thrown (what : string)
| Undefined.

Arguments Ok {A} a.
Arguments Thrown {A} what.
Arguments Undefined {A}.

Definition bind {A B : Type} (c : outcome A) (k : A -> outcome B) : outcome B :=
  match c with
  | Ok a => k a
  | Thrown w => Thrown w
  | Undefined => Undefined
  end.

(** A loop over the elements of [l], left at the first failure. *)
Fixpoint foldM {A St : Type} (body : St -> A -> outcome St) (l : list A) (s : St)
  : outcome St :=
  match l with
  | [] => Ok s
  | a :: l' => bind (body s a) (foldM body l')
  end.

Definition require (b : bool) : outcome unit := if b then Ok tt else Undefined.

(** The call returned. *)
Definition returns {A : Type} (c : outcome A) : bool :=
  match c with Ok _ => true | _ => false end.

(** The call ended with a C++ exception. *)
Definition throws {A : Type} (c : outcome A) : bool :=
  match c with Thrown _ => true | _ => false end.


End Outcome.

Export Outcome.

Notation "'let*' x ':=' c 'in' k" := (bind c (fun x => k))
  (at level 10, x pattern, c at level 100, k at level 200).
Notation "'assume' b 'in' k" := (bind (require b) (fun _ => k))
  (at level 10, b at level 100, k at level 200).

(** ** Dense matrices ([Eigen::Matrix<ValueType, Dynamic, Dynamic>]) *)

Module Eigen.

(** A matrix is its two dimensions and its coefficients; only the
    coefficients [coeff m i j] with [i < rows m] and [j < cols m] belong to
    it, and every operation below checks the sizes Eigen asserts. *)
Record matrix : Type := Matrix {
  rows : nat;
  cols : nat;
  coeff : nat -> nat -> value
}.

(** Sum of [f 0], ..., [f (n-1)], from the left. *)
Fixpoint sum_upto (n : nat) (f : nat -> value) : value :=
  match n with
  | O => Fin 0
  | S n' => (sum_upto n' f + f n')%V
  end.

Definition transpose (m : matrix) : matrix :=
  Matrix (cols m) (rows m) (fun i j => coeff m j i).

(** [a * b] *)
Definition mul (a b : matrix) : outcome matrix :=
  assume (cols a =? rows b) in
  Ok (Matrix (rows a) (cols b)
        (fun i j => sum_upto (cols a) (fun k => coeff a i k * coeff b k j)%V)).

(** [a - b] *)
Definition sub (a b : matrix) : outcome matrix :=
  assume ((rows a =? rows b) && (cols a =? cols b)) in
  Ok (Matrix (rows a) (cols a) (fun i j => coeff a i j - coeff b i j)%V).

(** [m(i,j)] *)
Definition get (m : matrix) (i j : nat) : outcome value :=
  assume ((i <? rows m) && (j <? cols m)) in Ok (coeff m i j).

(** [m.block (startRow, startCol, blockRows, blockCols)]: the third and
    fourth arguments are the numbers of rows and columns of the block. *)
Definition block (m : matrix) (startRow startCol blockRows blockCols : nat)
  : outcome matrix :=
  assume ((startRow + blockRows <=? rows m) && (startCol + blockCols <=? cols m)) in
  Ok (Matrix blockRows blockCols
        (fun i j => coeff m (startRow + i) (startCol + j))).

(** [m.resize (r, c)] on a default-constructed matrix: [r * c]
    coefficients, none of them written yet.  They are shown as NaN here
    and every one that is read afterwards has been assigned before. *)
Definition fresh (r c : nat) : matrix := Matrix r c (fun _ _ => NaN).

(** [m.resize (r, c)]: with as many coefficients as before, the buffer is
    kept and read in column-major order with the new shape; otherwise the
    buffer is allocated anew and the coefficients are not initialised,
    which leaves a matrix to work with only when it has no coefficient. *)
Definition resize (m : matrix) (r c : nat) : outcome matrix :=
  if r * c =? rows m * cols m then
    Ok (Matrix r c
          (fun i j => let idx := j * r + i in
                      coeff m (idx mod rows m) (idx / rows m)))
  else if r * c =? 0 then Ok (fresh r c)
  else Undefined.

(** [dst.row(i) = src.row(k)] *)
Definition assign_row (dst : matrix) (i : nat) (src : matrix) (k : nat)
  : outcome matrix :=
  assume ((i <? rows dst) && (k <? rows src) && (cols dst =? cols src)) in
  Ok (Matrix (rows dst) (cols dst)
        (fun r c => if r =? i then coeff src k c else coeff dst r c)).

(** [dst.col(i) = src.col(k)] *)
Definition assign_col (dst : matrix) (i : nat) (src : matrix) (k : nat)
  : outcome matrix :=
  assume ((i <? cols dst) && (k <? cols src) && (rows dst =? rows src)) in
  Ok (Matrix (rows dst) (cols dst)
        (fun r c => if c =? i then coeff src r k else coeff dst r c)).

(** [m.row(n) *= s] *)
Definition scale_row (m : matrix) (n : nat) (s : value) : outcome matrix :=
  assume (n <? rows m) in
  Ok (Matrix (rows m) (cols m)
        (fun r c => if r =? n then (coeff m r c * s)%V else coeff m r c)).

(** [m.row(n).array() /= s] *)
Definition div_row (m : matrix) (n : nat) (s : value) : outcome matrix :=
  assume (n <? rows m) in
  Ok (Matrix (rows m) (cols m)
        (fun r c => if r =? n then (coeff m r c / s)%V else coeff m r c)).

(** [a.row(n).dot(v)] for a column vector [v] *)
Definition row_dot (a : matrix) (n : nat) (v : matrix) : outcome value :=
  assume ((n <? rows a) && (cols v =? 1) && (cols a =? rows v)) in
  Ok (sum_upto (cols a) (fun k => coeff a n k * coeff v k 0)%V).

(** [a.row(n).transpose()] *)
Definition row_transposed (a : matrix) (n : nat) : outcome matrix :=
  assume (n <? rows a) in
  Ok (Matrix (cols a) 1 (fun i _ => coeff a n i)).

Section Norm.
Variable Qsqrt : Q -> Q.

(** [m.row(n).norm()] *)
Definition row_norm (m : matrix) (n : nat) : outcome value :=
  assume (n <? rows m) in
  Ok (vsqrt Qsqrt (sum_upto (cols m) (fun k => coeff m n k * coeff m n k)%V)).
End Norm.

(** [m.array().f()]: a function applied to every coefficient. *)
Definition cwise (f : value -> value) (m : matrix) : matrix :=
  Matrix (rows m) (cols m) (fun i j => f (coeff m i j)).

(** [a.array() / b.array()] *)
Definition cwise_div (a b : matrix) : outcome matrix :=
  assume ((rows a =? rows b) && (cols a =? cols b)) in
  Ok (Matrix (rows a) (cols a) (fun i j => coeff a i j / coeff b i j)%V).

(** A matrix of [r] rows and [c] columns after [fill (v)]. *)
Definition filled (r c : nat) (v : value) : matrix := Matrix r c (fun _ _ => v).

(** The matrix of the rows [l], all of length [c]. *)
Definition of_lists (c : nat) (l : list (list value)) : matrix :=
  Matrix (length l) c (fun i j => nth j (nth i l []) NaN).

End Eigen.

Import Eigen.

(** ** [src/stats/permute.h] *)

Module Permute.

(** [std::sort] on the copy of the permutation distribution: ascending
    order, here by insertion. *)
Fixpoint sort_insert (x : Q) (l : list Q) : list Q :=
  match l with
  | [] => [x]
  | y :: l' => if Qle_bool x y then x :: l else y :: sort_insert x l'
  end.

Fixpoint std_sort (l : list Q) : list Q :=
  match l with
  | [] => []
  | x :: l' => sort_insert x (std_sort l')
  end.

(** The inner loop of [statistic2pvalue], from index [i] on: the p-value
    is set at the first [permutations[i]] with [tvalue < permutations[i]]
    and the loop is left; [size] is [permutations.size()]. *)
Fixpoint pvalue_loop (tvalue : value) (size : nat) (rest : list Q) (i : nat)
                     (pvalue : value) : value :=
  match rest with
  | [] => pvalue
  | p :: rest' =>
      if (tvalue <? Fin p)%V then (of_nat i / of_nat size)%V
      else pvalue_loop tvalue size rest' (S i) pvalue
  end.

(** The body of the voxel loop: the value written to [p_voxel]. *)
Definition pvalue_of (permutations : list Q) (tvalue : value) : value :=
  if (tvalue >? Fin 0)%V then
    pvalue_loop tvalue (length permutations) permutations 0 (Fin 1)
  else Fin 0.

(** [statistic2pvalue]: the image of statistics is a list of voxel values,
    visited in order. *)
Definition statistic2pvalue (perm_dist : list Q) (stat_voxel : list value)
  : list value :=
  let permutations := std_sort perm_dist in
  map (pvalue_of permutations) stat_voxel.

(** [v[i]] of a [std::vector]: an index beyond the size is outside the
    vector. *)
Definition at_index {A : Type} (v : list A) (i : nat) : outcome A :=
  match nth_error v i with
  | Some a => Ok a
  | None => Undefined
  end.

(** The loop of [is_duplicate_vector] from index [i] on; [rest1] holds
    [v1[i]], [v1[i+1]], ... *)
Fixpoint is_duplicate_vector_from (i : nat) (rest1 : list nat) (v2 : list nat)
  : outcome bool :=
  match rest1 with
  | [] => Ok true
  | x :: rest1' =>
      let* y := at_index v2 i in
      if negb (x =? y) then Ok false
      else is_duplicate_vector_from (S i) rest1' v2
  end.

Definition is_duplicate_vector (v1 v2 : list nat) : outcome bool :=
  is_duplicate_vector_from 0 v1 v2.

(** The loop of [is_duplicate_permutation] over the previous
    permutations, from the one it is at. *)
Fixpoint is_duplicate_permutation (perm : list nat)
                                  (previous_permutations : list (list nat))
  : outcome bool :=
  match previous_permutations with
  | [] => Ok false
  | previous :: rest =>
      let* duplicate := is_duplicate_vector perm previous in
      if duplicate then Ok true
      else is_duplicate_permutation perm rest
  end.

(** The tolerance [1.0e-10] below which a singular value counts as zero. *)
Definition singular_tolerance : Q := 1 # 10000000000.

Section SVD.

(** [gsl_linalg_SV_decomp]: the singular values [S[0]], ..., [S[N-1]] it
    writes for a matrix, [N] the smaller of its two sizes.  (The checks of
    the GSL on the sizes of its arguments are left out.) *)
Variable singular_value : matrix -> nat -> Q.

(** The loop of [rank] from index [n] on, with [todo] indices left. *)
Fixpoint rank_from (M : matrix) (N n todo : nat) : nat :=
  match todo with
  | O => N
  | S todo' =>
      if Qltb (singular_value M n) singular_tolerance then n + 1
      else rank_from M N (S n) todo'
  end.

(** [rank] *)
Definition rank (M : matrix) : nat :=
  let N := Nat.min (rows M) (cols M) in
  rank_from M N 0 N.

End SVD.

End Permute.


(** ** [lib/math/stats/glm.h] *)

Module GLM.

Definition GLM_BATCH_SIZE : nat := 1024.

Definition univariate_only : string :=
  "too many columns in contrast matrix: this implementation currently only supports univariate GLM".

(** [size_t (x)] for a signed 64-bit [x]. *)
Definition to_size_t (x : Z) : Z := (x mod 2 ^ 64)%Z.

(** [ValueType (n)] for a [size_t]. *)
Definition of_size_t (n : Z) : value := Fin (inject_Z n).

Section LinearAlgebra.

(** [std::sqrt] on the finite numbers, and [Math::pinv] and [Math::rank]
    of [math/least_squares.h]. *)
Variable Qsqrt : Q -> Q.
Variable pinv : matrix -> matrix.
Variable rank : matrix -> nat.

(** [GLM::scale_contrasts] *)
Definition scale_contrasts (contrasts design : matrix) (degrees_of_freedom : Z)
  : outcome matrix :=
  let* XtX0 := mul (transpose design) design in
  let XtX := pinv XtX0 in
  let scaled_contrasts := contrasts in
  if (1 <? cols scaled_contrasts) && (1 <? rows scaled_contrasts)
  then Thrown univariate_only
  else
    let scaled_contrasts :=
      if 1 <? rows scaled_contrasts then transpose scaled_contrasts
      else scaled_contrasts in
    let* scaled_contrasts :=
      resize scaled_contrasts (rows scaled_contrasts) (cols design) in
    foldM (fun scaled_contrasts n =>
             let* c_n := row_transposed contrasts n in
             let* pinv_XtX_c := mul XtX c_n in
             let* d := row_dot contrasts n pinv_XtX_c in
             scale_row scaled_contrasts n
               (vsqrt Qsqrt (of_size_t degrees_of_freedom / d)%V))
          (seq 0 (rows contrasts)) scaled_contrasts.

(** [GLM::ttest]; the three matrices written are returned: [tvalues],
    [betas], [residuals]. *)
Definition ttest (design pinv_design measurements scaled_contrasts : matrix)
  : outcome (matrix * matrix * matrix) :=
  let* betas := mul measurements pinv_design in
  let* fitted := mul betas design in
  let* residuals := sub measurements fitted in
  let* tvalues := mul betas scaled_contrasts in
  let* tvalues :=
    foldM (fun tvalues n =>
             let* norm := row_norm Qsqrt residuals n in
             div_row tvalues n norm)
          (seq 0 (rows tvalues)) tvalues in
  Ok (tvalues, betas, residuals).

(** The members of [class GLMTTest]. *)
Record GLMTTest : Type := {
  y : matrix;
  X : matrix;
  pinvX : matrix;
  scaled_contrasts : matrix
}.

(** The constructor [GLMTTest::GLMTTest]. *)
Definition GLMTTest_new (measurements design contrast : matrix) : outcome GLMTTest :=
  let degrees_of_freedom :=
    to_size_t (Z.of_nat (rows design) - Z.of_nat (rank design)) in
  let* scaled := scale_contrasts contrast design degrees_of_freedom in
  Ok {| y := measurements;
        X := design;
        pinvX := pinv design;
        scaled_contrasts := transpose scaled |}.

(** [std::vector]: [v.resize (n, fill)], [v[i]] and [v[i] = x]. *)
Definition vector_resize (v : list value) (n : nat) (fill : value) : list value :=
  firstn n v ++ repeat fill (n - length v).

Definition vector_get {A : Type} (v : list A) (i : nat) : outcome A :=
  match nth_error v i with
  | Some a => Ok a
  | None => Undefined
  end.

Definition vector_set (v : list value) (i : nat) (x : value) : outcome (list value) :=
  assume (i <? length v) in Ok (firstn i v ++ x :: skipn (S i) v).

(** What [operator()] writes through its reference parameters. *)
Record output : Type := {
  stats : list value;
  max_stat : value;
  min_stat : value
}.

(** The body of the loop over the rows [n] of [tvalues], in the batch that
    starts at row [i]. *)
Definition record_tvalue (i : nat) (tvalues : matrix) (out : output) (n : nat)
  : outcome output :=
  let* val := get tvalues n 0 in
  let out' :=
    if isfinite val then
      let max_stat' := if (val >? max_stat out)%V then val else max_stat out in
      let min_stat' := if (val <? min_stat out)%V then val else min_stat out in
      (val, max_stat', min_stat')
    else (Fin 0, max_stat out, min_stat out) in
  let '(val, max_stat', min_stat') := out' in
  let* stats' := vector_set (stats out) (i + n) val in
  Ok {| stats := stats'; max_stat := max_stat'; min_stat := min_stat' |}.

(** The values of [i] in [for (i = 0; i < n; i += GLM_BATCH_SIZE)]. *)
Definition batch_starts (n : nat) : list nat :=
  map (fun k => k * GLM_BATCH_SIZE)
      (seq 0 ((n + (GLM_BATCH_SIZE - 1)) / GLM_BATCH_SIZE)).

(** [GLMTTest::operator()] *)
Definition call (t : GLMTTest) (perm_labelling : list nat)
                (stats0 : list value) (max_stat0 min_stat0 : value)
  : outcome output :=
  let stats1 := vector_resize stats0 (rows (y t)) (Fin 0) in
  let SX := fresh (rows (X t)) (cols (X t)) in
  let pinvSX := fresh (rows (pinvX t)) (cols (pinvX t)) in
  let* (SX, pinvSX) :=
    foldM (fun '(SX, pinvSX) i =>
             let* p := vector_get perm_labelling i in
             let* SX := assign_row SX i (X t) p in
             let* pinvSX := assign_col pinvSX i (pinvX t) p in
             Ok (SX, pinvSX))
          (seq 0 (rows (X t))) (SX, pinvSX) in
  let pinvSX := transpose pinvSX in
  let SX := transpose SX in
  foldM (fun out i =>
           let* tmp := block (y t) i 0
                         (Nat.min (i + GLM_BATCH_SIZE) (rows (y t)))
                         (cols (y t)) in
           let* (tvalues, _, _) := ttest SX pinvSX tmp (scaled_contrasts t) in
           foldM (record_tvalue i tvalues) (seq 0 (rows tvalues)) out)
        (batch_starts (rows (y t)))
        {| stats := stats1; max_stat := max_stat0; min_stat := min_stat0 |}.

(** Construction followed by one call: a run of the test. *)
Definition run (measurements design contrast : matrix) (perm_labelling : list nat)
               (stats0 : list value) (max_stat0 min_stat0 : value)
  : outcome output :=
  let* t := GLMTTest_new measurements design contrast in
  call t perm_labelling stats0 max_stat0 min_stat0.

(** The t-value of fixel [i] by direct least squares, in the words of the
    specification: [beta = y_row . pinv(X)], [residual = y_row - beta . X],
    [t = (beta . scaled_c) / ||residual||], a non-finite [t] replaced by 0.
    [scaled_c] is the column of scaled contrasts. *)
Definition least_squares_tvalue (X pinvX scaled_c : matrix) (Y : matrix) (i : nat)
  : value :=
  let beta j := sum_upto (cols Y) (fun s => coeff Y i s * coeff pinvX j s)%V in
  let residual s :=
    (coeff Y i s - sum_upto (cols X) (fun j => beta j * coeff X s j))%V in
  let t := (sum_upto (cols X) (fun j => beta j * coeff scaled_c j 0)
            / vsqrt Qsqrt (sum_upto (cols Y) (fun s => residual s * residual s)))%V in
  if isfinite t then t else Fin 0.

End LinearAlgebra.

Section EffectSizes.

(** [std::sqrt] on the finite numbers, [Math::rank], and the coefficients
    of [design.jacobiSvd (ComputeThinU | ComputeThinV).solve (rhs)], a matrix
    with as many rows as [design] has columns and as many columns as
    [rhs]. *)
Variable Qsqrt : Q -> Q.
Variable rank : matrix -> nat.
Variable jacobiSvd_solve : matrix -> matrix -> nat -> nat -> value.

(** [GLM::solve_betas] *)
Definition solve_betas (measurements design : matrix) : outcome matrix :=
  let rhs := transpose measurements in
  assume (rows design =? rows rhs) in
  Ok (Matrix (cols design) (cols rhs) (jacobiSvd_solve design rhs)).

(** [GLM::abs_effect_size] *)
Definition abs_effect_size (measurements design contrast : matrix) : outcome matrix :=
  let* betas := solve_betas measurements design in
  mul contrast betas.

(** [GLM::stdev] *)
Definition stdev (measurements design : matrix) : outcome matrix :=
  let* betas := solve_betas measurements design in
  let* fitted := mul design betas in
  let* residuals := sub (transpose measurements) fitted in
  let residuals := cwise (fun x => x * x)%V residuals in
  let one_over_dof :=
    filled 1 (cols measurements)
      (Fin 1 / of_size_t (to_size_t (Z.of_nat (rows design) - Z.of_nat (rank design))))%V in
  let* sums := mul one_over_dof residuals in
  Ok (cwise (vsqrt Qsqrt) sums).

(** [GLM::std_effect_size] *)
Definition std_effect_size (measurements design contrast : matrix) : outcome matrix :=
  let* effect := abs_effect_size measurements design contrast in
  let* deviation := stdev measurements design in
  cwise_div effect deviation.

End EffectSizes.

End GLM.

(** ** [cmd/fixelcfestats.cpp] *)

(** [std::map<uint32_t, T>]: the entries in ascending order of the keys,
    which is the order in which an iterator visits them. *)
Module StdMap.

Definition t (T : Type) : Type := list (nat * T).

Fixpoint find {T : Type} (k : nat) (m : t T) : option T :=
  match m with
  | [] => None
  | (k', v) :: m' => if k' =? k then Some v else find k m'
  end.

(** [m.insert (std::pair (k, v))]: nothing happens when [k] is a key of
    [m] already. *)
Fixpoint insert {T : Type} (k : nat) (v : T) (m : t T) : t T :=
  match m with
  | [] => [(k, v)]
  | (k', v') :: m' =>
      if k <? k' then (k, v) :: m
      else if k =? k' then m
      else (k', v') :: insert k v m'
  end.

(** The keys of a map are in strictly ascending order. *)
Fixpoint ordered {T : Type} (m : t T) : Prop :=
  match m with
  | [] => True
  | (k, _) :: m' => Forall (fun e => k < fst e) m' /\ ordered m'
  end.

End StdMap.

Module FixelCFE.

Definition DEFAULT_CFE_C : Q := 1 # 2.
Definition DEFAULT_CONNECTIVITY_THRESHOLD : Q := 1 # 100.
Definition DEFAULT_SMOOTHING_STD : Q := 10.

(** *** The streamline count (lines 296-302) *)

Inductive event : Type :=
| WarnFewTracks (num_tracks : Z)    (* [WARN ("more than 1 million tracks is preferable ...")] *)
| RunTrackQueue (num_tracks : Z).   (* [Thread::run_queue (loader, ..., tract_processor)] *)

Definition no_tracks : string := "no tracks found in input file".

Section TrackCount.

(** [to<int>] of [mrtrix.h], on the text of a number. *)
Variable to_int : string -> Z.

(** [properties["count"].empty() ? 0 : to<int> (properties["count"])]:
    the count the track file declares, an [int]. *)
Definition declared_count (count : string) : Z :=
  if String.eqb count EmptyString then 0%Z else to_int count.

(** The initialisation of [const size_t num_tracks]. *)
Definition num_tracks (count : string) : Z :=
  GLM.to_size_t (declared_count count).

(** From the declaration of [num_tracks] to the end of the block that
    accumulates the connectivity: what is logged and run, and how the
    stage ends. *)
Definition read_tracks (count : string) : list event * outcome unit :=
  let n := num_tracks count in
  if (n =? 0)%Z then ([], Thrown no_tracks)
  else
    let warnings := if (n <? 1000000)%Z then [WarnFewTracks n] else [] in
    (warnings ++ [RunTrackQueue n], Ok tt).

End TrackCount.

(** *** Normalisation and smoothing weights (lines 319-367) *)

(** [smooth_std_dev], from the FWHM given with [-smooth]. *)
Definition std_dev_of_fwhm (fwhm : Q) : Q := (fwhm / (23548 # 10000))%Q.

Definition position : Type := (Q * Q * Q)%type.

(** [Math::pow2] *)
Definition pow2 (x : Q) : Q := (x * x)%Q.

Section Normalise.

(** [std::sqrt] and [std::exp] on the finite numbers, [std::pow], and
    [Math::pi]. *)
Variable Qsqrt : Q -> Q.
Variable Qexp : Q -> Q.
Variable vpow : value -> value -> value.
Variable PI : Q.

(** The options read at the start of [run], and what the earlier stages
    have built. *)
Variable cfe_c : Q.
Variable smooth_std_dev : Q.
Variable connectivity_threshold : Q.
Variable positions : list position.
Variable fixel_TDI : list nat.

(** [const float gaussian_const2] *)
Definition gaussian_const2 : value :=
  to_float (Fin (2 * smooth_std_dev * smooth_std_dev)).

Definition do_smoothing : bool := (Fin smooth_std_dev >? Fin 0)%V.

(** [float gaussian_const1] *)
Definition gaussian_const1 : value :=
  if do_smoothing
  then to_float (Fin 1 / (Fin smooth_std_dev * vsqrt Qsqrt (Fin (2 * PI))))%V
  else Fin 1.

Definition distance (a b : position) : value :=
  let '(a0, a1, a2) := a in
  let '(b0, b1, b2) := b in
  vsqrt Qsqrt (Fin (pow2 (a0 - b0) + pow2 (a1 - b1) + pow2 (a2 - b2))).

Definition position_of (fixel : nat) : position := nth fixel positions (0, 0, 0)%Q.

(** [it->second.value / connectivity_value_type (fixel_TDI[fixel])] *)
Definition connectivity_of (fixel : nat) (count : value) : value :=
  (count / of_nat (nth fixel fixel_TDI 0))%V.

Definition smoothing_weight_of (fixel j : nat) (connectivity : value) : value :=
  (connectivity * gaussian_const1
   * vexp Qexp (vneg (vpow (distance (position_of fixel) (position_of j)) (Fin 2))
                / gaussian_const2))%V.

(** The [while] loop over the entries of [connectivity_matrix[fixel]],
    from the entry the iterator is at: an entry is erased or overwritten
    in place, and [smoothing_weights[fixel]] grows.  The result is what is
    left of the entries and the smoothing weights. *)
Fixpoint threshold_entries (fixel : nat) (entries : StdMap.t value)
                           (smoothing_weights : StdMap.t value)
  : StdMap.t value * StdMap.t value :=
  match entries with
  | [] => ([], smoothing_weights)
  | (j, count) :: rest =>
      let connectivity := connectivity_of fixel count in
      if (connectivity <? Fin connectivity_threshold)%V then
        threshold_entries fixel rest smoothing_weights
      else
        let smoothing_weights' :=
          if do_smoothing then
            let smoothing_weight := smoothing_weight_of fixel j connectivity in
            if (smoothing_weight >? Fin (1 # 100))%V
            then StdMap.insert j smoothing_weight smoothing_weights
            else smoothing_weights
          else smoothing_weights in
        let '(rest', smoothing_weights'') :=
          threshold_entries fixel rest smoothing_weights' in
        ((j, vpow connectivity (Fin cfe_c)) :: rest', smoothing_weights'')
  end.

(** The smoothing weights of a fixel before they are normalised: the
    self weight has been inserted. *)
Definition raw_weights (fixel : nat) (entries : StdMap.t value) : StdMap.t value :=
  StdMap.insert fixel gaussian_const1 (snd (threshold_entries fixel entries [])).

(** [sum] after the first loop over the smoothing weights. *)
Definition weights_sum (weights : StdMap.t value) : value :=
  fold_left (fun sum entry => (sum + snd entry)%V) weights (Fin 0).

Definition norm_factor (weights : StdMap.t value) : value :=
  (Fin 1 / weights_sum weights)%V.

Definition scale_weights (weights : StdMap.t value) (factor : value) : StdMap.t value :=
  map (fun entry => (fst entry, (snd entry * factor)%V)) weights.

(** One turn of the loop over the fixels: the new [connectivity_matrix[fixel]]
    and [smoothing_weights[fixel]]. *)
Definition normalise_fixel (fixel : nat) (entries : StdMap.t value)
  : StdMap.t value * StdMap.t value :=
  let connectivity := fst (threshold_entries fixel entries []) in
  let connectivity := StdMap.insert fixel (Fin 1) connectivity in
  let weights := raw_weights fixel entries in
  (connectivity, scale_weights weights (norm_factor weights)).

(** The loop over the fixels; [num_fixels] is the length of
    [connectivity_matrix]. *)
Definition normalise (connectivity_matrix : list (StdMap.t value))
  : list (StdMap.t value) * list (StdMap.t value) :=
  split (map (fun '(fixel, entries) => normalise_fixel fixel entries)
             (combine (seq 0 (length connectivity_matrix)) connectivity_matrix)).

End Normalise.

(** *** The data smoother (lines 385-410) *)

(** [data (fixel, subject)] for the column [data] of one subject.  The
    keys of the smoothing weights are fixel indices, all below the number
    of fixels. *)
Definition at_fixel (data : list value) (fixel : nat) : value := nth fixel data NaN.

(** The loop over [smoothing_weights[fixel]]: [value] and [sum_weights]. *)
Definition accumulate (data : list value) (weights : StdMap.t value)
  : value * value :=
  fold_left (fun '(value, sum_weights) '(j, w) =>
               if isfinite (at_fixel data j)
               then ((value + at_fixel data j * w)%V, (sum_weights + w)%V)
               else (value, sum_weights))
            weights (Fin 0, Fin 0).

Definition smooth_fixel (smoothing_weights : list (StdMap.t value))
                        (data : list value) (fixel : nat) : value :=
  if isfinite (at_fixel data fixel) then
    let '(value, sum_weights) := accumulate data (nth fixel smoothing_weights []) in
    if truthy sum_weights then (value / sum_weights)%V else NaN
  else NaN.

(** [smoothed_data] for one subject. *)
Definition smooth (smoothing_weights : list (StdMap.t value)) (data : list value)
  : list value :=
  map (smooth_fixel smoothing_weights data) (seq 0 (length data)).

(** [smoothed_data.allFinite()] *)
Definition allFinite (data : list value) : bool := forallb isfinite data.

(** *** [SubjectFixelImport] (lines 140-177) *)

Definition double_quote : string := String (Ascii.ascii_of_nat 34) EmptyString.


Definition not_fixel_data (path : string) : string :=
  ("Image file " ++ double_quote ++ path ++ double_quote
   ++ " does not contain fixel data (wrong dimensions)")%string.

(** The loop of the constructor over the axes, from the one it is at;
    [sizes] holds [data.size (axis)], [data.size (axis + 1)], ... *)
Fixpoint check_axes (path : string) (sizes : list nat) : outcome unit :=
  match sizes with
  | [] => Ok tt
  | size :: rest =>
      if 1 <? size then Thrown (not_fixel_data path)
      else check_axes path rest
  end.

(** The constructor, on the sizes of the image along its axes: the loop
    starts at axis 1. *)
Definition SubjectFixelImport_new (path : string) (sizes : list nat) : outcome unit :=
  check_axes path (tl sizes).

(** *** The source of fixel indices (lines 446-470) *)

Record Source : Type := {
  num_fixels : nat;
  counter : nat
}.

Definition Source_new (num_fixels : nat) : Source :=
  {| num_fixels := num_fixels; counter := 0 |}.

(** [Source::operator()]: the index written to [fixel_index], the value
    returned, and the source after the call. *)
Definition Source_call (s : Source) : nat * bool * Source :=
  let fixel_index := counter s in
  let s' := {| num_fixels := num_fixels s; counter := counter s + 1 |} in
  if num_fixels s' <=? counter s' then (fixel_index, false, s')
  else (fixel_index, true, s').

(** What [n] calls in a row write and return. *)
Fixpoint Source_calls (n : nat) (s : Source) : list (nat * bool) :=
  match n with
  | O => []
  | S n' =>
      let '(fixel_index, more, s') := Source_call s in
      (fixel_index, more) :: Source_calls n' s'
  end.

(** *** The checks of [run] on its inputs (lines 225-302) *)


















End FixelCFE.

(** ** The properties in the words of the specification *)

Module Spec.

(** The number of permutation maxima that are not strictly greater than
    the statistic: the 0-based rank, in the sorted distribution, of the
    smallest maximum strictly greater than it (when there is one). *)
Definition count_not_above (tvalue : value) (perm_dist : list Q) : nat :=
  length (filter (fun p => negb (tvalue <? Fin p)%V) perm_dist).

Definition some_above (tvalue : value) (perm_dist : list Q) : bool :=
  existsb (fun p => (tvalue <? Fin p)%V) perm_dist.

(** The FWE p-value as the specification words it:
    [1 - rank / num_perms] for a positive statistic, 0 otherwise; the
    ranks are counted from [first_rank] (0 or 1). *)
Definition claimed_pvalue (first_rank : nat) (sorted : list Q) (tvalue : value)
  : value :=
  if (tvalue >? Fin 0)%V then
    (Fin 1 - of_nat (first_rank + count_not_above tvalue sorted)
             / of_nat (length sorted))%V
  else Fin 0.

(** Ascending order. *)
Fixpoint ascending (l : list Q) : Prop :=
  match l with
  | [] => True
  | x :: l' => (forall y, In y l' -> (x <= y)%Q) /\ ascending l'
  end.

(** Two matrices with the same sizes and the same coefficients. *)
Definition same_matrix (a b : matrix) : Prop :=
  rows a = rows b /\ cols a = cols b /\
  forall i j, i < rows a -> j < cols a -> coeff a i j = coeff b i j.


(** The smoothed value as the specification words it: the sum of
    [smooth[i][j] * y[j]] over the [j] with finite [y[j]], divided by the
    sum of [smooth[i][j]] over the same [j]. *)
Definition finite_neighbours (data : list value) (weights : StdMap.t value)
  : StdMap.t value :=
  filter (fun entry => isfinite (FixelCFE.at_fixel data (fst entry))) weights.

Definition weighted_sum (data : list value) (weights : StdMap.t value) : value :=
  fold_left (fun acc entry => (acc + FixelCFE.at_fixel data (fst entry) * snd entry)%V)
            weights (Fin 0).

Definition weighted_mean (data : list value) (weights : StdMap.t value) : value :=
  let neighbours := finite_neighbours data weights in
  (weighted_sum data neighbours / FixelCFE.weights_sum neighbours)%V.

(** Two vectors compared entry by entry for as long as the first one
    lasts. *)
Fixpoint compare_prefix (v1 v2 : list nat) : outcome bool :=
  match v1, v2 with
  | [], _ => Ok true
  | _ :: _, [] => Undefined
  | x :: v1', y :: v2' =>
      if negb (x =? y) then Ok false else compare_prefix v1' v2'
  end.

(** The design and its pseudo-inverse as a permutation of the subjects
    shuffles them: row [i] of [SX] is row [perm[i]] of [X], column [i] of
    [pinvSX] is column [perm[i]] of [pinvX]. *)
Definition permuted_rows (X : matrix) (perm : list nat) : matrix :=
  Matrix (rows X) (cols X) (fun i j => coeff X (nth i perm 0) j).

Definition permuted_cols (pinvX : matrix) (perm : list nat) : matrix :=
  Matrix (rows pinvX) (cols pinvX) (fun r i => coeff pinvX r (nth i perm 0)).

End Spec.

(** ** Instances of the library functions

    Rational stand-ins for the functions of the C library and of
    [math/least_squares.h], on which the definitions above can be run. *)

Module Instances.

(** The square root, exact on the squares of rationals and rounded down
    otherwise. *)
Definition Qsqrt (q : Q) : Q :=
  Qmake (Z.sqrt (Qnum q * Z.pos (Qden q))) (Qden q).

(** [1 / (1 - x + x^2/2)]: close to [exp x] for small [x <= 0], and
    positive everywhere. *)
Definition Qexp (x : Q) : Q := (1 / (1 - x + x * x / 2))%Q.

(** Powers with the exponents 0, 1, 2 and 1/2. *)
Definition vpow (b e : value) : value :=
  match b, e with
  | Fin x, Fin n =>
      if Qeq_bool n 0 then Fin 1
      else if Qeq_bool n 1 then Fin x
      else if Qeq_bool n 2 then Fin (x * x)
      else if Qeq_bool n (1 # 2) then vsqrt Qsqrt (Fin x)
      else NaN
  | _, _ => NaN
  end.

Definition PI : Q := 355 # 113.

(** The pseudo-inverse of a matrix whose columns are orthogonal and not
    zero: the transpose, each row divided by the squared norm of the
    column it comes from. *)
Definition pinv (a : matrix) : matrix :=
  Matrix (cols a) (rows a)
    (fun j s => (coeff a s j / sum_upto (rows a) (fun k => coeff a k j * coeff a k j))%V).

Definition rank (a : matrix) : nat := Nat.min (rows a) (cols a).

(** Text of a number in decimal, with an optional sign. *)
Fixpoint digits (s : string) (acc : Z) : Z :=
  match s with
  | EmptyString => acc
  | String c s' =>
      let d := (Z.of_nat (Ascii.nat_of_ascii c) - 48)%Z in
      if ((0 <=? d) && (d <=? 9))%Z then digits s' (10 * acc + d)%Z else acc
  end.

Definition to_int (s : string) : Z :=
  let z := match s with
           | String "-"%char s' => (- digits s' 0)%Z
           | _ => digits s 0
           end in
  Z.max (- 2 ^ 31) (Z.min (2 ^ 31 - 1) z).

End Instances.

(** ** Example data *)

(** Four fixels in a line, one streamline through all four. *)
Definition line_positions : list FixelCFE.position :=
  [(0, 0, 0); (1, 0, 0); (2, 0, 0); (3, 0, 0)]%Q.

Definition line_connectivity : list (StdMap.t value) :=
  [ [(1, Fin 1); (2, Fin 1); (3, Fin 1)];
    [(0, Fin 1); (2, Fin 1); (3, Fin 1)];
    [(0, Fin 1); (1, Fin 1); (3, Fin 1)];
    [(0, Fin 1); (1, Fin 1); (2, Fin 1)] ].

(** Two groups of two subjects, three fixels, the contrast "group 1 minus
    group 2". *)
Definition two_groups : matrix :=
  of_lists 2 [[Fin 1; Fin 0]; [Fin 1; Fin 0]; [Fin 0; Fin 1]; [Fin 0; Fin 1]].

Definition three_fixels : matrix :=
  of_lists 4 [[Fin 1; Fin 2; Fin 3; Fin 5];
              [Fin 0; Fin 2; Fin 4; Fin 4];
              [Fin 1; Fin 1; Fin 3; Fin 3]].

Definition group_difference : matrix := of_lists 2 [[Fin 1; Fin (-1)]].



(** The contrast as the column the t-test holds. *)
Definition group_difference_column : matrix := of_lists 1 [[Fin 1]; [Fin (-1)]].

(** One group of four subjects: a design of a single column. *)
Definition one_group : matrix :=
  of_lists 1 [[Fin 1]; [Fin 1]; [Fin 1]; [Fin 1]].

(** One subject, 1025 fixels: one more than a batch holds. *)
Definition one_subject : matrix := of_lists 1 [[Fin 1]].

Definition fixels_1025 : matrix :=
  Matrix 1025 1 (fun i _ => Fin (inject_Z (Z.of_nat i))).

(* ================================================================== *)
(** * Part II: lemmas and theorems                                     *)
(* ================================================================== *)

(** ** Facts on values *)

Lemma Qltb_lt (x y : Q) : Qltb x y = true <-> (x < y)%Q.
Proof.
  unfold Qltb. rewrite negb_true_iff, <- not_true_iff_false, Qle_bool_iff.
  split; [apply Qnot_le_lt | apply Qlt_not_le].
Qed.

Lemma Qltb_ge (x y : Q) : Qltb x y = false <-> (y <= x)%Q.
Proof.
  unfold Qltb. rewrite negb_false_iff. apply Qle_bool_iff.
Qed.

Lemma Qis0_false (x : Q) : Qis0 x = false <-> ~ (x == 0)%Q.
Proof.
  unfold Qis0. rewrite <- not_true_iff_false, Qeq_bool_iff. tauto.
Qed.

Lemma veq_refl (a : value) : (a == a)%V.
Proof. destruct a; simpl; auto. reflexivity. Qed.

Lemma veq_sym (a b : value) : (a == b)%V -> (b == a)%V.
Proof. destruct a, b; simpl; auto. intros H; symmetry; exact H. Qed.

Lemma veq_trans (a b c : value) : (a == b)%V -> (b == c)%V -> (a == c)%V.
Proof.
  destruct a, b, c; simpl; try tauto; try congruence.
  intros H1 H2. rewrite H1. exact H2.
Qed.

Lemma vlt_le_trans (t : value) (p p' : Q) :
  (t <? Fin p)%V = true -> (p <= p')%Q -> (t <? Fin p')%V = true.
Proof.
  destruct t; simpl; auto.
  rewrite !Qltb_lt. intros H1 H2. eapply Qlt_le_trans; eauto.
Qed.

(** ** [statistic2pvalue] *)

Section Statistic2pvalue.

Import Permute Spec.

Variable tvalue : value.

Lemma count_not_above_cons (p : Q) (l : list Q) :
  count_not_above tvalue (p :: l) =
  (if (tvalue <? Fin p)%V then 0 else 1) + count_not_above tvalue l.
Proof.
  unfold count_not_above. simpl. destruct (tvalue <? Fin p)%V; reflexivity.
Qed.

Lemma sort_insert_count (x : Q) (l : list Q) :
  count_not_above tvalue (sort_insert x l) = count_not_above tvalue (x :: l).
Proof.
  induction l as [|y l IH]; simpl; [reflexivity|].
  destruct (Qle_bool x y); [reflexivity|].
  rewrite !count_not_above_cons in *. rewrite IH. lia.
Qed.

Lemma std_sort_count (l : list Q) :
  count_not_above tvalue (std_sort l) = count_not_above tvalue l.
Proof.
  induction l as [|x l IH]; simpl; [reflexivity|].
  rewrite sort_insert_count, !count_not_above_cons, IH. reflexivity.
Qed.

Lemma sort_insert_some_above (x : Q) (l : list Q) :
  some_above tvalue (sort_insert x l) = some_above tvalue (x :: l).
Proof.
  induction l as [|y l IH]; simpl; [reflexivity|].
  destruct (Qle_bool x y); [reflexivity|].
  simpl in *. rewrite IH.
  destruct (tvalue <? Fin x)%V, (tvalue <? Fin y)%V; reflexivity.
Qed.

Lemma std_sort_some_above (l : list Q) :
  some_above tvalue (std_sort l) = some_above tvalue l.
Proof.
  induction l as [|x l IH]; simpl; [reflexivity|].
  rewrite sort_insert_some_above. simpl. rewrite IH. reflexivity.
Qed.

Lemma sort_insert_length (x : Q) (l : list Q) :
  length (sort_insert x l) = S (length l).
Proof.
  induction l as [|y l IH]; simpl; [reflexivity|].
  destruct (Qle_bool x y); simpl; congruence.
Qed.

Lemma std_sort_length (l : list Q) : length (std_sort l) = length l.
Proof.
  induction l as [|x l IH]; simpl; [reflexivity|].
  rewrite sort_insert_length. congruence.
Qed.

Lemma sort_insert_In (x y : Q) (l : list Q) :
  In y (sort_insert x l) -> y = x \/ In y l.
Proof.
  induction l as [|z l IH]; simpl.
  - intros [<-|[]]. now left.
  - destruct (Qle_bool x z); simpl.
    + intros [<-|[<-|H]]; auto.
    + intros [<-|H]; auto. destruct (IH H); auto.
Qed.

Lemma sort_insert_ascending (x : Q) (l : list Q) :
  ascending l -> ascending (sort_insert x l).
Proof.
  induction l as [|z l IH]; simpl.
  - intros _. split; [intros y []|exact I].
  - intros [Hz Hl]. destruct (Qle_bool x z) eqn:E.
    + apply Qle_bool_iff in E. simpl. repeat split; auto.
      intros y [<-|Hy]; [exact E|].
      eapply Qle_trans; [exact E|]. now apply Hz.
    + simpl. split; [|now apply IH].
      intros y Hy. destruct (sort_insert_In _ _ _ Hy) as [->|Hy']; [|now apply Hz].
      apply Qlt_le_weak, Qltb_lt. unfold Qltb. now rewrite E.
Qed.

Lemma std_sort_ascending (l : list Q) : ascending (std_sort l).
Proof.
  induction l as [|x l IH]; simpl; [exact I|].
  now apply sort_insert_ascending.
Qed.

Lemma all_above (p : Q) (l : list Q) :
  (forall y, In y l -> (p <= y)%Q) -> (tvalue <? Fin p)%V = true ->
  count_not_above tvalue l = 0.
Proof.
  induction l as [|y l IH]; intros Hp Ht; [reflexivity|].
  rewrite count_not_above_cons, IH; auto.
  - rewrite (vlt_le_trans _ Ht (Hp y (or_introl eq_refl))). reflexivity.
  - intros z Hz. apply Hp. now right.
Qed.

(** The loop stops at the first maximum above the statistic; in an
    ascending list its index is the number of maxima not above. *)
Lemma pvalue_loop_ascending (size : nat) (l : list Q) (i : nat) (pvalue : value) :
  ascending l ->
  pvalue_loop tvalue size l i pvalue =
  if some_above tvalue l
  then (of_nat (i + count_not_above tvalue l) / of_nat size)%V
  else pvalue.
Proof.
  revert i. induction l as [|p l IH]; intros i Hasc; simpl; [reflexivity|].
  destruct Hasc as [Hp Hl].
  rewrite count_not_above_cons.
  destruct (tvalue <? Fin p)%V eqn:E; simpl.
  - rewrite (all_above _ Hp E). now rewrite !Nat.add_0_r.
  - rewrite IH by assumption. unfold some_above.
    now rewrite Nat.add_succ_comm.
Qed.

End Statistic2pvalue.

(** C1 (as amended).  For every permutation distribution, which
    [statistic2pvalue] sorts itself, and every observed statistic, the value
    written is 0 when the statistic is not positive; otherwise it is
    [rank / num_perms], where [rank] is the 0-based rank of the smallest
    permutation maximum strictly greater than the statistic, that is the
    number of maxima not above it; and it is 1 when no maximum is above the
    statistic.  The value is the complement of a p-value: it grows with
    the statistic. *)
Theorem statistic2pvalue_rank (perm_dist : list Q) (stat_voxel : list value) :
  Permute.statistic2pvalue perm_dist stat_voxel =
  map (fun tvalue =>
         if (tvalue >? Fin 0)%V then
           if Spec.some_above tvalue perm_dist
           then (of_nat (Spec.count_not_above tvalue perm_dist)
                 / of_nat (length perm_dist))%V
           else Fin 1
         else Fin 0)
      stat_voxel.
Proof.
  unfold Permute.statistic2pvalue. apply map_ext. intros t.
  unfold Permute.pvalue_of. destruct (t >? Fin 0)%V; [|reflexivity].
  rewrite pvalue_loop_ascending by apply std_sort_ascending.
  now rewrite std_sort_some_above, std_sort_count, std_sort_length.
Qed.

(** C1 fails as stated.  With the maxima 1, 2, 3, 4 and the statistic 1/2
    the smallest maximum above the statistic is the first one;
    [statistic2pvalue] writes 0/4 = 0, which is neither [1 - 0/4] (ranks
    from 0) nor [1 - 1/4] (ranks from 1). *)
Lemma statistic2pvalue_not_one_minus_rank :
  Spec.ascending [1; 2; 3; 4]%Q /\
  Permute.statistic2pvalue [1; 2; 3; 4]%Q [Fin (1 # 2)] = [Fin (0 # 4)] /\
  ~ (Fin (0 # 4) == Spec.claimed_pvalue 0 [1; 2; 3; 4]%Q (Fin (1 # 2)))%V /\
  ~ (Fin (0 # 4) == Spec.claimed_pvalue 1 [1; 2; 3; 4]%Q (Fin (1 # 2)))%V.
Proof.
  split; [|split; [reflexivity|split; intros H; vm_compute in H; discriminate]].
  simpl. repeat split; intros y Hy; simpl in Hy;
    repeat (destruct Hy as [<-|Hy]; [discriminate|]); destruct Hy.
Qed.

(** ** The streamline count *)

Section TrackCount.

Import FixelCFE.

Variable to_int : string -> Z.

(** [to<int>] returns an [int]. *)
Hypothesis to_int_range : forall s, (- 2 ^ 31 <= to_int s < 2 ^ 31)%Z.

Lemma declared_count_range (count : string) :
  (- 2 ^ 31 <= declared_count to_int count < 2 ^ 31)%Z.
Proof.
  unfold declared_count. destruct (String.eqb count EmptyString); [lia|auto].
Qed.

Lemma num_tracks_zero (count : string) :
  num_tracks to_int count = 0%Z <-> declared_count to_int count = 0%Z.
Proof.
  unfold num_tracks, GLM.to_size_t.
  pose proof (declared_count_range count) as R.
  split; intros H; [|now rewrite H].
  destruct (Z.neg_nonneg_cases (declared_count to_int count)) as [N|N].
  - replace (declared_count to_int count)
      with (declared_count to_int count + 2 ^ 64 + (-1) * 2 ^ 64)%Z in H by lia.
    rewrite Z.mod_add, Z.mod_small in H; lia.
  - rewrite Z.mod_small in H; lia.
Qed.

Lemma num_tracks_positive (count : string) :
  (0 < declared_count to_int count)%Z ->
  num_tracks to_int count = declared_count to_int count.
Proof.
  intros H. pose proof (declared_count_range count).
  unfold num_tracks, GLM.to_size_t. apply Z.mod_small. lia.
Qed.

(** C9.  The stage throws exactly when the declared streamline count is 0
    (an empty count property is read as 0), and then nothing has been run:
    no connectivity has been accumulated.  With a positive count below
    1,000,000 the warning is logged, the connectivity is accumulated and
    the stage returns. *)
Theorem read_tracks_fails_iff_no_tracks (count : string) :
  (snd (read_tracks to_int count) <> Ok tt <->
   declared_count to_int count = 0%Z) /\
  (declared_count to_int count = 0%Z ->
   read_tracks to_int count = ([], Thrown no_tracks)) /\
  ((0 < declared_count to_int count < 1000000)%Z ->
   read_tracks to_int count =
   ([WarnFewTracks (declared_count to_int count);
     RunTrackQueue (declared_count to_int count)], Ok tt)).
Proof.
  unfold read_tracks.
  destruct (num_tracks to_int count =? 0)%Z eqn:E.
  - apply Z.eqb_eq, num_tracks_zero in E. repeat split; auto.
    + intros _. simpl. discriminate.
    + lia.
  - apply Z.eqb_neq in E. rewrite num_tracks_zero in E.
    split; [|split].
    + simpl. split; [intros H; now elim H | intros H; now elim E].
    + intros H. now elim E.
    + intros [H1 H2]. rewrite (num_tracks_positive count H1).
      apply Z.ltb_lt in H2. now rewrite H2.
Qed.

End TrackCount.

Lemma Instances_to_int_range (s : string) :
  (- 2 ^ 31 <= Instances.to_int s < 2 ^ 31)%Z.
Proof. unfold Instances.to_int. lia. Qed.

Lemma read_tracks_fails_iff_no_tracks_witness :
  FixelCFE.read_tracks Instances.to_int "500" =
  ([FixelCFE.WarnFewTracks 500; FixelCFE.RunTrackQueue 500], Ok tt) /\
  FixelCFE.read_tracks Instances.to_int "0" = ([], Thrown FixelCFE.no_tracks).
Proof.
  split.
  - apply (proj2 (proj2 (read_tracks_fails_iff_no_tracks
                           Instances.to_int Instances_to_int_range "500"))).
    vm_compute. split; reflexivity.
  - apply (proj1 (proj2 (read_tracks_fails_iff_no_tracks
                           Instances.to_int Instances_to_int_range "0"))).
    reflexivity.
Defined.

(** ** Outcomes and matrices *)

Lemma bind_Ok {A B : Type} (c : outcome A) (k : A -> outcome B) (b : B) :
  bind c k = Ok b -> exists a, c = Ok a /\ k a = Ok b.
Proof. destruct c; simpl; try discriminate. eauto. Qed.

Lemma bind_no_throw {A B : Type} (c : outcome A) (k : A -> outcome B) :
  throws c = false -> (forall a, throws (k a) = false) -> throws (bind c k) = false.
Proof. destruct c; simpl; auto. Qed.

Lemma require_no_throw (b : bool) : throws (require b) = false.
Proof. now destruct b. Qed.

Lemma foldM_no_throw {A St : Type} (body : St -> A -> outcome St) (l : list A) :
  (forall s a, throws (body s a) = false) ->
  forall s, throws (foldM body l s) = false.
Proof.
  intros H. induction l as [|a l IH]; intros s; simpl; [reflexivity|].
  apply bind_no_throw; auto.
Qed.

(** No operation on matrices throws; an operand that does not fit is an
    assertion failure or undefined behaviour. *)
Ltac no_throw :=
  repeat first
    [ reflexivity
    | apply require_no_throw
    | apply bind_no_throw
    | apply foldM_no_throw
    | intro ].

Lemma mul_no_throw (a b : matrix) : throws (mul a b) = false.
Proof. unfold mul. no_throw. Qed.

Lemma resize_no_throw (m : matrix) (r c : nat) : throws (resize m r c) = false.
Proof.
  unfold resize. destruct (r * c =? rows m * cols m); [reflexivity|].
  now destruct (r * c =? 0).
Qed.

Lemma row_transposed_no_throw (a : matrix) (n : nat) :
  throws (row_transposed a n) = false.
Proof. unfold row_transposed. no_throw. Qed.

Lemma row_dot_no_throw (a : matrix) (n : nat) (v : matrix) :
  throws (row_dot a n v) = false.
Proof. unfold row_dot. no_throw. Qed.

Lemma scale_row_no_throw (m : matrix) (n : nat) (s : value) :
  throws (scale_row m n s) = false.
Proof. unfold scale_row. no_throw. Qed.

Lemma mul_transpose_self (design : matrix) :
  mul (transpose design) design =
  Ok (Matrix (cols design) (cols design)
        (fun i j => sum_upto (rows design)
                      (fun k => coeff design k i * coeff design k j)%V)).
Proof. unfold mul. simpl. now rewrite Nat.eqb_refl. Qed.

(** ** The contrast guard *)

Section ContrastGuard.

Import GLM.

Variable Qsqrt : Q -> Q.
Variable pinv : matrix -> matrix.
Variable rank : matrix -> nat.

Lemma scale_contrasts_throws (contrasts design : matrix) (df : Z) :
  throws (scale_contrasts Qsqrt pinv contrasts design df) =
  (1 <? cols contrasts) && (1 <? rows contrasts).
Proof.
  unfold scale_contrasts. rewrite mul_transpose_self. simpl.
  destruct ((1 <? cols contrasts) && (1 <? rows contrasts)); [reflexivity|].
  apply bind_no_throw; [apply resize_no_throw|]. intros sc.
  apply foldM_no_throw. intros s n.
  apply bind_no_throw; [apply row_transposed_no_throw|]. intros c_n.
  apply bind_no_throw; [apply mul_no_throw|]. intros v.
  apply bind_no_throw; [apply row_dot_no_throw|]. intros d.
  apply scale_row_no_throw.
Qed.

End ContrastGuard.

(** ** The data smoother *)

Section Smoother.

Import FixelCFE Spec.

Variable data : list value.

(** The two accumulators of the loop are the two sums of the
    specification, over the neighbours with a finite value. *)
Lemma accumulate_from (weights : StdMap.t value) (value0 sum0 : value) :
  fold_left (fun '(value, sum_weights) '(j, w) =>
               if isfinite (at_fixel data j)
               then ((value + at_fixel data j * w)%V, (sum_weights + w)%V)
               else (value, sum_weights))
            weights (value0, sum0) =
  (fold_left (fun acc entry => (acc + at_fixel data (fst entry) * snd entry)%V)
             (finite_neighbours data weights) value0,
   fold_left (fun sum entry => (sum + snd entry)%V)
             (finite_neighbours data weights) sum0).
Proof.
  revert value0 sum0.
  induction weights as [|[j w] weights IH]; intros value0 sum0; simpl; [reflexivity|].
  destruct (isfinite (at_fixel data j)); simpl; apply IH.
Qed.

Lemma accumulate_sums (weights : StdMap.t value) :
  accumulate data weights =
  (weighted_sum data (finite_neighbours data weights),
   weights_sum (finite_neighbours data weights)).
Proof. apply accumulate_from. Qed.

Lemma smooth_fixel_mean (smoothing_weights : list (StdMap.t value)) (fixel : nat) :
  smooth_fixel smoothing_weights data fixel =
  if isfinite (at_fixel data fixel) then
    if truthy (weights_sum (finite_neighbours data (nth fixel smoothing_weights [])))
    then weighted_mean data (nth fixel smoothing_weights [])
    else NaN
  else NaN.
Proof.
  unfold smooth_fixel. rewrite accumulate_sums. reflexivity.
Qed.

End Smoother.

(** C3 (as amended).  For every subject column [y] and every fixel [i]
    whose own value [y[i]] is finite, the smoother outputs the sum of
    [smooth[i][j] * y[j]] over the [j] with finite [y[j]] divided by the sum
    of [smooth[i][j]] over the same [j], and NaN when that sum of weights is
    zero; for every fixel whose own value is not finite it outputs NaN,
    whatever the values of its neighbours. *)
Theorem smooth_weighted_mean_of_finite
    (smoothing_weights : list (StdMap.t value)) (data : list value) :
  FixelCFE.smooth smoothing_weights data =
  map (fun i =>
         if isfinite (FixelCFE.at_fixel data i) then
           if truthy (FixelCFE.weights_sum
                        (Spec.finite_neighbours data (nth i smoothing_weights [])))
           then Spec.weighted_mean data (nth i smoothing_weights [])
           else NaN
         else NaN)
      (seq 0 (length data)).
Proof.
  unfold FixelCFE.smooth. apply map_ext. intros i. apply smooth_fixel_mean.
Qed.

(** C3 fails as stated.  Fixel 0 has the neighbours 0 and 1 with the
    weights 1/2 and 1/2; its own value is NaN and the value of fixel 1 is 2.
    Fixel 0 has a neighbour with a finite value, and the weighted mean over
    its finite neighbours is 2; the smoother outputs NaN for it. *)
Lemma smooth_nan_despite_finite_neighbour :
  FixelCFE.smooth [[(0, Fin (1 # 2)); (1, Fin (1 # 2))]; [(1, Fin 1)]] [NaN; Fin 2]
  = [NaN; Fin ((0 + 2 * 1) / (0 + 1))] /\
  StdMap.find 1 [(0, Fin (1 # 2)); (1, Fin (1 # 2))] = Some (Fin (1 # 2)) /\
  isfinite (FixelCFE.at_fixel [NaN; Fin 2] 1) = true /\
  (Spec.weighted_mean [NaN; Fin 2] [(0, Fin (1 # 2)); (1, Fin (1 # 2))] == Fin 2)%V.
Proof.
  repeat split.
Qed.

(** ** Lists *)

Lemma nth_map_seq {A : Type} (f : nat -> A) (len n : nat) (d : A) :
  n < len -> nth n (map f (seq 0 len)) d = f n.
Proof.
  intros H. rewrite (nth_indep _ d (f 0)) by (now rewrite length_map, length_seq).
  rewrite map_nth, seq_nth by assumption. reflexivity.
Qed.

(** ** Maps *)

Section StdMapFacts.

Variable T : Type.

Lemma find_insert_same (k : nat) (v : T) (m : StdMap.t T) :
  StdMap.find k m = None -> StdMap.find k (StdMap.insert k v m) = Some v.
Proof.
  induction m as [|[k' v'] m IH]; simpl.
  - now rewrite Nat.eqb_refl.
  - destruct (k' =? k) eqn:E; [discriminate|]. intros H.
    destruct (k <? k'); simpl; [now rewrite Nat.eqb_refl|].
    rewrite Nat.eqb_sym, E. simpl. rewrite E. auto.
Qed.

Lemma find_insert_other (k j : nat) (v : T) (m : StdMap.t T) :
  j <> k -> StdMap.find j (StdMap.insert k v m) = StdMap.find j m.
Proof.
  intros N. apply Nat.neq_sym, Nat.eqb_neq in N.
  induction m as [|[k' v'] m IH]; simpl.
  - now rewrite N.
  - destruct (k <? k'); simpl; [now rewrite N|].
    destruct (k =? k'); simpl; [reflexivity|].
    now rewrite IH.
Qed.

(** After an insertion the key is in the map. *)
Lemma find_insert_present (k : nat) (v : T) (m : StdMap.t T) :
  StdMap.find k (StdMap.insert k v m) <> None.
Proof.
  induction m as [|[k' v'] m IH]; simpl.
  - now rewrite Nat.eqb_refl.
  - destruct (k <? k'); simpl; [now rewrite Nat.eqb_refl|].
    destruct (k =? k') eqn:E; simpl.
    + rewrite Nat.eqb_sym, E. discriminate.
    + rewrite Nat.eqb_sym, E. exact IH.
Qed.

Lemma insert_not_empty (k : nat) (v : T) (m : StdMap.t T) :
  StdMap.insert k v m <> [].
Proof.
  destruct m as [|[k' v'] m]; simpl; [discriminate|].
  destruct (k <? k'); [discriminate|]. destruct (k =? k'); discriminate.
Qed.

(** Every value of the map after an insertion was there before or is the
    one inserted. *)
Lemma insert_Forall (P : T -> Prop) (k : nat) (v : T) (m : StdMap.t T) :
  P v -> Forall (fun e => P (snd e)) m ->
  Forall (fun e => P (snd e)) (StdMap.insert k v m).
Proof.
  intros Hv. induction m as [|[k' v'] m IH]; simpl; intros H.
  - constructor; auto.
  - destruct (k <? k'); [constructor; auto|].
    destruct (k =? k'); [exact H|].
    inversion H; subst. constructor; auto.
Qed.

Lemma find_map_values (f : T -> T) (k : nat) (m : StdMap.t T) :
  StdMap.find k (map (fun e => (fst e, f (snd e))) m) =
  option_map f (StdMap.find k m).
Proof.
  induction m as [|[k' v'] m IH]; simpl; [reflexivity|].
  destruct (k' =? k); [reflexivity|exact IH].
Qed.

End StdMapFacts.

(** ** Sums of values *)

Lemma positive_finite_positive (v : value) : positive_finite v -> positive v.
Proof.
  intros (q & -> & H). unfold positive. simpl. now apply Qltb_lt.
Qed.

Lemma positive_cases (v : value) :
  positive v <-> positive_finite v \/ v = Inf false.
Proof.
  unfold positive, positive_finite. destruct v as [q|[]|]; simpl.
  - rewrite Qltb_lt. split.
    + intros H. left. eauto.
    + intros [(q' & E & H)|E]; [now inversion E; subst|discriminate].
  - split; [discriminate|]. intros [(q' & E & _)|E]; discriminate.
  - split; [now right|reflexivity].
  - split; [discriminate|]. intros [(q' & E & _)|E]; discriminate.
Qed.

Lemma above_hundredth_positive (v : value) :
  (v >? Fin (1 # 100))%V = true -> positive v.
Proof.
  unfold positive. destruct v as [q|[]|]; simpl; auto.
  rewrite !Qltb_lt. intros H. lra.
Qed.

Lemma vadd_positive (a b : value) :
  positive a \/ a = Fin 0 -> positive b -> positive (a + b)%V.
Proof.
  intros Ha Hb. apply positive_cases in Hb.
  assert (Ha' : positive_finite a \/ a = Inf false \/ a = Fin 0)
    by (destruct Ha as [Ha|Ha]; [apply positive_cases in Ha|]; tauto).
  apply positive_cases.
  destruct Ha' as [(x & -> & Hx)|[->| ->]], Hb as [(y & -> & Hy)| ->]; simpl; auto.
  - left. exists (x + y)%Q. split; [reflexivity|lra].
  - left. exists (0 + y)%Q. split; [reflexivity|lra].
Qed.

Lemma weights_sum_from_positive (weights : StdMap.t value) (sum0 : value) :
  Forall (fun e => positive (snd e)) weights ->
  positive sum0 \/ (sum0 = Fin 0 /\ weights <> []) ->
  positive (fold_left (fun sum entry => (sum + snd entry)%V) weights sum0).
Proof.
  revert sum0. induction weights as [|[k w] weights IH]; intros sum0 H Hs; simpl.
  - destruct Hs as [Hs|[_ Hs]]; [exact Hs|now elim Hs].
  - inversion H; subst. apply IH; auto. left.
    apply vadd_positive; auto. tauto.
Qed.

(** The sum of weights that are positive numbers, and the sum of the
    same weights scaled. *)
Lemma weights_sum_from_finite (weights : StdMap.t value) (s : Q) :
  Forall (fun e => positive_finite (snd e)) weights -> (0 <= s)%Q ->
  exists total,
    fold_left (fun sum entry => (sum + snd entry)%V) weights (Fin s) = Fin total /\
    (s <= total)%Q /\
    (weights <> [] -> (s < total)%Q) /\
    forall (c t : Q),
      exists scaled,
        fold_left (fun sum entry => (sum + snd entry)%V)
                  (FixelCFE.scale_weights weights (Fin c)) (Fin t) = Fin scaled /\
        (scaled == t + c * (total - s))%Q.
Proof.
  revert s. induction weights as [|[k w] weights IH]; intros s H Hs; simpl.
  - exists s. repeat split; try lra; [now intros []|].
    intros c t. exists t. split; [reflexivity|ring].
  - inversion H as [|? ? (q & Hq & Hpos) H']; subst. simpl in Hq. subst w. simpl.
    destruct (IH (s + q)%Q H') as (total & E & Hle & _ & Hscaled); [lra|].
    exists total. repeat split; auto; try lra.
    intros c t. destruct (Hscaled c (t + q * c)%Q) as (scaled & E' & Hs').
    exists scaled. split; [exact E'|]. rewrite Hs'. ring.
Qed.

(** ** Normalisation and smoothing weights *)

Arguments vlt : simpl never.
Arguments vgt : simpl never.

Section Normalise.

Import FixelCFE.

Variable Qsqrt : Q -> Q.
Variable Qexp : Q -> Q.
Variable vpow : value -> value -> value.
Variable PI : Q.
Variable cfe_c : Q.
Variable smooth_std_dev : Q.
Variable connectivity_threshold : Q.
Variable positions : list position.
Variable fixel_TDI : list nat.

Local Abbreviation gaussian_const1 := (gaussian_const1 Qsqrt PI smooth_std_dev).
Local Abbreviation do_smoothing := (do_smoothing smooth_std_dev).
Local Abbreviation connectivity_of := (connectivity_of fixel_TDI).
Local Abbreviation smoothing_weight_of :=
  (smoothing_weight_of Qsqrt Qexp vpow PI smooth_std_dev positions).
Local Abbreviation threshold_entries :=
  (threshold_entries Qsqrt Qexp vpow PI cfe_c smooth_std_dev connectivity_threshold
                     positions fixel_TDI).
Local Abbreviation raw_weights :=
  (raw_weights Qsqrt Qexp vpow PI cfe_c smooth_std_dev connectivity_threshold
               positions fixel_TDI).
Local Abbreviation normalise_fixel :=
  (normalise_fixel Qsqrt Qexp vpow PI cfe_c smooth_std_dev connectivity_threshold
                   positions fixel_TDI).
Local Abbreviation normalise :=
  (normalise Qsqrt Qexp vpow PI cfe_c smooth_std_dev connectivity_threshold
             positions fixel_TDI).

(** The turn of the loop for [fixel] works on [connectivity_matrix[fixel]]. *)
Lemma normalise_nth (connectivity_matrix : list (StdMap.t value)) (fixel : nat) :
  fixel < length connectivity_matrix ->
  nth fixel (fst (normalise connectivity_matrix)) [] =
    fst (normalise_fixel fixel (nth fixel connectivity_matrix [])) /\
  nth fixel (snd (normalise connectivity_matrix)) [] =
    snd (normalise_fixel fixel (nth fixel connectivity_matrix [])).
Proof.
  intros H. unfold FixelCFE.normalise.
  set (f := fun '(fixel, entries) => normalise_fixel fixel entries).
  set (l := combine (seq 0 (length connectivity_matrix)) connectivity_matrix).
  assert (E : nth fixel (map f l) ([], []) =
              normalise_fixel fixel (nth fixel connectivity_matrix [])).
  { rewrite (nth_indep _ ([], []) (f (0, []))).
    - rewrite map_nth. unfold l. rewrite combine_nth by apply length_seq.
      rewrite seq_nth by assumption. reflexivity.
    - rewrite length_map. unfold l. rewrite length_combine, length_seq. lia. }
  rewrite split_nth in E. simpl in E.
  rewrite <- E. simpl. auto.
Qed.

Lemma normalise_length (connectivity_matrix : list (StdMap.t value)) :
  length (fst (normalise connectivity_matrix)) = length connectivity_matrix /\
  length (snd (normalise connectivity_matrix)) = length connectivity_matrix.
Proof.
  unfold FixelCFE.normalise.
  rewrite length_fst_split, length_snd_split, length_map, length_combine, length_seq.
  lia.
Qed.

(** *** The weights are positive *)

Lemma threshold_entries_positive (fixel : nat) (entries weights : StdMap.t value) :
  Forall (fun e => positive (snd e)) weights ->
  Forall (fun e => positive (snd e)) (snd (threshold_entries fixel entries weights)).
Proof.
  revert weights. induction entries as [|[j count] entries IH]; intros weights H; simpl.
  - exact H.
  - destruct (connectivity_of fixel count <? Fin connectivity_threshold)%V.
    + now apply IH.
    + match goal with
      | |- context [FixelCFE.threshold_entries _ _ _ _ _ _ _ _ _ _ _ ?w] =>
          assert (Hw : Forall (fun e => positive (snd e)) w)
      end.
      { destruct do_smoothing; [|exact H].
        destruct (smoothing_weight_of fixel j (connectivity_of fixel count)
                  >? Fin (1 # 100))%V eqn:E; [|exact H].
        apply insert_Forall; [|exact H]. now apply above_hundredth_positive. }
      specialize (IH _ Hw).
      destruct (FixelCFE.threshold_entries _ _ _ _ _ _ _ _ _ _ _ _). exact IH.
Qed.

Lemma raw_weights_positive (fixel : nat) (entries : StdMap.t value) :
  positive gaussian_const1 ->
  Forall (fun e => positive (snd e)) (raw_weights fixel entries).
Proof.
  intros H. unfold FixelCFE.raw_weights.
  apply insert_Forall; [exact H|]. apply threshold_entries_positive. constructor.
Qed.

Lemma weights_sum_positive (weights : StdMap.t value) :
  Forall (fun e => positive (snd e)) weights -> weights <> [] ->
  positive (weights_sum weights).
Proof.
  intros H N. unfold weights_sum. apply weights_sum_from_positive; auto.
Qed.

Section Positive.

(** [Math::pi] and the square root of a positive number are positive. *)
Hypothesis PI_positive : (0 < PI)%Q.
Hypothesis Qsqrt_positive : forall x, (0 < x)%Q -> (0 < Qsqrt x)%Q.

Lemma to_float_positive (q : Q) : (0 < q)%Q -> positive (to_float (Fin q)).
Proof.
  intros H. unfold to_float, positive, vgt, vlt.
  destruct (Qle_bool FLT_OVERFLOW q); [reflexivity|].
  destruct (Qle_bool q (- FLT_OVERFLOW)) eqn:E.
  - apply Qle_bool_iff in E.
    assert (O : (0 < FLT_OVERFLOW)%Q) by reflexivity. lra.
  - now apply Qltb_lt.
Qed.

Lemma to_float_in_range (q : Q) :
  (0 < q)%Q -> (q < FLT_OVERFLOW)%Q -> to_float (Fin q) = Fin q.
Proof.
  intros P H. unfold to_float.
  replace (Qle_bool FLT_OVERFLOW q) with false
    by (symmetry; apply not_true_iff_false; rewrite Qle_bool_iff; lra).
  replace (Qle_bool q (- FLT_OVERFLOW)) with false; [reflexivity|].
  symmetry. apply not_true_iff_false. rewrite Qle_bool_iff.
  assert (O : (0 < FLT_OVERFLOW)%Q) by reflexivity. lra.
Qed.

(** The quotient [1.0 / (smooth_std_dev * std::sqrt (2.0 * Math::pi))]
    before it is stored. *)
Lemma self_weight_quotient :
  do_smoothing = true ->
  (Fin 1 / (Fin smooth_std_dev * vsqrt Qsqrt (Fin (2 * PI))))%V =
    Fin (1 / (smooth_std_dev * Qsqrt (2 * PI))) /\
  (0 < 1 / (smooth_std_dev * Qsqrt (2 * PI)))%Q.
Proof.
  intros D. unfold FixelCFE.do_smoothing, vgt, vlt in D. apply Qltb_lt in D.
  assert (P2 : (0 < 2 * PI)%Q) by lra.
  pose proof (Qsqrt_positive P2) as S.
  pose proof (Qmult_lt_0_compat _ _ D S) as M. split.
  - simpl. replace (Qltb (2 * PI) 0) with false
      by (symmetry; apply Qltb_ge; lra).
    simpl. replace (Qis0 (smooth_std_dev * Qsqrt (2 * PI))) with false; [reflexivity|].
    symmetry. apply Qis0_false. lra.
  - apply Qinv_lt_0_compat in M. unfold Qdiv. lra.
Qed.

Lemma gaussian_const1_value :
  gaussian_const1 =
  if do_smoothing
  then to_float (Fin (1 / (smooth_std_dev * Qsqrt (2 * PI))))
  else Fin 1.
Proof.
  unfold FixelCFE.gaussian_const1.
  destruct do_smoothing eqn:D; [|reflexivity].
  now rewrite (proj1 (self_weight_quotient D)).
Qed.

(** The self weight is positive: a positive number, or +inf when the
    quotient is beyond the range of [float]. *)
Lemma gaussian_const1_above_zero : positive gaussian_const1.
Proof.
  rewrite gaussian_const1_value. destruct do_smoothing eqn:D.
  - apply to_float_positive. exact (proj2 (self_weight_quotient D)).
  - reflexivity.
Qed.

(** C10.  For every fixel the sum the smoothing weights are divided by is
    strictly positive: the self weight inserted before is 1 when smoothing
    is disabled and [1 / (sigma * sqrt (2 * pi)) > 0] as a [float]
    otherwise (+inf when the quotient is beyond the range of [float]), and
    every other weight is above 0.01.  So the denominator of [1.0 / sum] is
    never zero and the factor is a finite number. *)
Theorem norm_factor_sum_positive (fixel : nat) (entries : StdMap.t value) :
  gaussian_const1 =
    (if do_smoothing
     then to_float (Fin (1 / (smooth_std_dev * Qsqrt (2 * PI))))
     else Fin 1) /\
  positive gaussian_const1 /\
  positive (weights_sum (raw_weights fixel entries)) /\
  isfinite (norm_factor (raw_weights fixel entries)) = true.
Proof.
  pose proof gaussian_const1_above_zero as G.
  assert (P : positive (weights_sum (raw_weights fixel entries))).
  { apply weights_sum_positive.
    - now apply raw_weights_positive.
    - apply insert_not_empty. }
  repeat split; auto using gaussian_const1_value.
  unfold norm_factor. apply positive_cases in P.
  destruct P as [(q & -> & Hq)| ->]; [|reflexivity].
  simpl. replace (Qis0 q) with false; [reflexivity|].
  symmetry. apply Qis0_false. lra.
Qed.

(** *** The self weight within the range of [float] *)

Section InRange.

(** The quotient [1 / (sigma * sqrt (2 * pi))] is below the least number
    that the conversion to [float] takes to +inf. *)
Hypothesis self_weight_in_range :
  do_smoothing = true ->
  (1 / (smooth_std_dev * Qsqrt (2 * PI)) < FLT_OVERFLOW)%Q.

Lemma gaussian_const1_in_range :
  gaussian_const1 =
  if do_smoothing then Fin (1 / (smooth_std_dev * Qsqrt (2 * PI))) else Fin 1.
Proof.
  rewrite gaussian_const1_value. destruct do_smoothing eqn:D; [|reflexivity].
  apply to_float_in_range; [exact (proj2 (self_weight_quotient D))|].
  now apply self_weight_in_range.
Qed.

Lemma gaussian_const1_positive : positive_finite gaussian_const1.
Proof.
  rewrite gaussian_const1_in_range. destruct do_smoothing eqn:D.
  - eexists. split; [reflexivity|]. exact (proj2 (self_weight_quotient D)).
  - exists 1%Q. split; [reflexivity|lra].
Qed.

(** *** The weights are finite *)

Section Finite.

(** The square of a number is a number. *)
Hypothesis vpow_square_finite : forall d : Q, isfinite (vpow (Fin d) (Fin 2)) = true.

Variable fixel : nat.

(** At least one streamline runs through the fixel. *)
Hypothesis TDI_positive : 0 < nth fixel fixel_TDI 0.

Lemma connectivity_of_finite (count : Q) :
  connectivity_of fixel (Fin count) =
  Fin (count / inject_Z (Z.of_nat (nth fixel fixel_TDI 0))).
Proof.
  unfold FixelCFE.connectivity_of, of_nat. simpl.
  replace (Qis0 (inject_Z (Z.of_nat (nth fixel fixel_TDI 0)))) with false; [reflexivity|].
  symmetry. apply Qis0_false. intros E.
  generalize dependent (nth fixel fixel_TDI 0). intros tdi T E.
  assert (L : (0 < inject_Z (Z.of_nat tdi))%Q) by (rewrite <- (Zlt_Qlt 0); lia).
  lra.
Qed.

Lemma pow2_nonneg (x : Q) : (0 <= pow2 x)%Q.
Proof.
  unfold pow2. destruct (Qlt_le_dec x 0) as [N|N].
  - setoid_replace (x * x)%Q with ((- x) * (- x))%Q by ring.
    apply Qmult_le_0_compat; lra.
  - now apply Qmult_le_0_compat.
Qed.

Lemma distance_finite (a b : position) : isfinite (distance Qsqrt a b) = true.
Proof.
  destruct a as [[a0 a1] a2], b as [[b0 b1] b2]. unfold distance, vsqrt.
  replace (Qltb (pow2 (a0 - b0) + pow2 (a1 - b1) + pow2 (a2 - b2)) 0) with false;
    [reflexivity|].
  symmetry. apply Qltb_ge.
  pose proof (pow2_nonneg (a0 - b0)). pose proof (pow2_nonneg (a1 - b1)).
  pose proof (pow2_nonneg (a2 - b2)). lra.
Qed.

Lemma smoothing_weight_finite (j : nat) (count : Q) :
  do_smoothing = true ->
  isfinite (smoothing_weight_of fixel j (connectivity_of fixel (Fin count))) = true.
Proof.
  intros D. unfold FixelCFE.smoothing_weight_of.
  rewrite connectivity_of_finite, gaussian_const1_in_range, D.
  pose proof (distance_finite (position_of positions fixel) (position_of positions j)) as F.
  destruct (distance Qsqrt _ _) as [d| |]; try discriminate.
  pose proof (vpow_square_finite d) as F2.
  destruct (vpow (Fin d) (Fin 2)) as [p| |]; try discriminate.
  unfold gaussian_const2, to_float.
  destruct (Qle_bool FLT_OVERFLOW (2 * smooth_std_dev * smooth_std_dev));
    [reflexivity|].
  destruct (Qle_bool (2 * smooth_std_dev * smooth_std_dev) (- FLT_OVERFLOW));
    [reflexivity|].
  simpl.
  replace (Qis0 (2 * smooth_std_dev * smooth_std_dev)) with false; [reflexivity|].
  symmetry. apply Qis0_false.
  unfold FixelCFE.do_smoothing, vgt, vlt in D. apply Qltb_lt in D.
  pose proof (Qmult_lt_0_compat _ _ D D). lra.
Qed.

Lemma above_hundredth_finite (v : value) :
  isfinite v = true -> (v >? Fin (1 # 100))%V = true -> positive_finite v.
Proof.
  destruct v as [q| |]; try discriminate. intros _ H.
  unfold vgt, vlt in H. apply Qltb_lt in H. exists q. split; [reflexivity|lra].
Qed.

Lemma threshold_entries_finite (entries weights : StdMap.t value) :
  Forall (fun e => isfinite (snd e) = true) entries ->
  Forall (fun e => positive_finite (snd e)) weights ->
  Forall (fun e => positive_finite (snd e)) (snd (threshold_entries fixel entries weights)).
Proof.
  revert weights. induction entries as [|[j count] entries IH]; intros weights F H; simpl.
  - exact H.
  - inversion F as [|? ? Fc F']; subst. simpl in Fc.
    destruct count as [count| |]; try discriminate.
    destruct (connectivity_of fixel (Fin count) <? Fin connectivity_threshold)%V.
    + now apply IH.
    + match goal with
      | |- context [FixelCFE.threshold_entries _ _ _ _ _ _ _ _ _ _ _ ?w] =>
          assert (Hw : Forall (fun e => positive_finite (snd e)) w)
      end.
      { case_eq (FixelCFE.do_smoothing smooth_std_dev); intros D; [|exact H].
        destruct (smoothing_weight_of fixel j (connectivity_of fixel (Fin count))
                  >? Fin (1 # 100))%V eqn:E; [|exact H].
        apply insert_Forall; [|exact H].
        apply above_hundredth_finite; [|exact E].
        now apply smoothing_weight_finite. }
      specialize (IH _ F' Hw).
      destruct (FixelCFE.threshold_entries _ _ _ _ _ _ _ _ _ _ _ _). exact IH.
Qed.

Lemma raw_weights_finite (entries : StdMap.t value) :
  Forall (fun e => isfinite (snd e) = true) entries ->
  Forall (fun e => positive_finite (snd e)) (raw_weights fixel entries).
Proof.
  intros F. unfold FixelCFE.raw_weights.
  apply insert_Forall; [apply gaussian_const1_positive|].
  apply threshold_entries_finite; [exact F|constructor].
Qed.

Lemma normalise_fixel_sum (entries : StdMap.t value) :
  Forall (fun e => isfinite (snd e) = true) entries ->
  (weights_sum (snd (normalise_fixel fixel entries)) == Fin 1)%V /\
  exists w, StdMap.find fixel (snd (normalise_fixel fixel entries)) = Some w.
Proof.
  intros F. unfold FixelCFE.normalise_fixel. simpl. split.
  - pose proof (raw_weights_finite F) as R.
    destruct (weights_sum_from_finite R (Qle_refl 0))
      as (total & E & _ & Hpos & Hscaled).
    specialize (Hpos (insert_not_empty _ _ _)).
    unfold norm_factor, weights_sum. rewrite E. simpl.
    replace (Qis0 total) with false by (symmetry; apply Qis0_false; lra).
    destruct (Hscaled (1 / total)%Q 0%Q) as (scaled & E' & Hs).
    rewrite E'. simpl. rewrite Hs. field. lra.
  - unfold scale_weights.
    rewrite (find_map_values (fun w => (w * norm_factor (raw_weights fixel entries))%V)).
    pose proof (@find_insert_present value fixel gaussian_const1
                  (snd (threshold_entries fixel entries []))) as P.
    unfold FixelCFE.raw_weights.
    destruct (StdMap.find fixel (StdMap.insert fixel gaussian_const1 _)) as [w|];
      [simpl; eauto|now elim P].
Qed.

End Finite.

(** C5 (as amended).  When the self weight [1 / (sigma * sqrt (2 * pi))]
    is within the range of the [float] it is stored in (or smoothing is
    disabled), the smoothing weights of a fixel sum to 1 after the
    normalisation and the self term is in the map.  The fixel is one the
    graph was built for: its connection counts are numbers, and streamlines
    run through it when it has a connection. *)
Theorem smoothing_weights_sum_to_one
    (connectivity_matrix : list (StdMap.t value)) (fixel : nat) :
  (forall d : Q, isfinite (vpow (Fin d) (Fin 2)) = true) ->
  fixel < length connectivity_matrix ->
  Forall (fun e => isfinite (snd e) = true) (nth fixel connectivity_matrix []) ->
  (nth fixel connectivity_matrix [] <> [] -> 0 < nth fixel fixel_TDI 0) ->
  (weights_sum (nth fixel (snd (normalise connectivity_matrix)) []) == Fin 1)%V /\
  exists w,
    StdMap.find fixel (nth fixel (snd (normalise connectivity_matrix)) []) = Some w.
Proof.
  intros Hpow Hlen Hfin Htdi.
  rewrite (proj2 (normalise_nth connectivity_matrix Hlen)).
  destruct (nth fixel connectivity_matrix []) as [|e entries] eqn:E.
  - destruct gaussian_const1_positive as (g & Eg & Hg).
    unfold FixelCFE.normalise_fixel, FixelCFE.raw_weights. simpl. rewrite Eg.
    unfold norm_factor, weights_sum. simpl.
    replace (Qis0 (0 + g)) with false by (symmetry; apply Qis0_false; lra).
    simpl. rewrite Nat.eqb_refl. split; [field; lra|eauto].
  - apply normalise_fixel_sum; auto. apply Htdi. discriminate.
Qed.

End InRange.

End Positive.

(** *** The connectivity values *)

Lemma find_above (T : Type) (k : nat) (m : StdMap.t T) :
  Forall (fun e => k < fst e) m -> StdMap.find k m = None.
Proof.
  induction m as [|[k' v] m IH]; simpl; [reflexivity|].
  intros H. inversion H as [|? ? Hk Hm]; subst. simpl in Hk.
  replace (k' =? k) with false by (symmetry; apply Nat.eqb_neq; lia). auto.
Qed.

(** What the loop leaves of an entry: nothing below the threshold, the
    connectivity to the power [cfe_c] otherwise. *)
Lemma find_threshold_entries (fixel j : nat) (entries weights : StdMap.t value) :
  StdMap.ordered entries ->
  StdMap.find j (fst (threshold_entries fixel entries weights)) =
  match StdMap.find j entries with
  | Some count =>
      if (connectivity_of fixel count <? Fin connectivity_threshold)%V then None
      else Some (vpow (connectivity_of fixel count) (Fin cfe_c))
  | None => None
  end.
Proof.
  revert weights. induction entries as [|[k count] entries IH]; intros weights O; simpl.
  - reflexivity.
  - destruct O as [Ok' O].
    destruct (connectivity_of fixel count <? Fin connectivity_threshold)%V eqn:E.
    + rewrite IH by assumption. destruct (k =? j) eqn:K; [|reflexivity].
      apply Nat.eqb_eq in K. subst k. now rewrite (find_above Ok'), E.
    + match goal with
      | |- context [FixelCFE.threshold_entries _ _ _ _ _ _ _ _ _ _ _ ?w] =>
          specialize (IH w O)
      end.
      destruct (FixelCFE.threshold_entries _ _ _ _ _ _ _ _ _ _ _ _) as [rest' w'].
      simpl in *. destruct (k =? j); [now rewrite E|exact IH].
Qed.

(** C4 (as amended).  After the normalisation, for every fixel [i] of a
    graph with ordered maps and no self edge: the self loop [(i,i)] stores
    exactly 1, whatever the exponent C; an edge [(i,j)] whose fraction
    [count / TDI[i]] is below the threshold is removed; every other edge is
    retained, the fraction equal to the threshold included, and stores the
    fraction to the power C.  The fraction of a retained edge is therefore
    in the closed interval from the threshold to 1, as soon as its count
    is at most [TDI[i]]. *)
Theorem connectivity_normalised
    (connectivity_matrix : list (StdMap.t value)) (fixel : nat) :
  fixel < length connectivity_matrix ->
  StdMap.ordered (nth fixel connectivity_matrix []) ->
  StdMap.find fixel (nth fixel connectivity_matrix []) = None ->
  StdMap.find fixel (nth fixel (fst (normalise connectivity_matrix)) []) = Some (Fin 1) /\
  (forall j, j <> fixel ->
     StdMap.find j (nth fixel (fst (normalise connectivity_matrix)) []) =
     match StdMap.find j (nth fixel connectivity_matrix []) with
     | Some count =>
         if (connectivity_of fixel count <? Fin connectivity_threshold)%V then None
         else Some (vpow (connectivity_of fixel count) (Fin cfe_c))
     | None => None
     end) /\
  (forall j count,
     StdMap.find j (nth fixel connectivity_matrix []) = Some (Fin count) ->
     0 < nth fixel fixel_TDI 0 ->
     (count <= inject_Z (Z.of_nat (nth fixel fixel_TDI 0%nat)))%Q ->
     exists fraction,
       connectivity_of fixel (Fin count) = Fin fraction /\
       (fraction <= 1)%Q /\
       ((Fin fraction <? Fin connectivity_threshold)%V = false ->
        (connectivity_threshold <= fraction)%Q)).
Proof.
  intros Hlen O Hself.
  rewrite (proj1 (normalise_nth connectivity_matrix Hlen)).
  unfold FixelCFE.normalise_fixel. simpl. split; [|split].
  - apply find_insert_same. rewrite find_threshold_entries, Hself; auto.
  - intros j Hj. rewrite find_insert_other by assumption.
    now apply find_threshold_entries.
  - intros j count _ Htdi Hcount.
    eexists. split; [exact (connectivity_of_finite fixel Htdi count)|]. split.
    + apply Qle_shift_div_r; [|lra]. rewrite <- (Zlt_Qlt 0). lia.
    + unfold vlt. now rewrite Qltb_ge.
Qed.

End Normalise.

(** *** Without smoothing *)

Section NoSmoothing.

Import FixelCFE.

Variable Qsqrt : Q -> Q.
Variable Qexp : Q -> Q.
Variable vpow : value -> value -> value.
Variable PI : Q.
Variable cfe_c : Q.
Variable connectivity_threshold : Q.
Variable positions : list position.
Variable fixel_TDI : list nat.

Local Abbreviation threshold_entries0 :=
  (threshold_entries Qsqrt Qexp vpow PI cfe_c (std_dev_of_fwhm 0) connectivity_threshold
                     positions fixel_TDI).
Local Abbreviation normalise_fixel0 :=
  (normalise_fixel Qsqrt Qexp vpow PI cfe_c (std_dev_of_fwhm 0) connectivity_threshold
                   positions fixel_TDI).
Local Abbreviation normalise0 :=
  (normalise Qsqrt Qexp vpow PI cfe_c (std_dev_of_fwhm 0) connectivity_threshold
             positions fixel_TDI).

Lemma threshold_entries_no_smoothing (fixel : nat) (entries weights : StdMap.t value) :
  snd (threshold_entries0 fixel entries weights) = weights.
Proof.
  revert weights. induction entries as [|[j count] entries IH]; intros weights; simpl.
  - reflexivity.
  - destruct (_ <? _)%V; [apply IH|].
    change (do_smoothing (std_dev_of_fwhm 0)) with false. cbv iota.
    specialize (IH weights).
    destruct (FixelCFE.threshold_entries _ _ _ _ _ _ _ _ _ _ _ _). exact IH.
Qed.

Lemma normalise_fixel_no_smoothing (fixel : nat) (entries : StdMap.t value) :
  snd (normalise_fixel0 fixel entries) = [(fixel, Fin 1)].
Proof.
  unfold FixelCFE.normalise_fixel, FixelCFE.raw_weights. simpl.
  rewrite threshold_entries_no_smoothing. reflexivity.
Qed.

Lemma normalise_no_smoothing (connectivity_matrix : list (StdMap.t value)) :
  snd (normalise0 connectivity_matrix) =
  map (fun fixel => [(fixel, Fin 1)]) (seq 0 (length connectivity_matrix)).
Proof.
  apply (nth_ext _ _ [] []).
  - rewrite (proj2 (normalise_length _ _ _ _ _ _ _ _ _ _)), length_map, length_seq.
    reflexivity.
  - intros n Hn. rewrite (proj2 (normalise_length _ _ _ _ _ _ _ _ _ _)) in Hn.
    rewrite (proj2 (normalise_nth _ _ _ _ _ _ _ _ _ _ Hn)).
    rewrite normalise_fixel_no_smoothing.
    now rewrite nth_map_seq.
Qed.

Lemma smooth_fixel_self (weights : list (StdMap.t value)) (data : list value)
                        (fixel : nat) :
  nth fixel weights [] = [(fixel, Fin 1)] ->
  isfinite (at_fixel data fixel) = true ->
  (smooth_fixel weights data fixel == at_fixel data fixel)%V.
Proof.
  intros W F. unfold smooth_fixel, accumulate. rewrite W, F. simpl. rewrite F.
  destruct (at_fixel data fixel) as [q| |]; try discriminate.
  simpl. field.
Qed.

(** C6.  When the smoothing FWHM is 0, the smoothing weights of every
    fixel are the self edge alone, with weight 1, and the smoothed data
    equals the input data at every fixel whose input value is finite. *)
Theorem no_smoothing_keeps_data
    (connectivity_matrix : list (StdMap.t value)) (data : list value) :
  snd (normalise0 connectivity_matrix) =
    map (fun fixel => [(fixel, Fin 1)]) (seq 0 (length connectivity_matrix)) /\
  (length data = length connectivity_matrix ->
   forall fixel, fixel < length data ->
     isfinite (nth fixel data NaN) = true ->
     (nth fixel (smooth (snd (normalise0 connectivity_matrix)) data) NaN
      == nth fixel data NaN)%V).
Proof.
  split; [apply normalise_no_smoothing|].
  intros L fixel Hf F. unfold smooth.
  rewrite nth_map_seq by assumption.
  apply smooth_fixel_self; [|exact F].
  rewrite normalise_no_smoothing, nth_map_seq by lia. reflexivity.
Qed.

End NoSmoothing.

(** *** On the instances *)

Lemma Instances_PI_positive : (0 < Instances.PI)%Q.
Proof. reflexivity. Qed.

Lemma Instances_Qsqrt_positive (x : Q) : (0 < x)%Q -> (0 < Instances.Qsqrt x)%Q.
Proof.
  destruct x as [n d]. unfold Qlt, Instances.Qsqrt. simpl.
  rewrite !Z.mul_1_r. intros H. apply Z.sqrt_pos. lia.
Qed.

Lemma Instances_vpow_square_finite (d : Q) :
  isfinite (Instances.vpow (Fin d) (Fin 2)) = true.
Proof. reflexivity. Qed.

(** With the default FWHM the self weight is far within the range of
    [float]. *)
Lemma Instances_self_weight_in_range :
  FixelCFE.do_smoothing (FixelCFE.std_dev_of_fwhm FixelCFE.DEFAULT_SMOOTHING_STD) = true ->
  (1 / (FixelCFE.std_dev_of_fwhm FixelCFE.DEFAULT_SMOOTHING_STD
        * Instances.Qsqrt (2 * Instances.PI)) < FLT_OVERFLOW)%Q.
Proof. intros _. vm_compute. reflexivity. Qed.

Lemma norm_factor_sum_positive_witness :
  positive
    (FixelCFE.weights_sum
       (FixelCFE.raw_weights Instances.Qsqrt Instances.Qexp Instances.vpow Instances.PI
          FixelCFE.DEFAULT_CFE_C (FixelCFE.std_dev_of_fwhm FixelCFE.DEFAULT_SMOOTHING_STD)
          FixelCFE.DEFAULT_CONNECTIVITY_THRESHOLD
          line_positions [1; 1; 1; 1] 0 [(1, Fin 1); (2, Fin 1); (3, Fin 1)])) /\
  isfinite
    (FixelCFE.norm_factor
       (FixelCFE.raw_weights Instances.Qsqrt Instances.Qexp Instances.vpow Instances.PI
          FixelCFE.DEFAULT_CFE_C (FixelCFE.std_dev_of_fwhm FixelCFE.DEFAULT_SMOOTHING_STD)
          FixelCFE.DEFAULT_CONNECTIVITY_THRESHOLD
          line_positions [1; 1; 1; 1] 0 [(1, Fin 1); (2, Fin 1); (3, Fin 1)])) = true.
Proof.
  exact (proj2 (proj2
    (@norm_factor_sum_positive Instances.Qsqrt Instances.Qexp Instances.vpow
       Instances.PI FixelCFE.DEFAULT_CFE_C (FixelCFE.std_dev_of_fwhm FixelCFE.DEFAULT_SMOOTHING_STD)
           FixelCFE.DEFAULT_CONNECTIVITY_THRESHOLD
       line_positions [1; 1; 1; 1]
       Instances_PI_positive Instances_Qsqrt_positive
       0 [(1, Fin 1); (2, Fin 1); (3, Fin 1)]))).
Defined.

Lemma smoothing_weights_sum_to_one_witness :
  (FixelCFE.weights_sum
     (nth 0 (snd (FixelCFE.normalise Instances.Qsqrt Instances.Qexp Instances.vpow
                    Instances.PI FixelCFE.DEFAULT_CFE_C (FixelCFE.std_dev_of_fwhm FixelCFE.DEFAULT_SMOOTHING_STD)
          FixelCFE.DEFAULT_CONNECTIVITY_THRESHOLD
                    line_positions [1; 1; 1; 1] line_connectivity)) [])
   == Fin 1)%V /\
  exists w,
    StdMap.find 0
      (nth 0 (snd (FixelCFE.normalise Instances.Qsqrt Instances.Qexp Instances.vpow
                     Instances.PI FixelCFE.DEFAULT_CFE_C (FixelCFE.std_dev_of_fwhm FixelCFE.DEFAULT_SMOOTHING_STD)
          FixelCFE.DEFAULT_CONNECTIVITY_THRESHOLD
                     line_positions [1; 1; 1; 1] line_connectivity)) []) = Some w.
Proof.
  apply (@smoothing_weights_sum_to_one Instances.Qsqrt Instances.Qexp Instances.vpow
           Instances.PI FixelCFE.DEFAULT_CFE_C (FixelCFE.std_dev_of_fwhm FixelCFE.DEFAULT_SMOOTHING_STD)
           FixelCFE.DEFAULT_CONNECTIVITY_THRESHOLD
           line_positions [1; 1; 1; 1]
           Instances_PI_positive Instances_Qsqrt_positive
           Instances_self_weight_in_range line_connectivity 0).
  - exact Instances_vpow_square_finite.
  - simpl. lia.
  - simpl. repeat constructor.
  - intros _. simpl. lia.
Defined.

(** C5 fails as stated.  With [-smooth 1e-39] the quotient
    [1 / (sigma * sqrt (2 * pi))] is about 9.4e38, beyond the range of
    [float]: the self weight is +inf.  For fixel 0 of a graph whose edges
    are all below the connectivity threshold (one streamline in 200) the
    self weight is the only weight; the sum is +inf, the factor [1 / sum]
    is 0 and the normalised self weight is [inf * 0]: the weights of the
    fixel do not sum to 1. *)
Lemma smoothing_weights_nan_beyond_float_range :
  FixelCFE.gaussian_const1 Instances.Qsqrt Instances.PI
    (FixelCFE.std_dev_of_fwhm (1 # 1000000000000000000000000000000000000000))
    = Inf false /\
  nth 0 (snd (FixelCFE.normalise Instances.Qsqrt Instances.Qexp Instances.vpow
                Instances.PI FixelCFE.DEFAULT_CFE_C
                (FixelCFE.std_dev_of_fwhm (1 # 1000000000000000000000000000000000000000))
                FixelCFE.DEFAULT_CONNECTIVITY_THRESHOLD
                line_positions [200; 200; 200; 200] line_connectivity)) []
    = [(0, NaN)] /\
  FixelCFE.weights_sum
    (nth 0 (snd (FixelCFE.normalise Instances.Qsqrt Instances.Qexp Instances.vpow
                   Instances.PI FixelCFE.DEFAULT_CFE_C
                   (FixelCFE.std_dev_of_fwhm (1 # 1000000000000000000000000000000000000000))
                   FixelCFE.DEFAULT_CONNECTIVITY_THRESHOLD
                   line_positions [200; 200; 200; 200] line_connectivity)) [])
    = NaN /\
  ~ (FixelCFE.weights_sum
       (nth 0 (snd (FixelCFE.normalise Instances.Qsqrt Instances.Qexp Instances.vpow
                      Instances.PI FixelCFE.DEFAULT_CFE_C
                      (FixelCFE.std_dev_of_fwhm (1 # 1000000000000000000000000000000000000000))
                      FixelCFE.DEFAULT_CONNECTIVITY_THRESHOLD
                      line_positions [200; 200; 200; 200] line_connectivity)) [])
     == Fin 1)%V.
Proof.
  split; [|split; [|split]]; try (vm_compute; reflexivity).
  vm_compute. intros H. exact H.
Qed.

Lemma connectivity_normalised_witness :
  StdMap.find 0
    (nth 0 (fst (FixelCFE.normalise Instances.Qsqrt Instances.Qexp Instances.vpow
                   Instances.PI FixelCFE.DEFAULT_CFE_C (FixelCFE.std_dev_of_fwhm FixelCFE.DEFAULT_SMOOTHING_STD)
          FixelCFE.DEFAULT_CONNECTIVITY_THRESHOLD
                   line_positions [1; 1; 1; 1] line_connectivity)) [])
  = Some (Fin 1).
Proof.
  apply (@connectivity_normalised Instances.Qsqrt Instances.Qexp Instances.vpow
           Instances.PI FixelCFE.DEFAULT_CFE_C (FixelCFE.std_dev_of_fwhm FixelCFE.DEFAULT_SMOOTHING_STD)
           FixelCFE.DEFAULT_CONNECTIVITY_THRESHOLD
           line_positions [1; 1; 1; 1] line_connectivity 0).
  - simpl. lia.
  - simpl. repeat constructor.
  - reflexivity.
Defined.

(** C4 fails as stated.  Two streamlines run through fixel 0 and one of
    them through fixel 1 as well; the threshold is 1/2.  The fraction of
    the edge (0,1) is 1/2, which is not below the threshold: the edge is
    retained (with C = 1 it stores the fraction itself), though its
    fraction is not strictly above the threshold. *)
Lemma edge_at_threshold_is_retained :
  FixelCFE.connectivity_of [2; 1] 0 (Fin 1) = Fin (1 # 2) /\
  StdMap.find 1
    (nth 0 (fst (FixelCFE.normalise Instances.Qsqrt Instances.Qexp Instances.vpow
                   Instances.PI 1 (FixelCFE.std_dev_of_fwhm 0) (1 # 2)
                   [(0, 0, 0); (1, 0, 0)]%Q [2; 1]
                   [[(1, Fin 1)]; [(0, Fin 1)]])) [])
  = Some (Fin (1 # 2)) /\
  ~ ((1 # 2) < (1 # 2))%Q.
Proof.
  split; [reflexivity|]. split; [reflexivity|]. apply Qlt_irrefl.
Qed.

Lemma no_smoothing_keeps_data_witness :
  (nth 1 (FixelCFE.smooth
            (snd (FixelCFE.normalise Instances.Qsqrt Instances.Qexp Instances.vpow
                    Instances.PI FixelCFE.DEFAULT_CFE_C (FixelCFE.std_dev_of_fwhm 0)
                    FixelCFE.DEFAULT_CONNECTIVITY_THRESHOLD
                    line_positions [1; 1; 1; 1] line_connectivity))
            [Fin 3; Fin (7 # 2); NaN; Fin 0]) NaN
   == Fin (7 # 2))%V.
Proof.
  apply (proj2 (@no_smoothing_keeps_data Instances.Qsqrt Instances.Qexp Instances.vpow
                  Instances.PI FixelCFE.DEFAULT_CFE_C FixelCFE.DEFAULT_CONNECTIVITY_THRESHOLD
                  line_positions [1; 1; 1; 1]
                  line_connectivity [Fin 3; Fin (7 # 2); NaN; Fin 0])).
  - reflexivity.
  - simpl. lia.
  - reflexivity.
Defined.

(** ** Runs that end alike *)






Lemma foldM_app {A St : Type} (body : St -> A -> outcome St) (l l' : list A) (s : St) :
  foldM body (l ++ l') s = bind (foldM body l s) (foldM body l').
Proof.
  revert s. induction l as [|a l IH]; intros s; simpl; [reflexivity|].
  destruct (body s a); simpl; auto.
Qed.

(** A loop that returns has kept its invariant and has passed every
    turn. *)
Lemma foldM_invariant {A St : Type} (Inv : St -> Prop) (P : A -> Prop)
    (body : St -> A -> outcome St) (l : list A) :
  (forall s a s', In a l -> Inv s -> body s a = Ok s' -> Inv s' /\ P a) ->
  forall s r, Inv s -> foldM body l s = Ok r -> Inv r /\ Forall P l.
Proof.
  induction l as [|a l IH]; intros H s r Hs E; simpl in E.
  - inversion E; subst. auto.
  - apply bind_Ok in E. destruct E as (s' & E1 & E2).
    destruct (H s a s' (or_introl eq_refl) Hs E1) as [Hs' Pa].
    destruct (IH (fun s a s' Hin => H s a s' (or_intror Hin)) s' r Hs' E2).
    auto.
Qed.

(** *** Matrices with the same coefficients *)

Section SameMatrix.

Import Spec.

Lemma sum_upto_ext (n : nat) (f g : nat -> value) :
  (forall k, k < n -> f k = g k) -> sum_upto n f = sum_upto n g.
Proof.
  induction n as [|n IH]; intros H; simpl; [reflexivity|].
  rewrite IH, H by auto. reflexivity.
Qed.









End SameMatrix.

(** ** The t-test reads the contrast through its coefficients *)


Section FirstRow.

Import GLM Spec.

Variable Qsqrt : Q -> Q.
Variable pinv : matrix -> matrix.
Variable rank : matrix -> nat.






End FirstRow.

(** ** Contrasts with several rows *)

Lemma scale_row_Ok (m m' : matrix) (n : nat) (s : value) :
  scale_row m n s = Ok m' -> n < rows m /\ rows m' = rows m.
Proof.
  unfold scale_row. destruct (n <? rows m) eqn:E; simpl; [|discriminate].
  apply Nat.ltb_lt in E. intros H. inversion H; subst. auto.
Qed.

Lemma resize_Ok (m m' : matrix) (r c : nat) :
  resize m r c = Ok m' -> rows m' = r /\ cols m' = c.
Proof.
  unfold resize. destruct (r * c =? rows m * cols m); simpl.
  - intros H. inversion H; subst. auto.
  - destruct (r * c =? 0); [|discriminate].
    intros H. inversion H; subst. auto.
Qed.

Section SingleRow.

Import GLM Spec.

Variable Qsqrt : Q -> Q.
Variable pinv : matrix -> matrix.
Variable rank : matrix -> nat.

(** Contrast scaling returns for contrasts of a single row at most: with
    more rows and one column the transposed copy has a single row, and
    the loop over the rows of the contrasts leaves it. *)
Lemma scale_contrasts_single_row (contrasts design scaled : matrix) (df : Z) :
  scale_contrasts Qsqrt pinv contrasts design df = Ok scaled -> rows contrasts <= 1.
Proof.
  unfold scale_contrasts. rewrite mul_transpose_self. simpl.
  destruct ((1 <? cols contrasts) && (1 <? rows contrasts)) eqn:G; [discriminate|].
  destruct (1 <? rows contrasts) eqn:R1; [|apply Nat.ltb_ge in R1; lia].
  rewrite andb_true_r in G. apply Nat.ltb_ge in G. apply Nat.ltb_lt in R1.
  intros E. apply bind_Ok in E. destruct E as (s0 & E0 & E).
  apply resize_Ok in E0. simpl in E0. destruct E0 as [E0 _].
  apply (foldM_invariant (fun s => rows s = cols contrasts)
                         (fun n => n < cols contrasts)) in E; auto.
  - destruct E as [_ F]. rewrite Forall_forall in F.
    assert (In (cols contrasts) (seq 0 (rows contrasts))) as I
      by (apply in_seq; lia).
    apply F in I. lia.
  - intros s n s' _ Hs B.
    apply bind_Ok in B. destruct B as (c_n & _ & B).
    apply bind_Ok in B. destruct B as (v & _ & B).
    apply bind_Ok in B. destruct B as (d & _ & B).
    apply scale_row_Ok in B. lia.
Qed.



End SingleRow.




(** ** A column of contrasts *)

Section ColumnContrast.

Import GLM.

Variable Qsqrt : Q -> Q.
Variable pinv : matrix -> matrix.
Variable rank : matrix -> nat.

(** C8 fails on the code.  A contrast matrix with a single column and
    several rows passes the guard of [scale_contrasts], which throws for
    more than one column and more than one row only, and the copy is
    transposed into a row; but the loop that scales runs over the rows of
    the contrasts as they were given and leaves the single row of the copy
    (or multiplies matrices whose sizes do not fit): the call neither
    throws nor returns, and the construction of the t-test with it. *)
Theorem column_contrast_is_not_accepted
    (measurements design contrast : matrix) (degrees_of_freedom : Z) :
  1 < rows contrast -> cols contrast <= 1 ->
  scale_contrasts Qsqrt pinv contrast design degrees_of_freedom = Undefined /\
  GLMTTest_new Qsqrt pinv rank measurements design contrast = Undefined.
Proof.
  intros R C.
  assert (U : forall df, scale_contrasts Qsqrt pinv contrast design df = Undefined).
  { intros df.
    pose proof (scale_contrasts_throws Qsqrt pinv contrast design df) as T.
    replace (1 <? cols contrast) with false in T
      by (symmetry; apply Nat.ltb_ge; lia).
    destruct (scale_contrasts Qsqrt pinv contrast design df) as [s|w|] eqn:E.
    - apply scale_contrasts_single_row in E. lia.
    - discriminate.
    - reflexivity. }
  split; [apply U|]. unfold GLMTTest_new. now rewrite U.
Qed.

End ColumnContrast.

Lemma column_contrast_is_not_accepted_witness :
  GLM.scale_contrasts Instances.Qsqrt Instances.pinv group_difference_column one_group 3
    = Undefined /\
  GLM.GLMTTest_new Instances.Qsqrt Instances.pinv Instances.rank
    three_fixels one_group group_difference_column = Undefined.
Proof.
  apply (@column_contrast_is_not_accepted Instances.Qsqrt Instances.pinv Instances.rank
           three_fixels one_group group_difference_column 3).
  - simpl. lia.
  - simpl. lia.
Defined.

(** ** The batches of the t-test *)

Lemma returns_bind_false {A B : Type} (c : outcome A) (k : A -> outcome B) :
  (forall a, returns (k a) = false) -> returns (bind c k) = false.
Proof. destruct c; simpl; auto. Qed.

Lemma batch_count (n : nat) :
  n <= (n + (GLM.GLM_BATCH_SIZE - 1)) / GLM.GLM_BATCH_SIZE * GLM.GLM_BATCH_SIZE.
Proof.
  assert (B : 0 < GLM.GLM_BATCH_SIZE) by (unfold GLM.GLM_BATCH_SIZE; lia).
  pose proof (Nat.div_mod_eq (n + (GLM.GLM_BATCH_SIZE - 1)) GLM.GLM_BATCH_SIZE) as D.
  pose proof (Nat.mod_upper_bound (n + (GLM.GLM_BATCH_SIZE - 1)) GLM.GLM_BATCH_SIZE) as M.
  nia.
Qed.

(** Beyond one batch the list of batches ends with a batch that does not
    start at row 0 and reaches the last row. *)
Lemma batch_starts_last (n : nat) :
  GLM.GLM_BATCH_SIZE < n ->
  exists starts last,
    GLM.batch_starts n = starts ++ [last] /\
    0 < last /\ n <= last + GLM.GLM_BATCH_SIZE.
Proof.
  intros H. unfold GLM.batch_starts.
  pose proof (batch_count n) as C.
  assert (B : 0 < GLM.GLM_BATCH_SIZE) by (unfold GLM.GLM_BATCH_SIZE; lia).
  destruct ((n + (GLM.GLM_BATCH_SIZE - 1)) / GLM.GLM_BATCH_SIZE) as [|m] eqn:E.
  - lia.
  - rewrite seq_S, map_app.
    exists (map (fun k => k * GLM.GLM_BATCH_SIZE) (seq 0 m)), (m * GLM.GLM_BATCH_SIZE).
    split; [reflexivity|]. split; nia.
Qed.

Section Batches.

Import GLM.

Variable Qsqrt : Q -> Q.

(** The block asked for in the last batch starts at [last > 0] and has as
    many rows as the whole matrix. *)
Lemma last_block_out_of_range (m : matrix) (last : nat) :
  0 < last -> rows m <= last + GLM_BATCH_SIZE ->
  block m last 0 (Nat.min (last + GLM_BATCH_SIZE) (rows m)) (cols m) = Undefined.
Proof.
  intros P R. unfold block.
  replace (last + Nat.min (last + GLM_BATCH_SIZE) (rows m) <=? rows m) with false;
    [reflexivity|].
  symmetry. apply Nat.leb_gt. lia.
Qed.

(** C2 fails beyond one batch.  With more than [GLM_BATCH_SIZE] fixels
    [operator()] does not return: the block of the last batch is given
    the end row [min (i + GLM_BATCH_SIZE, y.rows())] where Eigen takes the
    number of rows of the block, and lies outside the matrix. *)
Theorem call_leaves_matrix_beyond_one_batch
    (t : GLMTTest) (perm_labelling : list nat) (stats0 : list value)
    (max_stat0 min_stat0 : value) :
  GLM_BATCH_SIZE < rows (y t) ->
  returns (call Qsqrt t perm_labelling stats0 max_stat0 min_stat0) = false.
Proof.
  intros H. unfold call.
  apply returns_bind_false. intros [SX pinvSX].
  destruct (batch_starts_last H) as (starts & last & -> & P & R).
  rewrite foldM_app. apply returns_bind_false. intros out. simpl.
  now rewrite last_block_out_of_range.
Qed.

End Batches.

Lemma call_leaves_matrix_beyond_one_batch_witness :
  returns
    (GLM.call Instances.Qsqrt
       {| GLM.y := fixels_1025; GLM.X := one_subject;
          GLM.pinvX := Instances.pinv one_subject;
          GLM.scaled_contrasts := one_subject |}
       [0] [] (Fin 0) (Fin 0)) = false.
Proof.
  apply call_leaves_matrix_beyond_one_batch.
  unfold GLM.GLM_BATCH_SIZE. simpl. lia.
Defined.

(** ** One batch: the t-values are the least-squares ones *)

(** A loop over [0, ..., n-1] whose turns all return, with an invariant. *)
Lemma foldM_seq_total {St : Type} (Inv : nat -> St -> Prop)
    (body : St -> nat -> outcome St) (n : nat) (s0 : St) :
  Inv 0 s0 ->
  (forall k s, k < n -> Inv k s -> exists s', body s k = Ok s' /\ Inv (S k) s') ->
  exists r, foldM body (seq 0 n) s0 = Ok r /\ Inv n r.
Proof.
  induction n as [|n IH]; intros H0 Hstep.
  - exists s0. auto.
  - destruct IH as (r & E & Hr); auto.
    destruct (Hstep n r (Nat.lt_succ_diag_r n) Hr) as (r' & E' & Hr').
    exists r'. split; [|exact Hr'].
    rewrite seq_S, foldM_app, E. simpl. now rewrite E'.
Qed.

Lemma vector_get_seq (n i : nat) : i < n -> GLM.vector_get (seq 0 n) i = Ok i.
Proof.
  intros H. unfold GLM.vector_get.
  rewrite (nth_error_nth' _ 0) by (now rewrite length_seq).
  now rewrite seq_nth.
Qed.

Lemma batch_starts_one (n : nat) :
  0 < n <= GLM.GLM_BATCH_SIZE -> GLM.batch_starts n = [0].
Proof.
  intros H. unfold GLM.batch_starts.
  replace ((n + (GLM.GLM_BATCH_SIZE - 1)) / GLM.GLM_BATCH_SIZE) with 1; [reflexivity|].
  apply Nat.div_unique with (r := n - 1); unfold GLM.GLM_BATCH_SIZE in *; lia.
Qed.

Lemma batch_starts_none : GLM.batch_starts 0 = [].
Proof. reflexivity. Qed.

Lemma vector_resize_length (v : list value) (n : nat) (fill : value) :
  length (GLM.vector_resize v n fill) = n.
Proof.
  unfold GLM.vector_resize. rewrite length_app, length_firstn, repeat_length. lia.
Qed.

Lemma vector_set_firstn (v : list value) (k : nat) (x : value) :
  k < length v ->
  exists v', GLM.vector_set v k x = Ok v' /\ length v' = length v /\
             firstn (S k) v' = firstn k v ++ [x].
Proof.
  intros H. unfold GLM.vector_set.
  replace (k <? length v) with true by (symmetry; now apply Nat.ltb_lt).
  unfold require, bind.
  eexists. split; [reflexivity|]. split.
  - rewrite length_app, length_firstn, length_cons, length_skipn. lia.
  - assert (L : length (firstn k v) = k) by (rewrite length_firstn; lia).
    replace (S k) with (length (firstn k v) + 1) at 1 by lia.
    rewrite firstn_app_2. reflexivity.
Qed.

Section OneBatch.

Import GLM Spec.

Variable Qsqrt : Q -> Q.
Variable t : GLMTTest.

(** The sizes fit: [y] is N x S, [X] is S x P, [pinvX] is P x S and the
    scaled contrasts are a column of P coefficients (or several). *)
Hypothesis y_cols : cols (y t) = rows (X t).
Hypothesis pinvX_cols : cols (pinvX t) = rows (X t).
Hypothesis pinvX_rows : rows (pinvX t) = cols (X t).
Hypothesis contrast_rows : rows (scaled_contrasts t) = cols (X t).
Hypothesis contrast_cols : 0 < cols (scaled_contrasts t).

(** With the identity permutation [SX] is [X] and [pinvSX] is [pinvX]. *)
Lemma identity_permutation :
  exists SX pinvSX,
    foldM (fun '(SX, pinvSX) i =>
             let* p := vector_get (seq 0 (rows (X t))) i in
             let* SX := assign_row SX i (X t) p in
             let* pinvSX := assign_col pinvSX i (pinvX t) p in
             Ok (SX, pinvSX))
          (seq 0 (rows (X t)))
          (fresh (rows (X t)) (cols (X t)), fresh (rows (pinvX t)) (cols (pinvX t)))
    = Ok (SX, pinvSX) /\
    same_matrix SX (X t) /\ same_matrix pinvSX (pinvX t).
Proof.
  destruct (@foldM_seq_total _
    (fun k '(SX, pinvSX) =>
       rows SX = rows (X t) /\ cols SX = cols (X t) /\
       rows pinvSX = rows (pinvX t) /\ cols pinvSX = cols (pinvX t) /\
       (forall i j, i < k -> coeff SX i j = coeff (X t) i j) /\
       (forall r i, i < k -> coeff pinvSX r i = coeff (pinvX t) r i))
    (fun '(SX, pinvSX) i =>
       let* p := vector_get (seq 0 (rows (X t))) i in
       let* SX := assign_row SX i (X t) p in
       let* pinvSX := assign_col pinvSX i (pinvX t) p in
       Ok (SX, pinvSX))
    (rows (X t))
    (fresh (rows (X t)) (cols (X t)), fresh (rows (pinvX t)) (cols (pinvX t))))
    as ([SX pinvSX] & E & I).
  - simpl. repeat split; auto; intros; lia.
  - intros k [SX pinvSX] Hk (R1 & C1 & R2 & C2 & H1 & H2).
    rewrite vector_get_seq by assumption. simpl.
    unfold assign_row, assign_col. rewrite R1, C1, R2, C2, pinvX_cols.
    replace (k <? rows (X t)) with true by (symmetry; now apply Nat.ltb_lt).
    rewrite !Nat.eqb_refl. simpl.
    eexists. split; [reflexivity|]. simpl. repeat split; auto.
    + intros i j Hi. destruct (i =? k) eqn:K.
      * apply Nat.eqb_eq in K. now subst.
      * apply Nat.eqb_neq in K. apply H1. lia.
    + intros r i Hi. destruct (i =? k) eqn:K.
      * apply Nat.eqb_eq in K. now subst.
      * apply Nat.eqb_neq in K. apply H2. lia.
  - destruct I as (R1 & C1 & R2 & C2 & H1 & H2).
    exists SX, pinvSX. split; [exact E|]. split.
    + repeat split; auto. intros i j Hi _. apply H1. lia.
    + repeat split; auto. intros r i _ Hi. apply H2. lia.
Qed.

(** The loop that divides the rows of [tvalues] by the norms of the rows
    of [residuals]. *)
Lemma divide_by_norms (residuals tvalues0 : matrix) :
  rows residuals = rows tvalues0 ->
  exists tvalues,
    foldM (fun tvalues n =>
             let* norm := row_norm Qsqrt residuals n in
             div_row tvalues n norm)
          (seq 0 (rows tvalues0)) tvalues0 = Ok tvalues /\
    rows tvalues = rows tvalues0 /\ cols tvalues = cols tvalues0 /\
    forall i j, i < rows tvalues0 ->
      coeff tvalues i j =
      (coeff tvalues0 i j
       / vsqrt Qsqrt (sum_upto (cols residuals)
                        (fun k => coeff residuals i k * coeff residuals i k)))%V.
Proof.
  intros R.
  destruct (@foldM_seq_total _
    (fun k tv =>
       rows tv = rows tvalues0 /\ cols tv = cols tvalues0 /\
       forall i j,
         coeff tv i j =
         if i <? k
         then (coeff tvalues0 i j
               / vsqrt Qsqrt (sum_upto (cols residuals)
                                (fun k => coeff residuals i k * coeff residuals i k)))%V
         else coeff tvalues0 i j)
    (fun tvalues n =>
       let* norm := row_norm Qsqrt residuals n in
       div_row tvalues n norm)
    (rows tvalues0) tvalues0) as (tv & E & R' & C' & H).
  - auto.
  - intros k s Hk (Rs & Cs & Hs). unfold row_norm, div_row. rewrite R, Rs.
    replace (k <? rows tvalues0) with true by (symmetry; now apply Nat.ltb_lt).
    simpl. eexists. split; [reflexivity|]. simpl. repeat split; auto.
    intros i j. rewrite Hs. destruct (i =? k) eqn:K.
    + apply Nat.eqb_eq in K. subst i. rewrite Nat.ltb_irrefl.
      replace (k <? S k) with true by (symmetry; apply Nat.ltb_lt; lia). reflexivity.
    + apply Nat.eqb_neq in K.
      destruct (i <? k) eqn:L.
      * apply Nat.ltb_lt in L.
        replace (i <? S k) with true by (symmetry; apply Nat.ltb_lt; lia). reflexivity.
      * apply Nat.ltb_ge in L.
        replace (i <? S k) with false by (symmetry; apply Nat.ltb_ge; lia). reflexivity.
  - exists tv. repeat split; auto. intros i j Hi. rewrite H.
    now replace (i <? rows tvalues0) with true by (symmetry; now apply Nat.ltb_lt).
Qed.

(** The loop that writes the t-values of the first batch to [stats]. *)
Lemma record_first_batch (tvalues : matrix) (out0 : output) :
  0 < cols tvalues -> length (stats out0) = rows tvalues ->
  exists out,
    foldM (record_tvalue 0 tvalues) (seq 0 (rows tvalues)) out0 = Ok out /\
    stats out = map (fun n => if isfinite (coeff tvalues n 0)
                              then coeff tvalues n 0 else Fin 0)
                    (seq 0 (rows tvalues)).
Proof.
  intros C L.
  destruct (@foldM_seq_total _
    (fun k out =>
       length (stats out) = rows tvalues /\
       firstn k (stats out) =
       map (fun n => if isfinite (coeff tvalues n 0) then coeff tvalues n 0 else Fin 0)
           (seq 0 k))
    (record_tvalue 0 tvalues) (rows tvalues) out0) as (out & E & L' & H).
  - auto.
  - intros k s Hk (Ls & Hs). unfold record_tvalue, get.
    replace ((k <? rows tvalues) && (0 <? cols tvalues)) with true
      by (symmetry; apply andb_true_iff; split; now apply Nat.ltb_lt).
    cbn [bind require Nat.add].
    destruct (@vector_set_firstn (stats s) k
                (if isfinite (coeff tvalues k 0) then coeff tvalues k 0 else Fin 0))
      as (v' & Ev & Lv & Fv); [lia|].
    destruct (isfinite (coeff tvalues k 0)) eqn:F; rewrite Ev; unfold bind;
      (eexists; split; [reflexivity|]); cbn [stats];
      (split; [lia|]); rewrite Fv, Hs, seq_S, map_app; simpl; now rewrite F.
  - exists out. split; [exact E|].
    rewrite <- H, <- L'. now rewrite firstn_all.
Qed.

(** [GLM::ttest] on the whole of [y], with [SX] and [pinvSX] as the
    identity permutation leaves them. *)
Lemma ttest_least_squares (SX pinvSX : matrix) :
  same_matrix SX (X t) -> same_matrix pinvSX (pinvX t) ->
  exists tvalues betas residuals,
    ttest Qsqrt (transpose SX) (transpose pinvSX)
          (Matrix (rows (y t)) (cols (y t)) (fun i j => coeff (y t) (0 + i) (0 + j)))
          (scaled_contrasts t)
    = Ok (tvalues, betas, residuals) /\
    rows tvalues = rows (y t) /\ cols tvalues = cols (scaled_contrasts t) /\
    forall i, i < rows (y t) ->
      (if isfinite (coeff tvalues i 0) then coeff tvalues i 0 else Fin 0) =
      least_squares_tvalue Qsqrt (X t) (pinvX t) (scaled_contrasts t) (y t) i.
Proof.
  intros (R1 & C1 & H1) (R2 & C2 & H2).
  unfold ttest, mul, sub. cbn [rows cols coeff transpose].
  rewrite C2, pinvX_cols, y_cols, Nat.eqb_refl. cbn [bind require].
  rewrite R2, pinvX_rows, C1, Nat.eqb_refl. cbn [bind require rows cols coeff].
  rewrite R1, !Nat.eqb_refl. cbn [bind require andb rows cols coeff].
  rewrite contrast_rows, Nat.eqb_refl. cbn [bind require rows cols coeff].
  match goal with
  | |- context [foldM ?f (seq 0 _) ?tv0] =>
      match f with
      | context [row_norm Qsqrt ?res] =>
          destruct (@divide_by_norms res tv0 eq_refl) as (tv & E & Rt & Ct & Ht)
      end
  end.
  cbn [rows cols coeff] in E, Rt, Ct, Ht. rewrite E. cbn [bind].
  eexists _, _, _. split; [reflexivity|]. repeat split; auto.
  intros i Hi. unfold least_squares_tvalue. rewrite (Ht i 0 Hi), y_cols.
  assert (B : forall j, j < cols (X t) ->
    sum_upto (rows (X t)) (fun k => coeff (y t) i k * coeff pinvSX j k)%V =
    sum_upto (rows (X t)) (fun s => coeff (y t) i s * coeff (pinvX t) j s)%V).
  { intros j Hj. apply sum_upto_ext. intros k Hk. rewrite H2; auto; lia. }
  assert (N : sum_upto (cols (X t))
                (fun k => sum_upto (rows (X t))
                            (fun k0 => coeff (y t) i k0 * coeff pinvSX k k0)
                          * coeff (scaled_contrasts t) k 0)%V =
              sum_upto (cols (X t))
                (fun j => sum_upto (rows (X t))
                            (fun s => coeff (y t) i s * coeff (pinvX t) j s)
                          * coeff (scaled_contrasts t) j 0)%V).
  { apply sum_upto_ext. intros j Hj. now rewrite B. }
  assert (D : sum_upto (rows (X t))
                (fun k =>
                   (coeff (y t) i k -
                    sum_upto (cols (X t))
                      (fun k0 => sum_upto (rows (X t))
                                   (fun k1 => coeff (y t) i k1 * coeff pinvSX k0 k1)
                                 * coeff SX k k0))
                   * (coeff (y t) i k -
                      sum_upto (cols (X t))
                        (fun k0 => sum_upto (rows (X t))
                                     (fun k1 => coeff (y t) i k1 * coeff pinvSX k0 k1)
                                   * coeff SX k k0)))%V =
              sum_upto (rows (X t))
                (fun s =>
                   (coeff (y t) i s -
                    sum_upto (cols (X t))
                      (fun j => sum_upto (rows (X t))
                                  (fun s0 => coeff (y t) i s0 * coeff (pinvX t) j s0)
                                * coeff (X t) s j))
                   * (coeff (y t) i s -
                      sum_upto (cols (X t))
                        (fun j => sum_upto (rows (X t))
                                    (fun s0 => coeff (y t) i s0 * coeff (pinvX t) j s0)
                                  * coeff (X t) s j)))%V).
  { apply sum_upto_ext. intros s Hs.
    assert (F : sum_upto (cols (X t))
                  (fun k0 => sum_upto (rows (X t))
                               (fun k1 => coeff (y t) i k1 * coeff pinvSX k0 k1)
                             * coeff SX s k0)%V =
                sum_upto (cols (X t))
                  (fun j => sum_upto (rows (X t))
                              (fun s0 => coeff (y t) i s0 * coeff (pinvX t) j s0)
                            * coeff (X t) s j)%V).
    { apply sum_upto_ext. intros j Hj. rewrite B by assumption.
      rewrite H1; auto; lia. }
    now rewrite F. }
  cbn [Nat.add]. rewrite N, D. reflexivity.
Qed.

(** X1 (the part of C2 that holds).  For at most [GLM_BATCH_SIZE] fixels
    and the identity permutation, [operator()] returns and the t-value of
    every fixel is the one of the direct least-squares computation:
    [beta = y_row . pinv(X)], [residual = y_row - beta . X],
    [t = (beta . scaled_c) / ||residual||], a non-finite [t] replaced by 0. *)
Theorem call_identity_least_squares (stats0 : list value) (max_stat0 min_stat0 : value) :
  rows (y t) <= GLM_BATCH_SIZE ->
  exists out,
    call Qsqrt t (seq 0 (rows (X t))) stats0 max_stat0 min_stat0 = Ok out /\
    stats out =
    map (least_squares_tvalue Qsqrt (X t) (pinvX t) (scaled_contrasts t) (y t))
        (seq 0 (rows (y t))).
Proof.
  intros H. unfold call.
  destruct identity_permutation as (SX & pinvSX & E & S1 & S2).
  rewrite E. cbn [bind].
  destruct (Nat.eq_0_gt_0_cases (rows (y t))) as [Z|P].
  - rewrite Z, batch_starts_none. simpl. eexists. split; [reflexivity|].
    reflexivity.
  - rewrite batch_starts_one by lia. cbn [foldM].
    unfold block.
    replace ((0 + Nat.min (0 + GLM_BATCH_SIZE) (rows (y t)) <=? rows (y t))
             && (0 + cols (y t) <=? cols (y t))) with true
      by (symmetry; apply andb_true_iff; split; apply Nat.leb_le; lia).
    cbn [bind require].
    replace (Nat.min (0 + GLM_BATCH_SIZE) (rows (y t))) with (rows (y t)) by lia.
    destruct (ttest_least_squares S1 S2) as (tv & b & r & Et & Rt & Ct & Ht).
    rewrite Et. cbn [bind].
    destruct (@record_first_batch tv
                {| stats := vector_resize stats0 (rows (y t)) (Fin 0);
                   max_stat := max_stat0; min_stat := min_stat0 |})
      as (out & Eo & Ho).
    + lia.
    + cbn [stats]. now rewrite vector_resize_length.
    + rewrite Eo. exists out. split; [reflexivity|].
      rewrite Ho, Rt. apply map_ext_in. intros i Hi.
      apply in_seq in Hi. apply Ht. lia.
Qed.

End OneBatch.

Lemma call_identity_least_squares_witness :
  exists out,
    GLM.call Instances.Qsqrt
      {| GLM.y := three_fixels; GLM.X := two_groups;
         GLM.pinvX := Instances.pinv two_groups;
         GLM.scaled_contrasts := group_difference_column |}
      (seq 0 4) [] (Fin 0) (Fin 0) = Ok out /\
    GLM.stats out =
    map (GLM.least_squares_tvalue Instances.Qsqrt two_groups (Instances.pinv two_groups)
           group_difference_column three_fixels)
        (seq 0 3).
Proof.
  apply (@call_identity_least_squares Instances.Qsqrt
           {| GLM.y := three_fixels; GLM.X := two_groups;
              GLM.pinvX := Instances.pinv two_groups;
              GLM.scaled_contrasts := group_difference_column |}
           eq_refl eq_refl eq_refl eq_refl (Nat.lt_0_succ 0) [] (Fin 0) (Fin 0)).
  unfold GLM.GLM_BATCH_SIZE. simpl. lia.
Defined.

(** ** Duplicate permutations *)

Section Duplicates.

Import Permute Spec.

Lemma at_index_app {A : Type} (pre rest : list A) :
  at_index (pre ++ rest) (length pre) =
  match rest with [] => Undefined | y :: _ => Ok y end.
Proof.
  unfold at_index. rewrite nth_error_app2, Nat.sub_diag by lia.
  destruct rest; reflexivity.
Qed.

(** The loop over the indices compares the two vectors entry by entry. *)
Lemma is_duplicate_vector_from_prefix (v1 pre rest : list nat) :
  is_duplicate_vector_from (length pre) v1 (pre ++ rest) = compare_prefix v1 rest.
Proof.
  revert pre rest. induction v1 as [|x v1 IH]; intros pre rest; simpl.
  - reflexivity.
  - rewrite at_index_app. destruct rest as [|y rest]; simpl; [reflexivity|].
    destruct (x =? y); simpl; [|reflexivity].
    replace (pre ++ y :: rest) with ((pre ++ [y]) ++ rest)
      by (now rewrite <- app_assoc).
    replace (S (length pre)) with (length (pre ++ [y]))
      by (rewrite length_app; simpl; lia).
    apply IH.
Qed.

Lemma is_duplicate_vector_prefix (v1 v2 : list nat) :
  is_duplicate_vector v1 v2 = compare_prefix v1 v2.
Proof. apply (is_duplicate_vector_from_prefix v1 [] v2). Qed.

Lemma compare_prefix_true (v1 v2 : list nat) :
  compare_prefix v1 v2 = Ok true <-> v1 = firstn (length v1) v2.
Proof.
  revert v2. induction v1 as [|x v1 IH]; intros v2; simpl.
  - tauto.
  - destruct v2 as [|y v2]; simpl; [split; discriminate|].
    destruct (x =? y) eqn:E; simpl.
    + apply Nat.eqb_eq in E. subst y. rewrite IH. split; congruence.
    + apply Nat.eqb_neq in E. split; [discriminate|]. intros H. inversion H. lia.
Qed.

Lemma compare_prefix_undefined (v1 v2 : list nat) :
  compare_prefix v1 v2 = Undefined <->
  length v2 < length v1 /\ v2 = firstn (length v2) v1.
Proof.
  revert v2. induction v1 as [|x v1 IH]; intros v2; simpl.
  - split; [discriminate|]. intros [H _]. lia.
  - destruct v2 as [|y v2]; simpl.
    + split; auto. intros _. split; [lia|reflexivity].
    + destruct (x =? y) eqn:E; simpl.
      * apply Nat.eqb_eq in E. subst y. rewrite IH.
        split; intros [H1 H2]; (split; [lia|congruence]).
      * apply Nat.eqb_neq in E. split; [discriminate|].
        intros [_ H]. inversion H. lia.
Qed.

Lemma compare_prefix_no_throw (v1 v2 : list nat) : throws (compare_prefix v1 v2) = false.
Proof.
  revert v2. induction v1 as [|x v1 IH]; intros v2; simpl; [reflexivity|].
  destruct v2 as [|y v2]; [reflexivity|]. destruct (x =? y); simpl; auto.
Qed.

(** X2.  [is_duplicate_vector (v1, v2)] returns true exactly when [v1] is
    the start of [v2]: equal vectors, but also an empty [v1] against any
    [v2].  It reads [v2] beyond its end exactly when [v2] is shorter than
    [v1] and is the start of it; in every other case it returns false. *)
Theorem is_duplicate_vector_is_prefix (v1 v2 : list nat) :
  (is_duplicate_vector v1 v2 = Ok true <-> v1 = firstn (length v1) v2) /\
  (is_duplicate_vector v1 v2 = Undefined <->
   length v2 < length v1 /\ v2 = firstn (length v2) v1) /\
  throws (is_duplicate_vector v1 v2) = false.
Proof.
  rewrite is_duplicate_vector_prefix.
  auto using compare_prefix_true, compare_prefix_undefined, compare_prefix_no_throw.
Qed.

Lemma compare_same_length (v1 v2 : list nat) :
  length v1 = length v2 ->
  exists b, compare_prefix v1 v2 = Ok b /\ (b = true <-> v1 = v2).
Proof.
  intros L. destruct (compare_prefix v1 v2) as [b| |] eqn:E.
  - exists b. split; [reflexivity|]. destruct b.
    + apply compare_prefix_true in E. rewrite L, firstn_all in E. tauto.
    + split; [discriminate|]. intros ->.
      assert (compare_prefix v2 v2 = Ok true)
        by (apply compare_prefix_true; now rewrite firstn_all).
      congruence.
  - pose proof (compare_prefix_no_throw v1 v2) as T. rewrite E in T. discriminate.
  - apply compare_prefix_undefined in E. lia.
Qed.

(** X3.  Among previous permutations of the same length as [perm],
    [is_duplicate_permutation] returns, and returns true exactly when
    [perm] is one of them. *)
Theorem is_duplicate_permutation_iff_In
    (perm : list nat) (previous_permutations : list (list nat)) :
  Forall (fun previous => length previous = length perm) previous_permutations ->
  exists duplicate,
    is_duplicate_permutation perm previous_permutations = Ok duplicate /\
    (duplicate = true <-> In perm previous_permutations).
Proof.
  induction previous_permutations as [|previous rest IH]; intros F; simpl.
  - exists false. split; [reflexivity|]. split; [discriminate|tauto].
  - inversion F as [|? ? L F']; subst.
    rewrite is_duplicate_vector_prefix.
    destruct (@compare_same_length perm previous (eq_sym L)) as (b & E & Hb).
    rewrite E. simpl. destruct b.
    + exists true. split; [reflexivity|]. split; [|reflexivity].
      intros _. left. symmetry. now apply Hb.
    + destruct (IH F') as (d & Ed & Hd). exists d. split; [exact Ed|].
      rewrite Hd. split; [tauto|]. intros [H|H]; [|exact H].
      symmetry in H. apply Hb in H. discriminate.
Qed.

End Duplicates.

Lemma is_duplicate_permutation_iff_In_witness :
  exists duplicate,
    Permute.is_duplicate_permutation [2; 0; 1] [[0; 1; 2]; [2; 0; 1]; [1; 0; 2]]
    = Ok duplicate /\
    (duplicate = true <-> In [2; 0; 1] [[0; 1; 2]; [2; 0; 1]; [1; 0; 2]]).
Proof.
  apply is_duplicate_permutation_iff_In. repeat constructor.
Defined.

(** ** The rank from the singular values *)

Section Rank.

Import Permute.

Variable singular_value : matrix -> nat -> Q.

Lemma rank_from_range (M : matrix) (N n todo : nat) :
  n + todo = N -> 0 < N -> 1 <= rank_from singular_value M N n todo <= N.
Proof.
  revert n. induction todo as [|todo IH]; intros n E P; simpl; [lia|].
  destruct (Qltb _ _); [lia|]. apply IH; lia.
Qed.

Lemma rank_from_first_small (M : matrix) (N k n todo : nat) :
  n <= k < n + todo ->
  (forall i, n <= i < k -> (singular_tolerance <= singular_value M i)%Q) ->
  (singular_value M k < singular_tolerance)%Q ->
  rank_from singular_value M N n todo = k + 1.
Proof.
  revert n. induction todo as [|todo IH]; intros n R Hbig Hsmall; simpl; [lia|].
  destruct (Nat.eq_dec n k) as [->|Hn].
  - apply Qltb_lt in Hsmall. now rewrite Hsmall.
  - replace (Qltb (singular_value M n) singular_tolerance) with false
      by (symmetry; apply Qltb_ge; apply Hbig; lia).
    apply IH; auto; try lia. intros i Hi. apply Hbig. lia.
Qed.

Lemma rank_from_none_small (M : matrix) (N n todo : nat) :
  (forall i, n <= i < n + todo -> (singular_tolerance <= singular_value M i)%Q) ->
  rank_from singular_value M N n todo = N.
Proof.
  revert n. induction todo as [|todo IH]; intros n Hbig; simpl; [reflexivity|].
  replace (Qltb (singular_value M n) singular_tolerance) with false
    by (symmetry; apply Qltb_ge; apply Hbig; lia).
  apply IH. intros i Hi. apply Hbig. lia.
Qed.

(** X4.  With [N] the smaller size of the matrix, [rank] returns a number
    from 1 to [N] (0 only when [N] is 0); it is [N] when no singular value
    is below the tolerance, and [k + 1] when [S[k]] is the first singular
    value below the tolerance: one more than the number of singular values
    that count. *)
Theorem rank_counts_first_small_value (M : matrix) :
  (Nat.min (rows M) (cols M) = 0 -> rank singular_value M = 0) /\
  (0 < Nat.min (rows M) (cols M) ->
   1 <= rank singular_value M <= Nat.min (rows M) (cols M)) /\
  ((forall i, i < Nat.min (rows M) (cols M) ->
      (singular_tolerance <= singular_value M i)%Q) ->
   rank singular_value M = Nat.min (rows M) (cols M)) /\
  (forall k, k < Nat.min (rows M) (cols M) ->
     (forall i, i < k -> (singular_tolerance <= singular_value M i)%Q) ->
     (singular_value M k < singular_tolerance)%Q ->
     rank singular_value M = k + 1).
Proof.
  unfold rank. repeat split.
  - intros ->. reflexivity.
  - apply rank_from_range; auto.
  - apply rank_from_range; auto.
  - intros H. apply rank_from_none_small. intros i Hi. apply H. lia.
  - intros k Hk Hbig Hsmall. apply rank_from_first_small; auto; try lia.
    intros i Hi. apply Hbig. lia.
Qed.

End Rank.

(** ** The source of fixel indices *)

Section SourceOfIndices.

Import FixelCFE.

Lemma Source_calls_from (N c n : nat) :
  Source_calls n {| num_fixels := N; counter := c |} =
  map (fun k => (k, k + 1 <? N)) (seq c n).
Proof.
  revert c. induction n as [|n IH]; intros c; simpl; [reflexivity|].
  unfold Source_call. simpl.
  destruct (N <=? c + 1) eqn:E.
  - apply Nat.leb_le in E.
    replace (c + 1 <? N) with false by (symmetry; apply Nat.ltb_ge; lia).
    f_equal. rewrite IH. now replace (c + 1) with (S c) by lia.
  - apply Nat.leb_gt in E.
    replace (c + 1 <? N) with true by (symmetry; apply Nat.ltb_lt; lia).
    f_equal. rewrite IH. now replace (c + 1) with (S c) by lia.
Qed.

Lemma handed_out (N n : nat) :
  map fst (filter snd (map (fun k => (k, k + 1 <? N)) (seq 0 n))) =
  seq 0 (Nat.min n (N - 1)).
Proof.
  induction n as [|n IH]; [reflexivity|].
  rewrite seq_S, map_app, filter_app, map_app, IH.
  assert (T : map fst (filter snd (map (fun k => (k, k + 1 <? N)) [0 + n])) =
              if n + 1 <? N then [n] else [])
    by (simpl; destruct (n + 1 <? N); reflexivity).
  rewrite T. destruct (n + 1 <? N) eqn:E.
  - apply Nat.ltb_lt in E.
    replace (Nat.min (S n) (N - 1)) with (S (Nat.min n (N - 1))) by lia.
    rewrite seq_S. f_equal. f_equal. lia.
  - apply Nat.ltb_ge in E. rewrite app_nil_r. f_equal. lia.
Qed.

(** X5.  The [k]-th call of the source (counted from 0) writes the index
    [k] and returns true exactly when [k + 1 < num_fixels]: the indices
    handed out with true are 0, ..., [num_fixels - 2], and the index
    [num_fixels - 1] comes with false, as every later one. *)
Theorem Source_stops_before_last_fixel (num_fixels n : nat) :
  Source_calls n (Source_new num_fixels) =
    map (fun k => (k, k + 1 <? num_fixels)) (seq 0 n) /\
  map fst (filter snd (Source_calls n (Source_new num_fixels))) =
    seq 0 (Nat.min n (num_fixels - 1)).
Proof.
  unfold Source_new. rewrite Source_calls_from. split; [reflexivity|].
  apply handed_out.
Qed.

(** ** The dimensions of a subject's image *)

(** X6.  The constructor of [SubjectFixelImport] accepts an image exactly
    when every axis after the first has size 1 at most, whatever the size
    along the first axis, and throws "does not contain fixel data"
    otherwise. *)
Theorem SubjectFixelImport_accepts_one_axis (path : string) (sizes : list nat) :
  (SubjectFixelImport_new path sizes = Ok tt <->
   Forall (fun size => size <= 1) (tl sizes)) /\
  (SubjectFixelImport_new path sizes = Ok tt \/
   SubjectFixelImport_new path sizes = Thrown (not_fixel_data path)).
Proof.
  unfold SubjectFixelImport_new. generalize (tl sizes). intros axes.
  induction axes as [|size axes [IH1 IH2]]; simpl.
  - split; [split; auto|now left].
  - destruct (1 <? size) eqn:E.
    + apply Nat.ltb_lt in E. split; [|now right].
      split; [discriminate|]. intros F. inversion F; subst. lia.
    + apply Nat.ltb_ge in E. split; [|exact IH2].
      rewrite IH1. split; [now constructor|]. intros F. now inversion F.
Qed.

End SourceOfIndices.

(** ** The checks of [run] on its inputs *)

Section CheckInputs.

Import FixelCFE.






End CheckInputs.

(** ** [operator()] under a permutation of the subjects *)

(** A loop over [0, ..., n-1] that returned has passed its invariant from
    turn to turn. *)
Lemma foldM_seq_Ok {St : Type} (Inv : nat -> St -> Prop)
    (body : St -> nat -> outcome St) (n : nat) (s0 r : St) :
  Inv 0 s0 ->
  (forall k s s', k < n -> Inv k s -> body s k = Ok s' -> Inv (S k) s') ->
  foldM body (seq 0 n) s0 = Ok r -> Inv n r.
Proof.
  revert r. induction n as [|n IH]; intros r H0 Hstep E.
  - simpl in E. inversion E; subst. exact H0.
  - rewrite seq_S, foldM_app in E. apply bind_Ok in E.
    destruct E as (s & E1 & E2). simpl in E2.
    apply bind_Ok in E2. destruct E2 as (s' & E2 & E3). inversion E3; subst.
    apply (Hstep n s); [lia| |exact E2].
    apply IH; [exact H0| |exact E1].
    intros k s1 s2 Hk. apply Hstep. lia.
Qed.

Lemma vector_get_Ok {A : Type} (v : list A) (i : nat) (a d : A) :
  GLM.vector_get v i = Ok a -> i < length v /\ nth i v d = a.
Proof.
  unfold GLM.vector_get. destruct (nth_error v i) as [a'|] eqn:E; [|discriminate].
  intros E'. inversion E'; subst. split.
  - apply nth_error_Some. congruence.
  - now apply nth_error_nth.
Qed.

Lemma vector_get_nth {A : Type} (v : list A) (i : nat) (d : A) :
  i < length v -> GLM.vector_get v i = Ok (nth i v d).
Proof.
  intros H. unfold GLM.vector_get. now rewrite (nth_error_nth' _ d).
Qed.

Section PermutedCall.

Import GLM Spec.

Variable Qsqrt : Q -> Q.
Variable t : GLMTTest.
Variable perm_labelling : list nat.

Local Abbreviation shuffle :=
  (foldM (fun '(SX, pinvSX) i =>
            let* p := vector_get perm_labelling i in
            let* SX := assign_row SX i (X t) p in
            let* pinvSX := assign_col pinvSX i (pinvX t) p in
            Ok (SX, pinvSX))
         (seq 0 (rows (X t)))
         (fresh (rows (X t)) (cols (X t)), fresh (rows (pinvX t)) (cols (pinvX t)))).

(** The loop over the subjects returns only when every label it reads is
    there and is the index of a row of the design. *)
Lemma labels_in_range (r : matrix * matrix) :
  shuffle = Ok r ->
  rows (X t) <= length perm_labelling /\
  forall i, i < rows (X t) -> nth i perm_labelling 0 < rows (X t).
Proof.
  intros E.
  apply (foldM_invariant (fun _ => True)
           (fun i => i < length perm_labelling /\
                     nth i perm_labelling 0 < rows (X t))) in E; auto.
  - destruct E as [_ F]. rewrite Forall_forall in F. split.
    + destruct (rows (X t)) as [|n] eqn:R; [lia|].
      assert (In n (seq 0 (S n))) as I by (apply in_seq; lia).
      apply F in I. lia.
    + intros i Hi. apply F, in_seq. lia.
  - intros [SX pinvSX] i s' _ _ B. split; [exact I|].
    apply bind_Ok in B. destruct B as (p & G & B).
    apply (vector_get_Ok _ _ 0) in G. destruct G as [L N].
    apply bind_Ok in B. destruct B as (SX' & A & _).
    unfold assign_row in A. apply bind_Ok in A. destruct A as ([] & A & _).
    unfold require in A.
    destruct ((i <? rows SX) && (p <? rows (X t)) && (cols SX =? cols (X t))) eqn:C;
      [|discriminate].
    apply andb_true_iff in C. destruct C as [C _].
    apply andb_true_iff in C. destruct C as [_ C]. apply Nat.ltb_lt in C.
    split; [exact L|]. now rewrite N.
Qed.

Hypothesis pinvX_cols : cols (pinvX t) = rows (X t).

(** With labels in range, row [i] of [SX] is row [perm_labelling[i]] of
    [X], and column [i] of [pinvSX] is column [perm_labelling[i]] of
    [pinvX]. *)
Lemma labelled_permutation :
  rows (X t) <= length perm_labelling ->
  (forall i, i < rows (X t) -> nth i perm_labelling 0 < rows (X t)) ->
  exists SX pinvSX,
    shuffle = Ok (SX, pinvSX) /\
    same_matrix SX (permuted_rows (X t) perm_labelling) /\
    same_matrix pinvSX (permuted_cols (pinvX t) perm_labelling).
Proof.
  intros L N.
  destruct (@foldM_seq_total _
    (fun k '(SX, pinvSX) =>
       rows SX = rows (X t) /\ cols SX = cols (X t) /\
       rows pinvSX = rows (pinvX t) /\ cols pinvSX = cols (pinvX t) /\
       (forall i j, i < k -> coeff SX i j = coeff (X t) (nth i perm_labelling 0) j) /\
       (forall r i, i < k ->
          coeff pinvSX r i = coeff (pinvX t) r (nth i perm_labelling 0)))
    (fun '(SX, pinvSX) i =>
       let* p := vector_get perm_labelling i in
       let* SX := assign_row SX i (X t) p in
       let* pinvSX := assign_col pinvSX i (pinvX t) p in
       Ok (SX, pinvSX))
    (rows (X t))
    (fresh (rows (X t)) (cols (X t)), fresh (rows (pinvX t)) (cols (pinvX t))))
    as ([SX pinvSX] & E & I).
  - simpl. repeat split; auto; intros; lia.
  - intros k [SX pinvSX] Hk (R1 & C1 & R2 & C2 & H1 & H2).
    rewrite (vector_get_nth _ 0) by lia. cbn [bind].
    unfold assign_row, assign_col. rewrite R1, C1.
    cbn [bind require rows cols]. rewrite C2, R2, pinvX_cols.
    replace (k <? rows (X t)) with true by (symmetry; now apply Nat.ltb_lt).
    replace (nth k perm_labelling 0 <? rows (X t)) with true
      by (symmetry; apply Nat.ltb_lt; auto).
    rewrite !Nat.eqb_refl. cbn [andb bind require rows cols].
    eexists. split; [reflexivity|]. simpl. repeat split; auto.
    + intros i j Hi. destruct (i =? k) eqn:K.
      * apply Nat.eqb_eq in K. now subst.
      * apply Nat.eqb_neq in K. apply H1. lia.
    + intros r i Hi. destruct (i =? k) eqn:K.
      * apply Nat.eqb_eq in K. now subst.
      * apply Nat.eqb_neq in K. apply H2. lia.
  - destruct I as (R1 & C1 & R2 & C2 & H1 & H2).
    exists SX, pinvSX. split; [exact E|]. split.
    + repeat split; auto. intros i j Hi _. apply H1. lia.
    + repeat split; auto. intros r i _ Hi. apply H2. lia.
Qed.

(** The sizes fit: [y] is N x S, [X] is S x P, [pinvX] is P x S and the
    scaled contrasts are a column of P coefficients (or several). *)
Hypothesis y_cols : cols (y t) = rows (X t).
Hypothesis pinvX_rows : rows (pinvX t) = cols (X t).
Hypothesis contrast_rows : rows (scaled_contrasts t) = cols (X t).
Hypothesis contrast_cols : 0 < cols (scaled_contrasts t).

(** The loop over the batches, for at most one batch, with [SX] and
    [pinvSX] as the loop over the subjects leaves them. *)
Lemma one_batch_shuffled (SX pinvSX : matrix)
    (stats0 : list value) (max_stat0 min_stat0 : value) :
  rows (y t) <= GLM_BATCH_SIZE ->
  same_matrix SX (permuted_rows (X t) perm_labelling) ->
  same_matrix pinvSX (permuted_cols (pinvX t) perm_labelling) ->
  exists out,
    foldM (fun out i =>
             let* tmp := block (y t) i 0
                           (Nat.min (i + GLM_BATCH_SIZE) (rows (y t)))
                           (cols (y t)) in
             let* (tvalues, _, _) :=
               ttest Qsqrt (transpose SX) (transpose pinvSX) tmp (scaled_contrasts t) in
             foldM (record_tvalue i tvalues) (seq 0 (rows tvalues)) out)
          (batch_starts (rows (y t)))
          {| stats := vector_resize stats0 (rows (y t)) (Fin 0);
             max_stat := max_stat0; min_stat := min_stat0 |} = Ok out /\
    stats out =
    map (least_squares_tvalue Qsqrt
           (permuted_rows (X t) perm_labelling)
           (permuted_cols (pinvX t) perm_labelling)
           (scaled_contrasts t) (y t))
        (seq 0 (rows (y t))).
Proof.
  intros H S1 S2.
  destruct (Nat.eq_0_gt_0_cases (rows (y t))) as [Z|P].
  - rewrite Z, batch_starts_none. simpl. eexists. split; reflexivity.
  - rewrite batch_starts_one by lia. cbn [foldM].
    unfold block.
    replace ((0 + Nat.min (0 + GLM_BATCH_SIZE) (rows (y t)) <=? rows (y t))
             && (0 + cols (y t) <=? cols (y t))) with true
      by (symmetry; apply andb_true_iff; split; apply Nat.leb_le; lia).
    cbn [bind require].
    replace (Nat.min (0 + GLM_BATCH_SIZE) (rows (y t))) with (rows (y t)) by lia.
    pose (shuffled := {| y := y t;
                         X := permuted_rows (X t) perm_labelling;
                         pinvX := permuted_cols (pinvX t) perm_labelling;
                         scaled_contrasts := scaled_contrasts t |}).
    destruct (@ttest_least_squares Qsqrt shuffled
                y_cols pinvX_cols pinvX_rows contrast_rows contrast_cols
                SX pinvSX S1 S2) as (tv & b & r & Et & Rt & Ct & Ht).
    cbn [shuffled y X pinvX scaled_contrasts] in Et, Rt, Ct, Ht.
    rewrite Et. cbn [bind].
    destruct (@record_first_batch shuffled
                y_cols pinvX_cols pinvX_rows contrast_rows contrast_cols tv
                {| stats := vector_resize stats0 (rows (y t)) (Fin 0);
                   max_stat := max_stat0; min_stat := min_stat0 |})
      as (out & Eo & Ho).
    + lia.
    + cbn [stats]. now rewrite vector_resize_length.
    + rewrite Eo. exists out. split; [reflexivity|].
      rewrite Ho, Rt. apply map_ext_in. intros i Hi.
      apply in_seq in Hi. apply Ht. lia.
Qed.

(** X8.  Under a labelling of the subjects with labels in range (a
    permutation or not) and for at most [GLM_BATCH_SIZE] fixels,
    [operator()] returns and the t-value of every fixel is the one of the
    direct least-squares computation on the shuffled design: row [i] of the
    design is row [perm_labelling[i]] of [X] and column [i] of its
    pseudo-inverse is column [perm_labelling[i]] of [pinvX]; the data and
    the contrast are not shuffled. *)
Theorem call_permuted_least_squares (stats0 : list value) (max_stat0 min_stat0 : value) :
  rows (y t) <= GLM_BATCH_SIZE ->
  rows (X t) <= length perm_labelling ->
  (forall i, i < rows (X t) -> nth i perm_labelling 0 < rows (X t)) ->
  exists out,
    call Qsqrt t perm_labelling stats0 max_stat0 min_stat0 = Ok out /\
    stats out =
    map (least_squares_tvalue Qsqrt
           (permuted_rows (X t) perm_labelling)
           (permuted_cols (pinvX t) perm_labelling)
           (scaled_contrasts t) (y t))
        (seq 0 (rows (y t))).
Proof.
  intros H L N. unfold call.
  destruct (labelled_permutation L N) as (SX & pinvSX & E & S1 & S2).
  rewrite E. cbn [bind].
  now apply one_batch_shuffled.
Qed.

End PermutedCall.

(** ** What a call that returned has written *)

Lemma require_Ok (b : bool) (u : unit) : require b = Ok u -> b = true.
Proof. destruct b; [reflexivity|discriminate]. Qed.

Lemma mul_Ok (a b m : matrix) :
  mul a b = Ok m -> rows m = rows a /\ cols m = cols b.
Proof.
  unfold mul. intros E. apply bind_Ok in E. destruct E as (u & _ & E).
  inversion E; subst. auto.
Qed.

Lemma div_row_Ok (m m' : matrix) (n : nat) (s : value) :
  div_row m n s = Ok m' -> rows m' = rows m /\ cols m' = cols m.
Proof.
  unfold div_row. intros E. apply bind_Ok in E. destruct E as (u & _ & E).
  inversion E; subst. auto.
Qed.

Lemma block_Ok (m b : matrix) (startRow startCol blockRows blockCols : nat) :
  block m startRow startCol blockRows blockCols = Ok b ->
  rows b = blockRows /\ cols b = blockCols.
Proof.
  unfold block. intros E. apply bind_Ok in E. destruct E as (u & _ & E).
  inversion E; subst. auto.
Qed.

(** The order on the values, as far as the extremes need it. *)
Lemma vlt_irrefl (v : value) : (v <? v)%V = false.
Proof.
  unfold vlt. destruct v as [q|s|]; auto.
  - apply Qltb_ge. apply Qle_refl.
  - now destruct s.
Qed.

Lemma not_below_trans (v val m : value) :
  isfinite val = true ->
  (v <? m)%V = false -> (val <? m)%V = true -> (v <? val)%V = false.
Proof.
  unfold vlt. destruct val as [b| |]; try discriminate. intros _.
  destruct v as [a|s|], m as [q|s'|]; try discriminate; auto.
  - intros H1 H2. apply Qltb_ge in H1. apply Qltb_lt in H2. apply Qltb_ge.
    apply Qlt_le_weak. eapply Qlt_le_trans; eauto.
  - intros H1 H2. congruence.
  - intros H1 H2. destruct s, s'; simpl in *; congruence.
Qed.

Lemma not_above_trans (v val m : value) :
  isfinite val = true ->
  (v >? m)%V = false -> (val >? m)%V = true -> (v >? val)%V = false.
Proof.
  unfold vgt, vlt. destruct val as [b| |]; try discriminate. intros _.
  destruct v as [a|s|], m as [q|s'|]; try discriminate; auto.
  - intros H1 H2. apply Qltb_ge in H1. apply Qltb_lt in H2. apply Qltb_ge.
    apply Qlt_le_weak. eapply Qle_lt_trans; eauto.
  - intros H1 H2. congruence.
  - intros H1 H2. destruct s, s'; simpl in *; congruence.
Qed.

Section Returned.

Import GLM Spec.

Variable Qsqrt : Q -> Q.

Lemma ttest_rows (design pinv_design measurements scaled tvalues betas residuals : matrix) :
  ttest Qsqrt design pinv_design measurements scaled = Ok (tvalues, betas, residuals) ->
  rows tvalues = rows measurements.
Proof.
  unfold ttest. intros E.
  apply bind_Ok in E. destruct E as (b & Eb & E). apply mul_Ok in Eb.
  apply bind_Ok in E. destruct E as (f & _ & E).
  apply bind_Ok in E. destruct E as (r & _ & E).
  apply bind_Ok in E. destruct E as (tv0 & Et & E). apply mul_Ok in Et.
  apply bind_Ok in E. destruct E as (tv & El & E). inversion E; subst.
  apply (foldM_invariant (fun s => rows s = rows tv0) (fun _ => True)) in El; auto.
  - destruct El as [El _]. destruct Eb, Et. congruence.
  - intros s n s' _ Hs B. split; [|exact I].
    apply bind_Ok in B. destruct B as (norm & _ & B).
    apply div_row_Ok in B. destruct B. congruence.
Qed.

(** The t-value recorded for row [n]. *)
Local Abbreviation recorded tvalues :=
  (fun n => if isfinite (coeff tvalues n 0) then coeff tvalues n 0 else Fin 0).

(** The loop that writes the t-values of the first batch, when it
    returned. *)
Lemma record_batch_Ok (tvalues : matrix) (out0 out : output) :
  length (stats out0) = rows tvalues ->
  foldM (record_tvalue 0 tvalues) (seq 0 (rows tvalues)) out0 = Ok out ->
  stats out = map (recorded tvalues) (seq 0 (rows tvalues)) /\
  (forall n, n < rows tvalues -> isfinite (coeff tvalues n 0) = true ->
     (coeff tvalues n 0 >? max_stat out)%V = false /\
     (coeff tvalues n 0 <? min_stat out)%V = false) /\
  (max_stat out = max_stat out0 \/
   exists n, n < rows tvalues /\ isfinite (coeff tvalues n 0) = true /\
             max_stat out = coeff tvalues n 0) /\
  (min_stat out = min_stat out0 \/
   exists n, n < rows tvalues /\ isfinite (coeff tvalues n 0) = true /\
             min_stat out = coeff tvalues n 0) /\
  (max_stat out0 >? max_stat out)%V = false /\
  (min_stat out0 <? min_stat out)%V = false.
Proof.
  intros L E.
  apply (@foldM_seq_Ok _
    (fun k out =>
       length (stats out) = rows tvalues /\
       firstn k (stats out) = map (recorded tvalues) (seq 0 k) /\
       (forall n, n < k -> isfinite (coeff tvalues n 0) = true ->
          (coeff tvalues n 0 >? max_stat out)%V = false /\
          (coeff tvalues n 0 <? min_stat out)%V = false) /\
       (max_stat out = max_stat out0 \/
        exists n, n < k /\ isfinite (coeff tvalues n 0) = true /\
                  max_stat out = coeff tvalues n 0) /\
       (min_stat out = min_stat out0 \/
        exists n, n < k /\ isfinite (coeff tvalues n 0) = true /\
                  min_stat out = coeff tvalues n 0) /\
       (max_stat out0 >? max_stat out)%V = false /\
       (min_stat out0 <? min_stat out)%V = false)) in E.
  - destruct E as (L' & F & B & A1 & A2 & M1 & M2).
    split; [|split; [exact B|repeat split; assumption]].
    rewrite <- F, <- L'. now rewrite firstn_all.
  - split; [exact L|]. split; [reflexivity|].
    split; [intros; lia|]. split; [now left|]. split; [now left|].
    split; [unfold vgt|]; apply vlt_irrefl.
  - clear E. intros k s s' Hk (Ls & Fs & Bs & A1 & A2 & M1 & M2) E.
    unfold record_tvalue in E. apply bind_Ok in E. destruct E as (val & G & E).
    unfold get in G. apply bind_Ok in G. destruct G as (u & _ & G).
    inversion G; subst val; clear G.
    destruct (@vector_set_firstn (stats s) k (recorded tvalues k))
      as (v' & Ev & Lv & Fv); [lia|].
    cbn [Nat.add] in E.
    destruct (isfinite (coeff tvalues k 0)) eqn:F; rewrite Ev in E;
      cbn [bind] in E; inversion E; subst s'; clear E; cbn [stats max_stat min_stat].
    + split; [lia|]. split; [rewrite Fv, Fs, seq_S, map_app; simpl; now rewrite F|].
      split; [|split; [|split; [|split]]].
      * intros n Hn Fn.
        destruct (Nat.eq_dec n k) as [->|Nk].
        -- split.
           ++ destruct (coeff tvalues k 0 >? max_stat s)%V eqn:C; [|exact C].
              unfold vgt. apply vlt_irrefl.
           ++ destruct (coeff tvalues k 0 <? min_stat s)%V eqn:C; [|exact C].
              apply vlt_irrefl.
        -- destruct (Bs n ltac:(lia) Fn) as [B1 B2]. split.
           ++ destruct (coeff tvalues k 0 >? max_stat s)%V eqn:C; [|exact B1].
              eapply not_above_trans; eauto.
           ++ destruct (coeff tvalues k 0 <? min_stat s)%V eqn:C; [|exact B2].
              eapply not_below_trans; eauto.
      * destruct (coeff tvalues k 0 >? max_stat s)%V.
        -- right. exists k. auto.
        -- destruct A1 as [A1|(n & Hn & Fn & A1)]; [now left|].
           right. exists n. repeat split; auto.
      * destruct (coeff tvalues k 0 <? min_stat s)%V.
        -- right. exists k. auto.
        -- destruct A2 as [A2|(n & Hn & Fn & A2)]; [now left|].
           right. exists n. repeat split; auto.
      * destruct (coeff tvalues k 0 >? max_stat s)%V eqn:C; [|exact M1].
        eapply not_above_trans; eauto.
      * destruct (coeff tvalues k 0 <? min_stat s)%V eqn:C; [|exact M2].
        eapply not_below_trans; eauto.
    + split; [lia|]. split; [rewrite Fv, Fs, seq_S, map_app; simpl; now rewrite F|].
      split; [|split; [|split; [|split; assumption]]].
      * intros n Hn Fn.
        destruct (Nat.eq_dec n k) as [->|Nk]; [congruence|].
        apply Bs; auto. lia.
      * destruct A1 as [A1|(n & Hn & Fn & A1)]; [now left|].
        right. exists n. repeat split; auto.
      * destruct A2 as [A2|(n & Hn & Fn & A2)]; [now left|].
        right. exists n. repeat split; auto.
Qed.

Variable t : GLMTTest.
Variable perm_labelling : list nat.
Variable stats0 : list value.
Variable max_stat0 min_stat0 : value.

(** A call that returned has shuffled the design, and then either had no
    row of data to work on or has recorded one batch of t-values, one for
    every row of the data. *)
Lemma call_Ok (out : output) :
  call Qsqrt t perm_labelling stats0 max_stat0 min_stat0 = Ok out ->
  (rows (X t) <= length perm_labelling /\
   forall i, i < rows (X t) -> nth i perm_labelling 0 < rows (X t)) /\
  (rows (y t) = 0 /\
   out = {| stats := []; max_stat := max_stat0; min_stat := min_stat0 |} \/
   exists tvalues,
     rows tvalues = rows (y t) /\
     foldM (record_tvalue 0 tvalues) (seq 0 (rows tvalues))
           {| stats := vector_resize stats0 (rows (y t)) (Fin 0);
              max_stat := max_stat0; min_stat := min_stat0 |} = Ok out).
Proof.
  unfold call. intros E. apply bind_Ok in E.
  destruct E as ([SX pinvSX] & E1 & E2).
  split; [exact (labels_in_range _ _ E1)|].
  destruct (Nat.eq_0_gt_0_cases (rows (y t))) as [Z|P].
  - left. split; [exact Z|]. rewrite Z, batch_starts_none in E2.
    simpl in E2. inversion E2. reflexivity.
  - right. destruct (Nat.le_gt_cases (rows (y t)) GLM_BATCH_SIZE) as [B|B].
    + rewrite batch_starts_one in E2 by lia. cbn [foldM] in E2.
      apply bind_Ok in E2. destruct E2 as (out' & E2 & E3).
      inversion E3; subst out'; clear E3.
      apply bind_Ok in E2. destruct E2 as (tmp & Eb & E2).
      apply block_Ok in Eb. destruct Eb as [Rb _].
      apply bind_Ok in E2. destruct E2 as ([[tv b] r] & Et & E2).
      apply ttest_rows in Et.
      exists tv. split; [lia|exact E2].
    + exfalso. destruct (batch_starts_last B) as (starts & last & S & L & R).
      rewrite S, foldM_app in E2. apply bind_Ok in E2.
      destruct E2 as (out' & _ & E2). simpl in E2.
      rewrite last_block_out_of_range in E2 by assumption. discriminate.
Qed.

(** X9.  [operator()] returns only when [perm_labelling] has a label for
    every subject (every row of the design) and each of these labels is
    the index of a subject: a shorter vector is read past its end, and a
    label out of range names a row that the design does not have. *)
Theorem call_needs_labels_in_range (out : output) :
  call Qsqrt t perm_labelling stats0 max_stat0 min_stat0 = Ok out ->
  rows (X t) <= length perm_labelling /\
  forall i, i < rows (X t) -> nth i perm_labelling 0 < rows (X t).
Proof.
  intros E. now apply call_Ok in E.
Qed.

(** X10.  After [operator()] has returned, [stats] holds one value for
    every row of the data, whatever it held before, and every value is
    finite (a t-value that is not finite is recorded as 0).  No recorded
    value other than 0 is greater than [max_stat] or smaller than
    [min_stat], and each of the two is the value the caller passed in or
    one of the recorded values: the extremes only move outwards, and the
    zeros that stand for t-values that are not finite do not move them. *)
Theorem call_stats_finite_within_extremes (out : output) :
  call Qsqrt t perm_labelling stats0 max_stat0 min_stat0 = Ok out ->
  length (stats out) = rows (y t) /\
  Forall (fun v => isfinite v = true) (stats out) /\
  (forall v, In v (stats out) -> ~ (v == Fin 0)%V ->
     (v >? max_stat out)%V = false /\ (v <? min_stat out)%V = false) /\
  (max_stat out = max_stat0 \/ In (max_stat out) (stats out)) /\
  (min_stat out = min_stat0 \/ In (min_stat out) (stats out)) /\
  (max_stat0 >? max_stat out)%V = false /\
  (min_stat0 <? min_stat out)%V = false.
Proof.
  intros E. apply call_Ok in E.
  destruct E as [_ [[Z ->]|(tv & R & E)]]; cbn [stats max_stat min_stat].
  - split; [now rewrite Z|]. split; [constructor|].
    split; [intros v []|]. split; [now left|]. split; [now left|].
    split; [unfold vgt|]; apply vlt_irrefl.
  - apply record_batch_Ok in E;
      [|cbn [stats]; now rewrite vector_resize_length].
    cbn [max_stat min_stat] in E. destruct E as (S & B & A1 & A2 & M).
    rewrite S. split; [now rewrite length_map, length_seq|].
    split; [|split; [|split; [|split; [|exact M]]]].
    + apply Forall_forall. intros v Hv. apply in_map_iff in Hv.
      destruct Hv as (n & <- & _).
      now destruct (isfinite (coeff tv n 0)) eqn:F.
    + intros v Hv NZ. apply in_map_iff in Hv. destruct Hv as (n & <- & Hn).
      apply in_seq in Hn.
      destruct (isfinite (coeff tv n 0)) eqn:F.
      * apply B; [lia|exact F].
      * exfalso. apply NZ. apply veq_refl.
    + destruct A1 as [A1|(n & Hn & F & A1)]; [now left|right].
      apply in_map_iff. exists n. rewrite F. split; [now rewrite A1|].
      apply in_seq. lia.
    + destruct A2 as [A2|(n & Hn & F & A2)]; [now left|right].
      apply in_map_iff. exists n. rewrite F. split; [now rewrite A2|].
      apply in_seq. lia.
Qed.

End Returned.

Lemma call_permuted_least_squares_witness :
  exists out,
    GLM.call Instances.Qsqrt
      {| GLM.y := three_fixels; GLM.X := two_groups;
         GLM.pinvX := Instances.pinv two_groups;
         GLM.scaled_contrasts := group_difference_column |}
      [2; 0; 3; 1] [] (Fin 0) (Fin 0) = Ok out /\
    GLM.stats out =
    map (GLM.least_squares_tvalue Instances.Qsqrt
           (Spec.permuted_rows two_groups [2; 0; 3; 1])
           (Spec.permuted_cols (Instances.pinv two_groups) [2; 0; 3; 1])
           group_difference_column three_fixels)
        (seq 0 3).
Proof.
  apply (@call_permuted_least_squares Instances.Qsqrt
           {| GLM.y := three_fixels; GLM.X := two_groups;
              GLM.pinvX := Instances.pinv two_groups;
              GLM.scaled_contrasts := group_difference_column |}
           [2; 0; 3; 1]
           eq_refl eq_refl eq_refl eq_refl (Nat.lt_0_succ 0) [] (Fin 0) (Fin 0)).
  - unfold GLM.GLM_BATCH_SIZE. simpl. lia.
  - simpl. lia.
  - intros i Hi. simpl in Hi.
    destruct i as [|[|[|[|i]]]]; simpl; lia.
Defined.

Lemma call_needs_labels_in_range_witness :
  exists out,
    GLM.call Instances.Qsqrt
      {| GLM.y := three_fixels; GLM.X := two_groups;
         GLM.pinvX := Instances.pinv two_groups;
         GLM.scaled_contrasts := group_difference_column |}
      [2; 0; 3; 1; 7] [Inf false] (Fin 0) (Fin 0) = Ok out /\
    4 <= 5 /\
    forall i, i < 4 -> nth i [2; 0; 3; 1; 7] 0 < 4.
Proof.
  assert (exists out,
    GLM.call Instances.Qsqrt
      {| GLM.y := three_fixels; GLM.X := two_groups;
         GLM.pinvX := Instances.pinv two_groups;
         GLM.scaled_contrasts := group_difference_column |}
      [2; 0; 3; 1; 7] [Inf false] (Fin 0) (Fin 0) = Ok out) as [out E]
    by (vm_compute; eexists; reflexivity).
  exists out. split; [exact E|].
  exact (@call_needs_labels_in_range Instances.Qsqrt _ _ _ _ _ out E).
Defined.

Lemma call_stats_finite_within_extremes_witness :
  exists out,
    GLM.call Instances.Qsqrt
      {| GLM.y := three_fixels; GLM.X := two_groups;
         GLM.pinvX := Instances.pinv two_groups;
         GLM.scaled_contrasts := group_difference_column |}
      [1; 0; 3; 2] [NaN; Inf false; NaN; NaN; NaN] (Fin 0) (Inf false) = Ok out /\
    length (GLM.stats out) = 3 /\
    Forall (fun v => isfinite v = true) (GLM.stats out) /\
    (forall v, In v (GLM.stats out) -> ~ (v == Fin 0)%V ->
       (v >? GLM.max_stat out)%V = false /\ (v <? GLM.min_stat out)%V = false) /\
    (GLM.max_stat out = Fin 0 \/ In (GLM.max_stat out) (GLM.stats out)) /\
    (GLM.min_stat out = Inf false \/ In (GLM.min_stat out) (GLM.stats out)) /\
    (Fin 0 >? GLM.max_stat out)%V = false /\
    (Inf false <? GLM.min_stat out)%V = false.
Proof.
  assert (exists out,
    GLM.call Instances.Qsqrt
      {| GLM.y := three_fixels; GLM.X := two_groups;
         GLM.pinvX := Instances.pinv two_groups;
         GLM.scaled_contrasts := group_difference_column |}
      [1; 0; 3; 2] [NaN; Inf false; NaN; NaN; NaN] (Fin 0) (Inf false) = Ok out)
    as [out E] by (vm_compute; eexists; reflexivity).
  exists out. split; [exact E|].
  exact (@call_stats_finite_within_extremes Instances.Qsqrt _ _ _ _ _ out E).
Defined.

(** ** Smoothing with the normalised weights *)

Lemma find_In {T : Type} (k : nat) (v : T) (m : StdMap.t T) :
  StdMap.find k m = Some v -> In (k, v) m.
Proof.
  induction m as [|[k' v'] m IH]; simpl; [discriminate|].
  destruct (k' =? k) eqn:E.
  - apply Nat.eqb_eq in E. intros H. inversion H; subst. now left.
  - intros H. right. auto.
Qed.

Lemma insert_In {T : Type} (k j : nat) (v w : T) (m : StdMap.t T) :
  In (j, w) (StdMap.insert k v m) -> (j, w) = (k, v) \/ In (j, w) m.
Proof.
  induction m as [|[k' v'] m IH]; simpl.
  - intros [H|[]]. now left.
  - destruct (k <? k'); simpl.
    + intros [H|H]; auto.
    + destruct (k =? k'); simpl; [auto|].
      intros [H|H]; auto. destruct (IH H); auto.
Qed.

(** In a sum of positive numbers every term is at most the sum. *)
Lemma weights_sum_bound (weights : StdMap.t value) (s total : Q) (j : nat) (q : Q) :
  Forall (fun e => positive_finite (snd e)) weights -> (0 <= s)%Q ->
  fold_left (fun sum entry => (sum + snd entry)%V) weights (Fin s) = Fin total ->
  In (j, Fin q) weights -> (s + q <= total)%Q.
Proof.
  revert s. induction weights as [|[k w] weights IH]; intros s H Hs E I; [elim I|].
  inversion H as [|? ? (x & Hx & Hpos) H']; subst. simpl in Hx. subst w.
  simpl in E. destruct I as [I|I].
  - inversion I; subst.
    destruct (@weights_sum_from_finite weights (s + q)%Q H') as (t & E' & L & _);
      [lra|].
    rewrite E in E'. inversion E'; subst. exact L.
  - assert (L : (s + x + q <= total)%Q) by (apply IH; auto; lra). lra.
Qed.

Section Accumulate.

Import FixelCFE.

Variable data : list value.

(** The loop of the smoother over weights that are positive numbers: the
    two accumulators stay numbers, the sum of the weights grows with every
    neighbour whose value is finite, and the weighted sum stays within the
    bounds of the values times the sum of the weights. *)
Lemma accumulate_positive (weights : StdMap.t value) (value0 sum0 : Q) :
  Forall (fun e => positive_finite (snd e)) weights ->
  exists value sum,
    fold_left (fun '(value, sum_weights) '(j, w) =>
                 if isfinite (at_fixel data j)
                 then ((value + at_fixel data j * w)%V, (sum_weights + w)%V)
                 else (value, sum_weights))
              weights (Fin value0, Fin sum0) = (Fin value, Fin sum) /\
    (sum0 <= sum)%Q /\
    (forall j w, In (j, w) weights -> isfinite (at_fixel data j) = true ->
       (sum0 < sum)%Q) /\
    forall lo hi : Q,
      (forall j q, at_fixel data j = Fin q -> lo <= q <= hi)%Q ->
      (lo * sum0 <= value0 <= hi * sum0)%Q ->
      (lo * sum <= value <= hi * sum)%Q.
Proof.
  revert value0 sum0.
  induction weights as [|[j w] weights IH]; intros value0 sum0 H.
  - exists value0, sum0. simpl. repeat split; auto; try lra.
    intros j w [].
  - inversion H as [|? ? (x & Hx & Hpos) H']; subst. simpl in Hx. subst w.
    simpl. destruct (at_fixel data j) as [d| |] eqn:D; simpl.
    + destruct (IH (value0 + d * x)%Q (sum0 + x)%Q H')
        as (value & sum & E & L & _ & R).
      exists value, sum. split; [exact E|]. split; [lra|]. split; [intros; lra|].
      intros lo hi B R0. apply R; [exact B|].
      destruct (B j d D) as [B1 B2].
      assert (M1 : (lo * x <= d * x)%Q) by (apply Qmult_le_compat_r; lra).
      assert (M2 : (d * x <= hi * x)%Q) by (apply Qmult_le_compat_r; lra).
      lra.
    + destruct (IH value0 sum0 H') as (value & sum & E & L & S & R).
      exists value, sum. split; [exact E|]. split; [exact L|]. split; [|exact R].
      intros k w [I|I] F; [|eauto].
      inversion I; subst. rewrite D in F. discriminate.
    + destruct (IH value0 sum0 H') as (value & sum & E & L & S & R).
      exists value, sum. split; [exact E|]. split; [exact L|]. split; [|exact R].
      intros k w [I|I] F; [|eauto].
      inversion I; subst. rewrite D in F. discriminate.
Qed.

(** A fixel with a finite value and with itself among its weights gets a
    finite value, within the bounds of the finite values of the data. *)
Lemma smooth_fixel_positive (smoothing_weights : list (StdMap.t value))
    (fixel : nat) (w : value) :
  Forall (fun e => positive_finite (snd e)) (nth fixel smoothing_weights []) ->
  In (fixel, w) (nth fixel smoothing_weights []) ->
  isfinite (at_fixel data fixel) = true ->
  exists q,
    smooth_fixel smoothing_weights data fixel = Fin q /\
    forall lo hi : Q,
      (forall j q, at_fixel data j = Fin q -> lo <= q <= hi)%Q ->
      (lo <= q <= hi)%Q.
Proof.
  intros P I F. unfold smooth_fixel, accumulate. rewrite F.
  destruct (@accumulate_positive (nth fixel smoothing_weights []) 0 0 P)
    as (value & sum & E & _ & S & R).
  rewrite E. specialize (S fixel w I F).
  unfold truthy. replace (Qis0 sum) with false by (symmetry; apply Qis0_false; lra).
  simpl. replace (Qis0 sum) with false by (symmetry; apply Qis0_false; lra).
  eexists. split; [reflexivity|].
  intros lo hi B. destruct (R lo hi B) as [R1 R2]; [lra|]. split.
  - apply Qle_shift_div_l; [exact S|exact R1].
  - apply Qle_shift_div_r; [exact S|exact R2].
Qed.

End Accumulate.

Section NormalisedWeights.

Import FixelCFE.

Variable Qsqrt : Q -> Q.
Variable Qexp : Q -> Q.
Variable vpow : value -> value -> value.
Variable PI : Q.
Variable cfe_c : Q.
Variable smooth_std_dev : Q.
Variable connectivity_threshold : Q.
Variable positions : list position.
Variable fixel_TDI : list nat.

Local Abbreviation gaussian_const1 := (gaussian_const1 Qsqrt PI smooth_std_dev).
Local Abbreviation connectivity_of := (connectivity_of fixel_TDI).
Local Abbreviation threshold_entries :=
  (threshold_entries Qsqrt Qexp vpow PI cfe_c smooth_std_dev connectivity_threshold
                     positions fixel_TDI).
Local Abbreviation raw_weights :=
  (raw_weights Qsqrt Qexp vpow PI cfe_c smooth_std_dev connectivity_threshold
               positions fixel_TDI).
Local Abbreviation normalise_fixel :=
  (normalise_fixel Qsqrt Qexp vpow PI cfe_c smooth_std_dev connectivity_threshold
                   positions fixel_TDI).
Local Abbreviation normalise :=
  (normalise Qsqrt Qexp vpow PI cfe_c smooth_std_dev connectivity_threshold
             positions fixel_TDI).

(** A smoothing weight belongs to an entry that the threshold has kept. *)
Lemma threshold_entries_keys (fixel j : nat) (weight : value)
    (entries weights : StdMap.t value) :
  In (j, weight) (snd (threshold_entries fixel entries weights)) ->
  In (j, weight) weights \/
  exists count,
    In (j, count) entries /\
    (connectivity_of fixel count <? Fin connectivity_threshold)%V = false.
Proof.
  revert weights. induction entries as [|[k count] entries IH]; intros weights; simpl.
  - auto.
  - destruct (connectivity_of fixel count <? Fin connectivity_threshold)%V eqn:E.
    + intros I. destruct (IH _ I) as [H|(c & H1 & H2)]; [now left|].
      right. exists c. auto.
    + match goal with
      | |- context [FixelCFE.threshold_entries _ _ _ _ _ _ _ _ _ _ _ ?ws] =>
          specialize (IH ws);
          assert (Hw : In (j, weight) ws -> In (j, weight) weights \/ j = k)
      end.
      { destruct (do_smoothing _); [|auto]. destruct (_ >? _)%V; [|auto].
        intros I. apply insert_In in I.
        destruct I as [I|I]; [inversion I; auto|auto]. }
      destruct (FixelCFE.threshold_entries _ _ _ _ _ _ _ _ _ _ _ _) as [rest' w'].
      simpl in *. intros I. destruct (IH I) as [H|(c & H1 & H2)].
      * destruct (Hw H) as [H'| ->]; [now left|].
        right. exists count. split; [now left|exact E].
      * right. exists c. auto.
Qed.

Hypothesis PI_positive : (0 < PI)%Q.
Hypothesis Qsqrt_positive : forall x, (0 < x)%Q -> (0 < Qsqrt x)%Q.
Hypothesis vpow_square_finite : forall d : Q, isfinite (vpow (Fin d) (Fin 2)) = true.

(** The self weight [1 / (sigma * sqrt (2 * pi))] is within the range of
    the [float] it is stored in. *)
Hypothesis self_weight_in_range :
  FixelCFE.do_smoothing smooth_std_dev = true ->
  (1 / (smooth_std_dev * Qsqrt (2 * PI)) < FLT_OVERFLOW)%Q.

(** The fixel is one the graph was built for: its connection counts are
    numbers, and streamlines run through it when it has a connection. *)
Lemma raw_weights_numbers (fixel : nat) (entries : StdMap.t value) :
  Forall (fun e => isfinite (snd e) = true) entries ->
  (entries <> [] -> 0 < nth fixel fixel_TDI 0) ->
  Forall (fun e => positive_finite (snd e)) (raw_weights fixel entries).
Proof.
  intros counts_finite TDI_positive.
  destruct entries as [|e rest] eqn:E.
  - unfold FixelCFE.raw_weights. simpl. constructor; [|constructor].
    now apply gaussian_const1_positive.
  - rewrite <- E in *. apply raw_weights_finite; auto.
    apply TDI_positive. rewrite E. discriminate.
Qed.

(** The normalised weights of the fixel are fractions of their sum: each
    one is a number above 0 and at most 1, and the fixel itself has one. *)
Lemma normalised_weights_fractions (fixel : nat) (entries : StdMap.t value) :
  Forall (fun e => isfinite (snd e) = true) entries ->
  (entries <> [] -> 0 < nth fixel fixel_TDI 0) ->
  Forall (fun e => exists q, snd e = Fin q /\ (0 < q <= 1)%Q)
         (snd (normalise_fixel fixel entries)) /\
  exists w, In (fixel, w) (snd (normalise_fixel fixel entries)).
Proof.
  intros counts_finite TDI_positive.
  pose proof (@raw_weights_numbers fixel entries counts_finite TDI_positive) as R.
  destruct (weights_sum_from_finite R (Qle_refl 0)) as (total & E & _ & Hpos & _).
  assert (T : (0 < total)%Q).
  { apply Hpos. unfold FixelCFE.raw_weights. apply insert_not_empty. }
  unfold FixelCFE.normalise_fixel. cbn [snd]. unfold scale_weights. split.
  - apply Forall_forall. intros [j w] I. apply in_map_iff in I.
    destruct I as ([j' w'] & I1 & I2). simpl in I1.
    injection I1 as Ej Ew. subst j w. simpl.
    rewrite Forall_forall in R. destruct (R _ I2) as (x & Hx & Px).
    simpl in Hx. subst w'.
    pose proof (@weights_sum_bound _ 0 total j' x
                  (proj2 (Forall_forall _ _) R) (Qle_refl 0) E I2) as B.
    unfold norm_factor, weights_sum. rewrite E. simpl.
    replace (Qis0 total) with false by (symmetry; apply Qis0_false; lra).
    simpl. eexists. split; [reflexivity|]. split.
    + apply Qmult_lt_0_compat; [exact Px|]. apply Qlt_shift_div_l; lra.
    + setoid_replace (x * (1 / total))%Q with (x / total)%Q by (field; lra).
      apply Qle_shift_div_r; lra.
  - pose proof (@find_insert_present value fixel gaussian_const1
                  (snd (threshold_entries fixel entries []))) as P.
    destruct (StdMap.find fixel (StdMap.insert fixel gaussian_const1
                (snd (threshold_entries fixel entries [])))) as [w|] eqn:F;
      [|now elim P].
    apply find_In in F. eexists. apply in_map_iff.
    exists (fixel, w). split; [reflexivity|exact F].
Qed.

(** The keys of the normalised weights: the fixel itself and the fixels
    of the entries that the threshold has kept. *)
Lemma normalised_weights_keys (fixel : nat) (entries : StdMap.t value) :
  Forall (fun e =>
            fst e = fixel \/
            exists count,
              In (fst e, count) entries /\
              (connectivity_of fixel count <? Fin connectivity_threshold)%V = false)
         (snd (normalise_fixel fixel entries)).
Proof.
  unfold FixelCFE.normalise_fixel. cbn [snd]. unfold scale_weights.
  apply Forall_forall. intros [j w] I. apply in_map_iff in I.
  destruct I as ([j' w'] & I1 & I2). simpl in I1. injection I1 as Ej Ew. subst j w.
  simpl. unfold FixelCFE.raw_weights in I2. apply insert_In in I2.
  destruct I2 as [I2|I2]; [inversion I2; now left|].
  apply threshold_entries_keys in I2. destruct I2 as [[]|I2]. now right.
Qed.

(** X11.  When the self weight is within the range of [float], the
    normalised smoothing weights of a fixel the graph was built for (its
    connection counts are numbers, and streamlines run through it when it
    has a connection) are fractions: each one is a number above 0 and at
    most 1.  Each belongs to the fixel itself or to a
    fixel connected to it whose fraction of the streamlines is not below
    the connectivity threshold, so that the smoother reads no other
    fixel. *)
Theorem smoothing_weights_are_fractions
    (connectivity_matrix : list (StdMap.t value)) (fixel : nat) :
  fixel < length connectivity_matrix ->
  Forall (fun e => isfinite (snd e) = true) (nth fixel connectivity_matrix []) ->
  (nth fixel connectivity_matrix [] <> [] -> 0 < nth fixel fixel_TDI 0) ->
  Forall (fun e =>
            (exists q, snd e = Fin q /\ (0 < q <= 1)%Q) /\
            (fst e = fixel \/
             exists count,
               In (fst e, count) (nth fixel connectivity_matrix []) /\
               (connectivity_of fixel count <? Fin connectivity_threshold)%V = false))
         (nth fixel (snd (normalise connectivity_matrix)) []).
Proof.
  intros Hlen Hfin Htdi.
  rewrite (proj2 (normalise_nth _ _ _ _ _ _ _ _ _ connectivity_matrix Hlen)).
  destruct (@normalised_weights_fractions fixel _ Hfin Htdi) as [F _].
  pose proof (normalised_weights_keys fixel (nth fixel connectivity_matrix [])) as K.
  rewrite Forall_forall in *. intros e I. split; auto.
Qed.

(** X12.  With the normalised weights of a fixel the graph was built
    for, and a self weight within the range of [float], a finite value is
    smoothed to a finite value, whatever values the
    neighbours have (those that are not finite are left out and the weights
    of the others still add up to a positive number); and the smoothed
    value lies within every pair of bounds that hold of the finite values
    of the subject. *)
Theorem smoothed_value_finite_within_bounds
    (connectivity_matrix : list (StdMap.t value)) (data : list value) (fixel : nat) :
  length data = length connectivity_matrix ->
  fixel < length connectivity_matrix ->
  Forall (fun e => isfinite (snd e) = true) (nth fixel connectivity_matrix []) ->
  (nth fixel connectivity_matrix [] <> [] -> 0 < nth fixel fixel_TDI 0) ->
  isfinite (nth fixel data NaN) = true ->
  exists q,
    nth fixel (smooth (snd (normalise connectivity_matrix)) data) NaN = Fin q /\
    forall lo hi : Q,
      (forall j x, nth j data NaN = Fin x -> lo <= x <= hi)%Q ->
      (lo <= q <= hi)%Q.
Proof.
  intros L Hlen Hfin Htdi F. unfold smooth.
  rewrite nth_map_seq by lia.
  destruct (@normalised_weights_fractions fixel _ Hfin Htdi) as [P [w I]].
  apply (@smooth_fixel_positive data _ fixel w).
  - rewrite (proj2 (normalise_nth _ _ _ _ _ _ _ _ _ connectivity_matrix Hlen)).
    eapply Forall_impl; [|exact P].
    intros e (q & E & Q0 & _). exists q. auto.
  - now rewrite (proj2 (normalise_nth _ _ _ _ _ _ _ _ _ connectivity_matrix Hlen)).
  - exact F.
Qed.

(** X13.  On a graph built for its fixels, and with a self weight
    within the range of [float], the smoothed value of a fixel is finite
    exactly when its value before was: smoothing neither
    spreads a value that is not finite to the neighbours nor fills it in
    from them.  So [smoothed_data.allFinite()] fails, and [nans_in_data] is
    set, exactly for a subject whose image has a value that is not
    finite. *)
Theorem smoothing_keeps_non_finite_values
    (connectivity_matrix : list (StdMap.t value)) (data : list value) :
  length data = length connectivity_matrix ->
  (forall fixel, fixel < length connectivity_matrix ->
     Forall (fun e => isfinite (snd e) = true) (nth fixel connectivity_matrix []) /\
     (nth fixel connectivity_matrix [] <> [] -> 0 < nth fixel fixel_TDI 0)) ->
  map isfinite (smooth (snd (normalise connectivity_matrix)) data) = map isfinite data /\
  allFinite (smooth (snd (normalise connectivity_matrix)) data) = allFinite data.
Proof.
  intros L G.
  assert (M : map isfinite (smooth (snd (normalise connectivity_matrix)) data)
              = map isfinite data).
  { apply (nth_ext _ _ false false).
    - unfold smooth. now rewrite !length_map, length_seq.
    - intros fixel Hf. unfold smooth in *.
      rewrite !length_map, length_seq in Hf.
      rewrite (nth_indep _ false (isfinite NaN)) by
        (now rewrite !length_map, length_seq).
      rewrite (nth_indep (map isfinite data) false (isfinite NaN)) by
        (now rewrite length_map).
      rewrite !map_nth. rewrite nth_map_seq by assumption.
      destruct (isfinite (nth fixel data NaN)) eqn:F.
      + assert (Hlen : fixel < length connectivity_matrix) by lia.
        destruct (G fixel Hlen) as [Hfin Htdi].
        destruct (@normalised_weights_fractions fixel _ Hfin Htdi) as [P [w I]].
        destruct (@smooth_fixel_positive data (snd (normalise connectivity_matrix))
                    fixel w) as (q & -> & _); auto.
        * rewrite (proj2 (normalise_nth _ _ _ _ _ _ _ _ _ connectivity_matrix Hlen)).
          eapply Forall_impl; [|exact P].
          intros e (q & E & Q0 & _). exists q. auto.
        * now rewrite (proj2 (normalise_nth _ _ _ _ _ _ _ _ _ connectivity_matrix
                                Hlen)).
      + unfold smooth_fixel, at_fixel. now rewrite F. }
  split; [exact M|]. unfold allFinite.
  assert (A : forall l, forallb isfinite l = forallb (fun b => b) (map isfinite l)).
  { induction l as [|v l IH]; simpl; [reflexivity|]. now rewrite IH. }
  now rewrite !A, M.
Qed.

End NormalisedWeights.

Lemma smoothing_weights_are_fractions_witness :
  Forall (fun e =>
            (exists q, snd e = Fin q /\ (0 < q <= 1)%Q) /\
            (fst e = 0 \/
             exists count,
               In (fst e, count) (nth 0 line_connectivity []) /\
               (FixelCFE.connectivity_of [1; 1; 1; 1] 0 count
                <? Fin FixelCFE.DEFAULT_CONNECTIVITY_THRESHOLD)%V = false))
    (nth 0 (snd (FixelCFE.normalise Instances.Qsqrt Instances.Qexp Instances.vpow
                   Instances.PI FixelCFE.DEFAULT_CFE_C
                   (FixelCFE.std_dev_of_fwhm FixelCFE.DEFAULT_SMOOTHING_STD)
                   FixelCFE.DEFAULT_CONNECTIVITY_THRESHOLD
                   line_positions [1; 1; 1; 1] line_connectivity)) []).
Proof.
  apply (@smoothing_weights_are_fractions Instances.Qsqrt Instances.Qexp Instances.vpow
           Instances.PI FixelCFE.DEFAULT_CFE_C
           (FixelCFE.std_dev_of_fwhm FixelCFE.DEFAULT_SMOOTHING_STD)
           FixelCFE.DEFAULT_CONNECTIVITY_THRESHOLD
           line_positions [1; 1; 1; 1]
           Instances_PI_positive Instances_Qsqrt_positive Instances_vpow_square_finite
           Instances_self_weight_in_range
           line_connectivity 0).
  - simpl. lia.
  - simpl. repeat constructor.
  - intros _. simpl. lia.
Defined.

Lemma smoothed_value_finite_within_bounds_witness :
  exists q,
    nth 0 (FixelCFE.smooth
             (snd (FixelCFE.normalise Instances.Qsqrt Instances.Qexp Instances.vpow
                     Instances.PI FixelCFE.DEFAULT_CFE_C
                     (FixelCFE.std_dev_of_fwhm FixelCFE.DEFAULT_SMOOTHING_STD)
                     FixelCFE.DEFAULT_CONNECTIVITY_THRESHOLD
                     line_positions [1; 1; 1; 1] line_connectivity))
             [Fin 1; NaN; Fin 3; Inf false]) NaN = Fin q /\
    forall lo hi : Q,
      (forall j x, nth j [Fin 1; NaN; Fin 3; Inf false] NaN = Fin x -> lo <= x <= hi)%Q ->
      (lo <= q <= hi)%Q.
Proof.
  apply (@smoothed_value_finite_within_bounds Instances.Qsqrt Instances.Qexp Instances.vpow
           Instances.PI FixelCFE.DEFAULT_CFE_C
           (FixelCFE.std_dev_of_fwhm FixelCFE.DEFAULT_SMOOTHING_STD)
           FixelCFE.DEFAULT_CONNECTIVITY_THRESHOLD
           line_positions [1; 1; 1; 1]
           Instances_PI_positive Instances_Qsqrt_positive Instances_vpow_square_finite
           Instances_self_weight_in_range
           line_connectivity [Fin 1; NaN; Fin 3; Inf false] 0).
  - reflexivity.
  - simpl. lia.
  - simpl. repeat constructor.
  - intros _. simpl. lia.
  - reflexivity.
Defined.

(** ** The effect sizes *)

Section EffectSizes.

Import GLM.

Variable Qsqrt : Q -> Q.
Variable rank : matrix -> nat.
Variable jacobiSvd_solve : matrix -> matrix -> nat -> nat -> value.

Local Abbreviation solve_betas := (solve_betas jacobiSvd_solve).
Local Abbreviation abs_effect_size := (abs_effect_size jacobiSvd_solve).
Local Abbreviation stdev := (stdev Qsqrt rank jacobiSvd_solve).
Local Abbreviation std_effect_size := (std_effect_size Qsqrt rank jacobiSvd_solve).

Lemma solve_betas_cases (measurements design : matrix) :
  if rows design =? cols measurements
  then exists betas,
         solve_betas measurements design = Ok betas /\
         rows betas = cols design /\ cols betas = rows measurements
  else solve_betas measurements design = Undefined.
Proof.
  unfold GLM.solve_betas. cbn [transpose rows cols].
  destruct (rows design =? cols measurements); simpl; eauto.
Qed.

Lemma abs_effect_size_cases (measurements design contrast : matrix) :
  if (rows design =? cols measurements) && (cols contrast =? cols design)
  then exists effect,
         abs_effect_size measurements design contrast = Ok effect /\
         rows effect = rows contrast /\ cols effect = rows measurements
  else abs_effect_size measurements design contrast = Undefined.
Proof.
  unfold GLM.abs_effect_size.
  pose proof (solve_betas_cases measurements design) as B.
  destruct (rows design =? cols measurements); [|now rewrite B].
  destruct B as (betas & -> & R & C). cbn [bind andb]. unfold mul. rewrite R.
  destruct (cols contrast =? cols design); simpl; eauto.
Qed.

Lemma stdev_cases (measurements design : matrix) :
  if rows design =? cols measurements
  then exists deviation,
         stdev measurements design = Ok deviation /\
         rows deviation = 1 /\ cols deviation = rows measurements
  else stdev measurements design = Undefined.
Proof.
  unfold GLM.stdev.
  pose proof (solve_betas_cases measurements design) as B.
  destruct (rows design =? cols measurements) eqn:E; [|now rewrite B].
  destruct B as (betas & -> & R & C). cbn [bind]. unfold mul, sub.
  rewrite R, Nat.eqb_refl. cbn [bind require transpose rows cols cwise filled].
  apply Nat.eqb_eq in E. rewrite C, E, !Nat.eqb_refl.
  cbn [andb bind require rows cols]. rewrite Nat.eqb_refl.
  cbn [bind require]. eexists. split; [reflexivity|]. simpl. auto.
Qed.

(** X14.  The three effect-size functions read the data with one row
    for every element and one column for every subject.  None of them
    throws; [stdev] returns exactly when the data has a column for every
    row of the design, [abs_effect_size] when moreover the contrasts have a
    column for every column of the design, and [std_effect_size] when
    moreover there is exactly one contrast: the standard deviations are a
    single row, and the quotient coefficient by coefficient with the
    effects of several contrasts is not defined. *)
Theorem std_effect_size_needs_one_contrast (measurements design contrast : matrix) :
  (returns (stdev measurements design) = (rows design =? cols measurements)) /\
  (returns (abs_effect_size measurements design contrast) =
   (rows design =? cols measurements) && (cols contrast =? cols design)) /\
  (returns (std_effect_size measurements design contrast) =
   (rows design =? cols measurements) && (cols contrast =? cols design)
   && (rows contrast =? 1)) /\
  throws (stdev measurements design) = false /\
  throws (abs_effect_size measurements design contrast) = false /\
  throws (std_effect_size measurements design contrast) = false.
Proof.
  unfold GLM.std_effect_size.
  pose proof (stdev_cases measurements design) as S.
  pose proof (abs_effect_size_cases measurements design contrast) as A.
  destruct (rows design =? cols measurements).
  - destruct S as (deviation & -> & Rd & Cd).
    destruct (cols contrast =? cols design).
    + destruct A as (effect & -> & Re & Ce). cbn [bind andb returns throws].
      unfold cwise_div. rewrite Re, Rd, Ce, Cd, Nat.eqb_refl, andb_true_r.
      destruct (rows contrast =? 1); simpl; repeat split; auto.
    + rewrite A. simpl. repeat split; auto.
  - rewrite S, A. simpl. repeat split; auto.
Qed.

End EffectSizes.

(** ** The scaled contrast *)

Section ScaledContrast.

Import GLM.

Variable Qsqrt : Q -> Q.
Variable pinv : matrix -> matrix.

(** The pseudo-inverse of a matrix has the sizes of its transpose. *)
Hypothesis pinv_sizes : forall m, rows (pinv m) = cols m /\ cols (pinv m) = rows m.

Lemma scale_contrasts_one_row (contrasts design : matrix) (df : Z) :
  rows contrasts = 1 ->
  if cols contrasts =? cols design
  then exists scaled XtX,
         mul (transpose design) design = Ok XtX /\
         scale_contrasts Qsqrt pinv contrasts design df = Ok scaled /\
         rows scaled = 1 /\ cols scaled = cols design /\
         forall j,
           coeff scaled 0 j =
           (coeff contrasts 0 j
            * vsqrt Qsqrt
                (of_size_t df
                 / sum_upto (cols design)
                     (fun k => coeff contrasts 0 k
                               * sum_upto (cols design)
                                   (fun l => coeff (pinv XtX) k l
                                             * coeff contrasts 0 l))))%V
  else returns (scale_contrasts Qsqrt pinv contrasts design df) = false.
Proof.
  intros R. unfold scale_contrasts. rewrite mul_transpose_self. cbn [bind].
  set (XtX0 := Matrix _ _ _).
  destruct (pinv_sizes XtX0) as [PR PC]. cbn [XtX0 rows cols] in PR, PC.
  destruct contrasts as [r cc f]. cbn [rows cols coeff] in *. subst r.
  rewrite andb_false_r. cbn [Nat.ltb Nat.leb seq foldM].
  unfold row_transposed, mul, row_dot. cbn [rows cols coeff Nat.ltb Nat.leb require bind].
  rewrite PC, PR. cbn [Nat.eqb andb].
  destruct (cc =? cols design) eqn:E.
  - apply Nat.eqb_eq in E. subst cc. rewrite Nat.eqb_refl.
    cbn [require bind rows cols coeff andb].
    unfold resize. cbn [rows cols]. rewrite Nat.eqb_refl.
    cbn [bind]. unfold scale_row. cbn [rows cols coeff Nat.ltb Nat.leb require bind].
    repeat first [rewrite Nat.eqb_refl | progress cbn [Nat.eqb andb require bind]].
    cbv beta iota.
    eexists _, _. split; [reflexivity|]. split; [reflexivity|].
    cbn [rows cols coeff]. split; [reflexivity|]. split; [reflexivity|].
    intros j. cbn [Nat.eqb].
    replace (j * 1 + 0) with j by lia.
    rewrite Nat.mod_1_r, Nat.div_1_r. reflexivity.
  - apply returns_bind_false. intros s.
    rewrite Nat.eqb_sym, E. reflexivity.
Qed.

(** X15.  [scale_contrasts] returns exactly for a contrast matrix with
    no row, or with one row that has a coefficient for every column of the
    design; a column of contrasts, though the code transposes it "to make
    sure", is not among them.  The row [c] comes back multiplied by
    [sqrt (degrees_of_freedom / (c . pinv (X^T X) . c^T))]. *)
Theorem scale_contrasts_scales_one_row (contrasts design : matrix) (df : Z) :
  (returns (scale_contrasts Qsqrt pinv contrasts design df) = true <->
   rows contrasts = 0 \/ (rows contrasts = 1 /\ cols contrasts = cols design)) /\
  (rows contrasts = 1 -> cols contrasts = cols design ->
   exists scaled XtX,
     mul (transpose design) design = Ok XtX /\
     scale_contrasts Qsqrt pinv contrasts design df = Ok scaled /\
     rows scaled = 1 /\ cols scaled = cols design /\
     forall j,
       coeff scaled 0 j =
       (coeff contrasts 0 j
        * vsqrt Qsqrt
            (of_size_t df
             / sum_upto (cols design)
                 (fun k => coeff contrasts 0 k
                           * sum_upto (cols design)
                               (fun l => coeff (pinv XtX) k l
                                         * coeff contrasts 0 l))))%V).
Proof.
  split.
  - destruct (rows contrasts) as [|[|r]] eqn:R.
    + split; [auto|]. intros _. unfold scale_contrasts.
      rewrite mul_transpose_self, R. cbn [bind].
      rewrite andb_false_r. cbn [Nat.ltb Nat.leb]. unfold resize.
      rewrite R. reflexivity.
    + pose proof (@scale_contrasts_one_row contrasts design df R) as H.
      destruct (cols contrasts =? cols design) eqn:E.
      * apply Nat.eqb_eq in E. destruct H as (s & X & _ & -> & _).
        split; auto.
      * apply Nat.eqb_neq in E. rewrite H. split; [discriminate|].
        intros [N|[_ N]]; [discriminate|contradiction].
    + destruct (scale_contrasts Qsqrt pinv contrasts design df) as [s| |] eqn:E.
      * apply scale_contrasts_single_row in E. lia.
      * split; [discriminate|]. intros [N|[N _]]; discriminate.
      * split; [discriminate|]. intros [N|[N _]]; discriminate.
  - intros R C. pose proof (@scale_contrasts_one_row contrasts design df R) as H.
    rewrite C, Nat.eqb_refl in H. exact H.
Qed.

End ScaledContrast.

(** ** The p-values as a function of the statistic *)

Section Pvalues.

Import Permute Spec.

Lemma pvalue_of_sorted (perm_dist : list Q) (tvalue : value) :
  pvalue_of (std_sort perm_dist) tvalue =
  if (tvalue >? Fin 0)%V then
    if some_above tvalue perm_dist
    then (of_nat (count_not_above tvalue perm_dist) / of_nat (length perm_dist))%V
    else Fin 1
  else Fin 0.
Proof.
  unfold pvalue_of. destruct (tvalue >? Fin 0)%V; [|reflexivity].
  rewrite pvalue_loop_ascending by apply std_sort_ascending.
  now rewrite std_sort_some_above, std_sort_count, std_sort_length.
Qed.

Lemma count_not_above_length (tvalue : value) (l : list Q) :
  count_not_above tvalue l <= length l /\
  (some_above tvalue l = true -> count_not_above tvalue l < length l).
Proof.
  induction l as [|p l [IH1 IH2]]; simpl.
  - split; [unfold count_not_above; simpl; lia|discriminate].
  - rewrite count_not_above_cons. destruct (tvalue <? Fin p)%V; simpl; split; try lia.
    intros H. apply IH2 in H. lia.
Qed.

Lemma count_not_above_monotone (a b : Q) (l : list Q) :
  (a <= b)%Q ->
  count_not_above (Fin a) l <= count_not_above (Fin b) l /\
  (some_above (Fin b) l = true -> some_above (Fin a) l = true).
Proof.
  intros H. induction l as [|p l [IH1 IH2]]; simpl.
  - split; [reflexivity|auto].
  - rewrite !count_not_above_cons.
    destruct (Fin b <? Fin p)%V eqn:B.
    + assert (A : (Fin a <? Fin p)%V = true).
      { unfold vlt in *. apply Qltb_lt. apply Qltb_lt in B. lra. }
      rewrite A. simpl. split; [exact IH1|reflexivity].
    + destruct (Fin a <? Fin p)%V; simpl; split; auto; lia.
Qed.

Lemma of_nat_quotient (n d : nat) :
  n <= d -> 0 < d ->
  exists q, (of_nat n / of_nat d)%V = Fin q /\ (0 <= q <= 1)%Q /\
            (q == inject_Z (Z.of_nat n) / inject_Z (Z.of_nat d))%Q.
Proof.
  intros L P. unfold of_nat, vdiv.
  assert (D : (0 < inject_Z (Z.of_nat d))%Q) by (rewrite <- (Zlt_Qlt 0); lia).
  assert (N : (0 <= inject_Z (Z.of_nat n))%Q) by (rewrite <- (Zle_Qle 0); lia).
  assert (ND : (inject_Z (Z.of_nat n) <= inject_Z (Z.of_nat d))%Q)
    by (rewrite <- Zle_Qle; lia).
  replace (Qis0 (inject_Z (Z.of_nat d))) with false
    by (symmetry; apply Qis0_false; lra).
  eexists. split; [reflexivity|]. split; [|reflexivity]. split.
  - apply Qle_shift_div_l; lra.
  - apply Qle_shift_div_r; lra.
Qed.

(** X16.  The value written for a statistic that is a number is a
    number between 0 and 1, and it does not decrease when the statistic
    grows: of two voxels, the one with the greater statistic gets the
    greater value, or the same. *)
Theorem statistic2pvalue_monotone (perm_dist : list Q) (a b : Q) :
  (a <= b)%Q ->
  exists pa pb,
    statistic2pvalue perm_dist [Fin a; Fin b] = [Fin pa; Fin pb] /\
    (0 <= pa)%Q /\ (pa <= pb)%Q /\ (pb <= 1)%Q.
Proof.
  intros H. unfold statistic2pvalue. cbn [map]. rewrite !pvalue_of_sorted.
  destruct (count_not_above_length (Fin a) perm_dist) as [La Sa].
  destruct (count_not_above_length (Fin b) perm_dist) as [Lb Sb].
  destruct (count_not_above_monotone perm_dist H) as [M S].
  destruct (Fin b >? Fin 0)%V eqn:B.
  - destruct (some_above (Fin b) perm_dist) eqn:Ab.
    + specialize (Sb eq_refl). rewrite (S eq_refl) in *. specialize (Sa eq_refl).
      destruct (@of_nat_quotient (count_not_above (Fin b) perm_dist) (length perm_dist))
        as (pb & -> & [Pb0 Pb1] & Eb); [lia|lia|].
      destruct (Fin a >? Fin 0)%V.
      * destruct (@of_nat_quotient (count_not_above (Fin a) perm_dist) (length perm_dist))
          as (pa & -> & [Pa0 Pa1] & Ea); [lia|lia|].
        exists pa, pb. split; [reflexivity|]. repeat split; auto.
        rewrite Ea, Eb.
        assert (D : (0 < inject_Z (Z.of_nat (length perm_dist)))%Q)
          by (rewrite <- (Zlt_Qlt 0); lia).
        assert (N : (inject_Z (Z.of_nat (count_not_above (Fin a) perm_dist))
                     <= inject_Z (Z.of_nat (count_not_above (Fin b) perm_dist)))%Q)
          by (rewrite <- Zle_Qle; lia).
        apply Qle_shift_div_l; [exact D|].
        setoid_replace (inject_Z (Z.of_nat (count_not_above (Fin a) perm_dist))
                        / inject_Z (Z.of_nat (length perm_dist))
                        * inject_Z (Z.of_nat (length perm_dist)))%Q
          with (inject_Z (Z.of_nat (count_not_above (Fin a) perm_dist)))
          by (field; lra).
        exact N.
      * exists 0%Q, pb. split; [reflexivity|]. repeat split; auto; lra.
    + destruct (Fin a >? Fin 0)%V.
      * destruct (some_above (Fin a) perm_dist).
        -- specialize (Sa eq_refl).
           destruct (@of_nat_quotient (count_not_above (Fin a) perm_dist)
                       (length perm_dist)) as (pa & -> & [Pa0 Pa1] & Ea); [lia|lia|].
           exists pa, 1%Q. split; [reflexivity|]. repeat split; auto; lra.
        -- exists 1%Q, 1%Q. split; [reflexivity|]. repeat split; lra.
      * exists 0%Q, 1%Q. split; [reflexivity|]. repeat split; lra.
  - assert (A : (Fin a >? Fin 0)%V = false).
    { unfold vgt, vlt in *. apply Qltb_ge. apply Qltb_ge in B. lra. }
    rewrite A. exists 0%Q, 0%Q. split; [reflexivity|]. repeat split; lra.
Qed.

End Pvalues.

Section PvaluesOrder.

Import Permute Spec.

Lemma count_not_above_Permutation (tvalue : value) (l l' : list Q) :
  Permutation l l' ->
  count_not_above tvalue l = count_not_above tvalue l' /\
  some_above tvalue l = some_above tvalue l'.
Proof.
  induction 1 as [|x l l' P [IH1 IH2]|x y l|l l' l'' P1 [IH1 IH2] P2 [IH3 IH4]].
  - auto.
  - rewrite !count_not_above_cons. simpl. rewrite IH1, IH2. auto.
  - rewrite !count_not_above_cons. simpl. split; [lia|].
    destruct (tvalue <? Fin x)%V, (tvalue <? Fin y)%V; reflexivity.
  - split; congruence.
Qed.

(** X17.  The values written do not depend on the order in which the
    maxima of the permutations are given: the distribution is sorted before
    it is read. *)
Theorem statistic2pvalue_order_independent
    (perm_dist perm_dist' : list Q) (stat_voxel : list value) :
  Permutation perm_dist perm_dist' ->
  statistic2pvalue perm_dist stat_voxel = statistic2pvalue perm_dist' stat_voxel.
Proof.
  intros P. unfold statistic2pvalue. apply map_ext. intros tvalue.
  rewrite !pvalue_of_sorted.
  destruct (count_not_above_Permutation tvalue P) as [-> ->].
  now rewrite (Permutation_length P).
Qed.

End PvaluesOrder.

Lemma smoothing_keeps_non_finite_values_witness :
  map isfinite
    (FixelCFE.smooth
       (snd (FixelCFE.normalise Instances.Qsqrt Instances.Qexp Instances.vpow
               Instances.PI FixelCFE.DEFAULT_CFE_C
               (FixelCFE.std_dev_of_fwhm FixelCFE.DEFAULT_SMOOTHING_STD)
               FixelCFE.DEFAULT_CONNECTIVITY_THRESHOLD
               line_positions [1; 1; 1; 1] line_connectivity))
       [Fin 1; NaN; Fin 3; Inf false]) = [true; false; true; false] /\
  FixelCFE.allFinite
    (FixelCFE.smooth
       (snd (FixelCFE.normalise Instances.Qsqrt Instances.Qexp Instances.vpow
               Instances.PI FixelCFE.DEFAULT_CFE_C
               (FixelCFE.std_dev_of_fwhm FixelCFE.DEFAULT_SMOOTHING_STD)
               FixelCFE.DEFAULT_CONNECTIVITY_THRESHOLD
               line_positions [1; 1; 1; 1] line_connectivity))
       [Fin 1; NaN; Fin 3; Inf false]) = false.
Proof.
  apply (@smoothing_keeps_non_finite_values Instances.Qsqrt Instances.Qexp Instances.vpow
           Instances.PI FixelCFE.DEFAULT_CFE_C
           (FixelCFE.std_dev_of_fwhm FixelCFE.DEFAULT_SMOOTHING_STD)
           FixelCFE.DEFAULT_CONNECTIVITY_THRESHOLD
           line_positions [1; 1; 1; 1]
           Instances_PI_positive Instances_Qsqrt_positive Instances_vpow_square_finite
           Instances_self_weight_in_range
           line_connectivity [Fin 1; NaN; Fin 3; Inf false]).
  - reflexivity.
  - intros fixel Hf. simpl in Hf.
    destruct fixel as [|[|[|[|fixel]]]]; [| | | |lia];
      (split; [simpl; repeat constructor|intros _; simpl; lia]).
Defined.

Lemma scale_contrasts_scales_one_row_witness :
  exists scaled XtX,
    mul (transpose two_groups) two_groups = Ok XtX /\
    GLM.scale_contrasts Instances.Qsqrt Instances.pinv group_difference two_groups 2
      = Ok scaled /\
    rows scaled = 1 /\ cols scaled = 2 /\
    forall j,
      coeff scaled 0 j =
      (coeff group_difference 0 j
       * vsqrt Instances.Qsqrt
           (GLM.of_size_t 2
            / sum_upto 2
                (fun k => coeff group_difference 0 k
                          * sum_upto 2
                              (fun l => coeff (Instances.pinv XtX) k l
                                        * coeff group_difference 0 l))))%V.
Proof.
  exact (proj2 (@scale_contrasts_scales_one_row Instances.Qsqrt Instances.pinv
                  (fun m => conj eq_refl eq_refl)
                  group_difference two_groups 2%Z) eq_refl eq_refl).
Defined.

Lemma statistic2pvalue_monotone_witness :
  exists pa pb,
    Permute.statistic2pvalue [3; 1; 2; 4]%Q [Fin (3 # 2); Fin (7 # 2)]
      = [Fin pa; Fin pb] /\
    (0 <= pa)%Q /\ (pa <= pb)%Q /\ (pb <= 1)%Q.
Proof.
  apply (@statistic2pvalue_monotone [3; 1; 2; 4]%Q (3 # 2) (7 # 2)).
  unfold Qle. simpl. lia.
Defined.

Lemma statistic2pvalue_order_independent_witness :
  Permute.statistic2pvalue [3; 1; 2]%Q [Fin (3 # 2); Fin 5; NaN] =
  Permute.statistic2pvalue [1; 2; 3]%Q [Fin (3 # 2); Fin 5; NaN].
Proof.
  apply (@statistic2pvalue_order_independent [3; 1; 2]%Q [1; 2; 3]%Q).
  apply (@Permutation_cons_app Q [1; 2]%Q [1; 2]%Q [] 3%Q).
  apply Permutation_refl.
Defined.

(** ** A run of the test on well-formed inputs *)

Section WellFormedRun.

Import GLM Spec.

Variable Qsqrt : Q -> Q.
Variable pinv : matrix -> matrix.
Variable rank : matrix -> nat.

(** The pseudo-inverse of a matrix has the sizes of its transpose. *)
Hypothesis pinv_sizes : forall m, rows (pinv m) = cols m /\ cols (pinv m) = rows m.

(** X18.  Construction and one call, end to end.  For a contrast of one
    row with a coefficient for every column of the design, data with a
    column for every row of the design and at most [GLM_BATCH_SIZE] rows,
    and labels in range, the test returns; the t-value of every fixel is
    the least-squares one on the shuffled design, for the contrast row that
    [scale_contrasts] returns, transposed. *)
Theorem run_returns_least_squares
    (measurements design contrast : matrix) (perm_labelling : list nat)
    (stats0 : list value) (max_stat0 min_stat0 : value) :
  rows contrast = 1 ->
  cols contrast = cols design ->
  cols measurements = rows design ->
  rows measurements <= GLM_BATCH_SIZE ->
  rows design <= length perm_labelling ->
  (forall i, i < rows design -> nth i perm_labelling 0 < rows design) ->
  exists out scaled,
    scale_contrasts Qsqrt pinv contrast design
      (to_size_t (Z.of_nat (rows design) - Z.of_nat (rank design))) = Ok scaled /\
    run Qsqrt pinv rank measurements design contrast
        perm_labelling stats0 max_stat0 min_stat0 = Ok out /\
    stats out =
    map (least_squares_tvalue Qsqrt
           (permuted_rows design perm_labelling)
           (permuted_cols (pinv design) perm_labelling)
           (transpose scaled) measurements)
        (seq 0 (rows measurements)).
Proof.
  intros R C Y B L N. unfold run, GLMTTest_new.
  pose proof (@scale_contrasts_one_row Qsqrt pinv pinv_sizes contrast design
                (to_size_t (Z.of_nat (rows design) - Z.of_nat (rank design))) R) as S.
  rewrite C, Nat.eqb_refl in S. destruct S as (scaled & XtX & _ & E & Rs & Cs & _).
  rewrite E. cbn [bind]. destruct (pinv_sizes design) as [PR PC].
  set (t := {| y := measurements; X := design; pinvX := pinv design;
               scaled_contrasts := transpose scaled |}).
  unfold call.
  destruct (@labelled_permutation t perm_labelling PC L N)
    as (SX & pinvSX & Es & S1 & S2).
  rewrite Es. cbn [bind].
  destruct (@one_batch_shuffled Qsqrt t perm_labelling PC Y PR Cs
              ltac:(cbn [t scaled_contrasts transpose cols]; lia)
              SX pinvSX stats0 max_stat0 min_stat0 B S1 S2) as (out & Eo & So).
  exists out, scaled. split; [reflexivity|]. split; [exact Eo|exact So].
Qed.

End WellFormedRun.

Lemma run_returns_least_squares_witness :
  exists out scaled,
    GLM.scale_contrasts Instances.Qsqrt Instances.pinv group_difference two_groups
      (GLM.to_size_t (Z.of_nat 4 - Z.of_nat (Instances.rank two_groups))) = Ok scaled /\
    GLM.run Instances.Qsqrt Instances.pinv Instances.rank three_fixels two_groups
      group_difference [2; 0; 3; 1] [] (Fin 0) (Fin 0) = Ok out /\
    GLM.stats out =
    map (GLM.least_squares_tvalue Instances.Qsqrt
           (Spec.permuted_rows two_groups [2; 0; 3; 1])
           (Spec.permuted_cols (Instances.pinv two_groups) [2; 0; 3; 1])
           (transpose scaled) three_fixels)
        (seq 0 3).
Proof.
  apply (@run_returns_least_squares Instances.Qsqrt Instances.pinv Instances.rank
           (fun m => conj eq_refl eq_refl)
           three_fixels two_groups group_difference [2; 0; 3; 1] [] (Fin 0) (Fin 0)
           eq_refl eq_refl eq_refl).
  - unfold GLM.GLM_BATCH_SIZE. simpl. lia.
  - simpl. lia.
  - intros i Hi. simpl in Hi.
    destruct i as [|[|[|[|i]]]]; simpl; lia.
Defined.

(** ** Streamline counts out of the ordinary *)

Section TrackCountEdges.

Import FixelCFE.

Variable to_int : string -> Z.

(** [to<int>] returns an [int]. *)
Hypothesis to_int_range : forall s, (- 2 ^ 31 <= to_int s < 2 ^ 31)%Z.

(** X19.  With a declared count of 1,000,000 or more the connectivity is
    accumulated without a warning.  A negative declared count is not
    rejected: converted to [size_t] it is a number of 2^64 less its
    magnitude, which is neither zero nor below 1,000,000, so the stage runs
    the queue for that many streamlines and logs no warning. *)
Theorem read_tracks_takes_negative_count (count : string) :
  ((1000000 <= declared_count to_int count)%Z ->
   read_tracks to_int count = ([RunTrackQueue (declared_count to_int count)], Ok tt)) /\
  ((declared_count to_int count < 0)%Z ->
   read_tracks to_int count =
   ([RunTrackQueue (2 ^ 64 + declared_count to_int count)], Ok tt)).
Proof.
  pose proof (declared_count_range to_int to_int_range count) as R.
  unfold read_tracks, num_tracks, GLM.to_size_t. split; intros H.
  - rewrite Z.mod_small by lia.
    replace (declared_count to_int count =? 0)%Z with false
      by (symmetry; apply Z.eqb_neq; lia).
    replace (declared_count to_int count <? 1000000)%Z with false
      by (symmetry; apply Z.ltb_ge; lia).
    reflexivity.
  - replace (declared_count to_int count mod 2 ^ 64)%Z
      with (2 ^ 64 + declared_count to_int count)%Z.
    + replace (2 ^ 64 + declared_count to_int count =? 0)%Z with false
        by (symmetry; apply Z.eqb_neq; lia).
      replace (2 ^ 64 + declared_count to_int count <? 1000000)%Z with false
        by (symmetry; apply Z.ltb_ge; lia).
      reflexivity.
    + apply Z.mod_unique with (q := (-1)%Z); lia.
Qed.

End TrackCountEdges.

Lemma read_tracks_takes_negative_count_witness :
  FixelCFE.read_tracks Instances.to_int "2000000" =
    ([FixelCFE.RunTrackQueue 2000000], Ok tt) /\
  FixelCFE.read_tracks Instances.to_int "-5" =
    ([FixelCFE.RunTrackQueue (2 ^ 64 + -5)], Ok tt).
Proof.
  split.
  - apply (proj1 (@read_tracks_takes_negative_count Instances.to_int
                    Instances_to_int_range "2000000")).
    vm_compute. discriminate.
  - apply (proj2 (@read_tracks_takes_negative_count Instances.to_int
                    Instances_to_int_range "-5")).
    reflexivity.
Defined.
